(** * Blipsort: a shallow embedding of [sort.cpp] and its properties

    The array is a [list Z]; a pointer into it is the [Z] offset from the
    base pointer [a] given to [blipsort] (so [low - 1] can be [-1], and
    [a + (cnt - 1)] can lie far behind the last element).  A read or a
    write through a pointer outside the array is undefined behaviour in
    the source; here it is the result [Fault].  Loops are run on a bound
    taken from the length of the array (a loop that touches a fresh cell
    at every turn cannot turn more often than there are cells); the
    result [OutOfFuel] says that such a bound was used up. *)

From Stdlib Require Import ZArith List Lia Bool Permutation.
Import ListNotations.
Local Open Scope Z_scope.

(** ** Results of fallible code *)

Inductive res (A : Type) : Type :=
| Ok (x : A)
| Fault
| OutOfFuel.

Arguments Ok {A} x.
Arguments Fault {A}.
Arguments OutOfFuel {A}.

Definition bind {A B : Type} (c : res A) (k : A -> res B) : res B :=
  match c with
  | Ok x => k x
  | Fault => Fault
  | OutOfFuel => OutOfFuel
  end.

Notation "x <- c ;; k" := (bind c (fun x => k))
  (at level 61, c at next level, right associativity).
Notation "' pat <- c ;; k" := (bind c (fun x => match x with pat => k end))
  (at level 61, pat pattern, c at next level, right associativity).

(** ** Fixed-width integers *)

(** Conversion to [uint32_t]. *)
Definition u32 (z : Z) : Z := z mod 2 ^ 32.

(** Conversion to [int]. *)
Definition i32 (z : Z) : Z := (z + 2 ^ 31) mod 2 ^ 32 - 2 ^ 31.

(** Conversion to [uint64_t]. *)
Definition u64 (z : Z) : Z := z mod 2 ^ 64.

(** The element type [E] is a signed integer of [bits] bits. *)
Definition minE (bits : Z) : Z := - 2 ^ (bits - 1).
Definition maxE (bits : Z) : Z := 2 ^ (bits - 1) - 1.
Definition inE (bits : Z) (v : Z) : Prop := minE bits <= v <= maxE bits.

(** Conversion to [E]: what a store of an [int] (or of an overflowed
    result) into an element leaves there. *)
Definition wrapE (bits : Z) (z : Z) : Z :=
  (z + 2 ^ (bits - 1)) mod 2 ^ bits - 2 ^ (bits - 1).

(** ** The array *)

Definition arr := list Z.

Definition len (a : arr) : Z := Z.of_nat (length a).

(** The cell [i] of the array ([0] outside of it, where [rd] faults). *)
Definition get (a : arr) (i : Z) : Z :=
  if i <? 0 then 0 else nth (Z.to_nat i) a 0.

Fixpoint put (n : nat) (v : Z) (a : arr) : arr :=
  match a, n with
  | [], _ => []
  | _ :: t, O => v :: t
  | h :: t, S n' => h :: put n' v t
  end.

(** The array with [v] in the cell [i] (the array itself when there is
    no such cell, where [wr] faults). *)
Definition upd (a : arr) (i : Z) (v : Z) : arr :=
  if i <? 0 then a else put (Z.to_nat i) v a.

Definition inb (a : arr) (i : Z) : bool := (0 <=? i) && (i <? len a).

(** [*i] as an rvalue. *)
Definition rd (a : arr) (i : Z) : res Z :=
  if inb a i then Ok (get a i) else Fault.

(** [*i = v]. *)
Definition wr (a : arr) (i : Z) (v : Z) : res arr :=
  if inb a i then Ok (upd a i v) else Fault.

(** The cells [lo .. hi] of the array, both ends included. *)
Definition sub (a : arr) (lo hi : Z) : arr :=
  firstn (Z.to_nat (hi + 1 - lo)) (skipn (Z.to_nat lo) a).

(** Number of cells holding [x]. *)
Definition cnt (x : Z) (a : arr) : nat := count_occ Z.eq_dec a x.

Definition ind (v x : Z) : nat := if Z.eq_dec v x then 1%nat else 0%nat.

(** The loop bound for a loop over the cells of [a]. *)
Definition cells (a : arr) : nat := S (length a).

(** ** [swap] *)

Definition swap (a : arr) (i j : Z) : res arr :=
  el <- rd a i ;;
  vj <- rd a j ;;
  a <- wr a i vj ;;
  wr a j el.

(** ** Scans

    [while (test( *++l ));] and [while (test( *--k ));] : the pointer is
    moved first, the cell it then points to is read, and the scan goes
    on while the test holds.  The value is the pointer at which the scan
    stopped. *)

Fixpoint scanUp (test : Z -> bool) (n : nat) (a : arr) (l : Z) : res Z :=
  match n with
  | O => OutOfFuel
  | S n' =>
      let l := l + 1 in
      v <- rd a l ;;
      if test v then scanUp test n' a l else Ok l
  end.

Fixpoint scanDown (test : Z -> bool) (n : nat) (a : arr) (k : Z) : res Z :=
  match n with
  | O => OutOfFuel
  | S n' =>
      let k := k - 1 in
      v <- rd a k ;;
      if test v then scanDown test n' a k else Ok k
  end.

(** ** The gap loop of branchless Lomuto

    [while (g < k) { *g++ = *l; *l = *g; l += test( *l ); }]
    with [test v] being [v < p] in the main partition, and, under the
    names [k] for the running pointer and [g] for its bound, [v == h] in
    the partition to the left.  The value is the array and the final
    [l] and [g]. *)

Fixpoint gapLoop (test : Z -> bool) (n : nat) (a : arr) (l g k : Z)
  : res (arr * Z * Z) :=
  if g <? k then
    match n with
    | O => OutOfFuel
    | S n' =>
        vl <- rd a l ;;
        a <- wr a g vl ;;
        let g := g + 1 in
        vg <- rd a g ;;
        a <- wr a l vg ;;
        vl <- rd a l ;;
        let l := l + (if test vl then 1 else 0) in
        gapLoop test n' a l g k
    end
  else Ok (a, l, g).

(** ** Constants *)

Definition InsertionThreshold : Z := 88.
Definition AscendingThreshold : Z := 8.
Definition LargeDataThreshold : Z := 128.

Definition DeBruijn64 : Z := 0x03F79D71B4CB0A89.

Definition DeBruijnTableF : list Z :=
  [ 0; 47;  1; 56; 48; 27;  2; 60;
   57; 49; 41; 37; 28; 16;  3; 61;
   54; 58; 35; 52; 50; 42; 21; 44;
   38; 32; 29; 23; 17; 11;  4; 62;
   46; 55; 26; 59; 40; 36; 15; 53;
   34; 51; 20; 43; 31; 22; 10; 45;
   25; 39; 14; 33; 19; 30;  9; 24;
   13; 18;  8; 12;  7;  6;  5; 63].

(** ** [parallelPrefixFill] and [bitScanRev] *)

Definition parallelPrefixFill (x : Z) : Z :=
  let x := Z.lor x (Z.shiftr x 1) in
  let x := Z.lor x (Z.shiftr x 2) in
  let x := Z.lor x (Z.shiftr x 4) in
  let x := Z.lor x (Z.shiftr x 8) in
  Z.lor x (Z.shiftr x 16).

Definition bitScanRev (l : Z) : Z :=
  let l := parallelPrefixFill l in
  nth (Z.to_nat (Z.shiftr (u64 (l * DeBruijn64)) 58)) DeBruijnTableF 0.

(** ** [siftDown] and [hSort]

    [b] is the base pointer [a] of [siftDown], an offset into the array
    of the model. *)

Fixpoint siftLoop (n : nat) (a : arr) (b sz o z x : Z) : res (arr * Z) :=
  if x <? o then
    match n with
    | O => OutOfFuel
    | S n' =>
        let l := u32 (Z.shiftl x 1 + 1) in
        let r := u32 (l + 1) in
        y <- rd a (b + l) ;;
        '(l, y) <- (if r <? sz then
                      vr <- rd a (b + r) ;;
                      if y <? vr then Ok (r, vr) else Ok (l, y)
                    else Ok (l, y)) ;;
        if y <=? z then Ok (a, x)
        else
          a <- wr a (b + x) y ;;
          siftLoop n' a b sz o z l
    end
  else Ok (a, x).

Definition siftDown (a : arr) (b i size : Z) : res arr :=
  let n := u32 size in
  let o := Z.shiftr n 1 in
  z <- rd a (b + i) ;;
  '(a, x) <- siftLoop (cells a) a b n o z (u32 i) ;;
  wr a (b + x) z.

(** [for (int i = x >> 1; i >= 0; --i) siftDown(l, i, x);] *)
Fixpoint buildHeap (n : nat) (a : arr) (l i x : Z) : res arr :=
  if 0 <=? i then
    match n with
    | O => OutOfFuel
    | S n' =>
        a <- siftDown a l i x ;;
        buildHeap n' a l (i - 1) x
    end
  else Ok a.

(** [while (l < --r) { z = *l; *l = *r; siftDown(l, 0, --x); *r = z; }] *)
Fixpoint sortHeap (n : nat) (a : arr) (l r x : Z) : res arr :=
  let r := r - 1 in
  if l <? r then
    match n with
    | O => OutOfFuel
    | S n' =>
        z <- rd a l ;;
        vr <- rd a r ;;
        a <- wr a l vr ;;
        let x := x - 1 in
        a <- siftDown a l 0 x ;;
        a <- wr a r z ;;
        sortHeap n' a l r x
    end
  else Ok a.

Definition hSort (a : arr) (low high : Z) : res arr :=
  let r := high + 1 in
  let l := low in
  let x := i32 (r - l) in
  a <- buildHeap (cells a) a l (Z.shiftr x 1) x ;;
  sortHeap (cells a) a l r x.

(** ** [iSort] *)

(** [for (; j >= l && t < *j; --j) j[1] = *j;] *)
Fixpoint shiftGuarded (n : nat) (a : arr) (l t j : Z) : res (arr * Z) :=
  if l <=? j then
    vj <- rd a j ;;
    if t <? vj then
      match n with
      | O => OutOfFuel
      | S n' =>
          a <- wr a (j + 1) vj ;;
          shiftGuarded n' a l t (j - 1)
      end
    else Ok (a, j)
  else Ok (a, j).

(** The guarded insertion sort, [for (E *i = l + 1; i <= r; ++i) ...].
    The value is the returned [bool], the final [moves] and the array. *)
Fixpoint insertLoop (Bail : bool) (n : nat) (a : arr) (l r i moves : Z)
  : res (bool * Z * arr) :=
  if i <=? r then
    match n with
    | O => OutOfFuel
    | S n' =>
        t <- rd a i ;;
        '(a, j) <- shiftGuarded (cells a) a l t (i - 1) ;;
        a <- wr a (j + 1) t ;;
        if Bail then
          let moves := i32 (moves + ((i - 1) - j)) in
          if AscendingThreshold <? u32 moves then Ok (false, moves, a)
          else insertLoop Bail n' a l r (i + 1) moves
        else insertLoop Bail n' a l r (i + 1) moves
    end
  else Ok (true, moves, a).

(** [do if (l++ >= r) return true; while ( *l >= *(l - 1));]
    [None] is the [return true]. *)
Fixpoint skipAscending (n : nat) (a : arr) (l r : Z) : res (option Z) :=
  match n with
  | O => OutOfFuel
  | S n' =>
      if r <=? l then Ok None
      else
        let l := l + 1 in
        vl <- rd a l ;;
        vp <- rd a (l - 1) ;;
        if vp <=? vl then skipAscending n' a l r else Ok (Some l)
  end.

(** [while (e < *--i) i[d] = *i;] *)
Fixpoint shiftDown (d : Z) (n : nat) (a : arr) (e i : Z) : res (arr * Z) :=
  match n with
  | O => OutOfFuel
  | S n' =>
      let i := i - 1 in
      v <- rd a i ;;
      if e <? v then
        a <- wr a (i + d) v ;;
        shiftDown d n' a e i
      else Ok (a, i)
  end.

(** [for (E *i = l; ++l <= r; i = ++l) ...]: at the test [i] and [l]
    are the same pointer.  The [bool] of the value is [false] when the
    loop was left by [return false], [true] when it ran to its end. *)
Fixpoint pairLoop (Bail : bool) (n : nat) (a : arr) (r l moves : Z)
  : res (bool * Z * arr) :=
  let i := l in
  let l := l + 1 in
  if l <=? r then
    match n with
    | O => OutOfFuel
    | S n' =>
        ex <- rd a i ;;
        ey <- rd a l ;;
        let '(ex, ey, moves) :=
          if ey <? ex then (ey, ex, i32 (moves + 1)) else (ex, ey, moves) in
        '(a, i) <- shiftDown 2 (cells a) a ey i ;;
        let i := i + 1 in
        a <- wr a (i + 1) ey ;;
        '(a, i) <- shiftDown 1 (cells a) a ex i ;;
        a <- wr a (i + 1) ex ;;
        if Bail then
          let moves := i32 (moves + ((l - 2) - i)) in
          if AscendingThreshold <? u32 moves then Ok (false, moves, a)
          else pairLoop Bail n' a r (l + 1) moves
        else pairLoop Bail n' a r (l + 1) moves
    end
  else Ok (true, moves, a).

(** [iSort] with its local [moves] in the value. *)
Definition iSortM (Bail leftmost : bool) (a : arr) (low high : Z)
  : res (bool * Z * arr) :=
  let l := low in
  let r := high in
  if leftmost then insertLoop Bail (cells a) a l r (l + 1) 0
  else
    s <- skipAscending (cells a) a l r ;;
    match s with
    | None => Ok (true, 0, a)
    | Some l =>
        '(b, moves, a) <- pairLoop Bail (cells a) a r l 0 ;;
        if b then
          ez <- rd a r ;;
          '(a, r) <- shiftDown 1 (cells a) a ez r ;;
          a <- wr a (r + 1) ez ;;
          Ok (true, moves, a)
        else Ok (false, moves, a)
    end.

Definition iSort (Bail leftmost : bool) (a : arr) (low high : Z)
  : res (bool * arr) :=
  '(b, _, a) <- iSortM Bail leftmost a low high ;;
  Ok (b, a).

(** ** [scramble] *)

Definition scramble (a : arr) (low high len : Z) : res arr :=
  if InsertionThreshold <=? len then
    let _4th := i32 (Z.shiftr len 2) in
    a <- swap a low (low + _4th) ;;
    a <- swap a high (high - _4th) ;;
    if LargeDataThreshold <? len then
      a <- swap a (low + 1) (low + (_4th + 1)) ;;
      a <- swap a (low + 2) (low + (_4th + 2)) ;;
      a <- swap a (high - 2) (high - (_4th + 2)) ;;
      swap a (high - 1) (high - (_4th + 1))
    else Ok a
  else Ok a.

(** ** The pieces of [qSort] *)

(** The candidate pivots [(cl, sl, mid, sr, cr)] of the interval. *)
Definition candidates (x low high : Z) : Z * Z * Z * Z * Z :=
  let y := Z.shiftr x 2 in
  let _3rd := u32 (y + Z.shiftr y 1) in
  let _6th := Z.shiftr _3rd 1 in
  let mid := low + Z.shiftr x 1 in
  let sl := low + _3rd in
  let sr := high - _3rd in
  let cl := low + _6th in
  let cr := high - _6th in
  (cl, sl, mid, sr, cr).

(** [*low <= *cl | *cl <= *sl | *sl <= *mid | *mid <= *sr | *sr <= *cr |
    *cr <= *high]: all six comparisons are evaluated. *)
Definition notDescending (a : arr) (low cl sl mid sr cr high : Z) : res bool :=
  vlow <- rd a low ;;
  vcl <- rd a cl ;;
  vsl <- rd a sl ;;
  vmid <- rd a mid ;;
  vsr <- rd a sr ;;
  vcr <- rd a cr ;;
  vhigh <- rd a high ;;
  Ok ((vlow <=? vcl) || (vcl <=? vsl) || (vsl <=? vmid) ||
      (vmid <=? vsr) || (vsr <=? vcr) || (vcr <=? vhigh)).

(** One arm of the unrolled insertion sort of the candidates, with [e]
    already stored at [q] or about to be overwritten there: for the
    candidates [p1; p2; ...] to the left of [q], nearest first,
    [if (e < *p1) { *q = *p1; *p1 = e; if (e < *p2) { *p1 = *p2; *p2 = e;
    ... } }]. *)
Fixpoint sink (a : arr) (e : Z) (left : list Z) (q : Z) : res arr :=
  match left with
  | [] => Ok a
  | p :: left' =>
      v <- rd a p ;;
      if e <? v then
        a <- wr a q v ;;
        a <- wr a p e ;;
        sink a e left' p
      else Ok a
  end.

(** The body of [if ( *low <= *cl | ... )]: [cl] and [cr] are moved to
    the ends when those hold smaller and larger values, then the five
    candidates are insertion sorted in place. *)
Definition sortCandidates (a : arr) (low cl sl mid sr cr high : Z) : res arr :=
  vlow <- rd a low ;;
  vcl <- rd a cl ;;
  let cl := if vlow <? vcl then low else cl in
  vhigh <- rd a high ;;
  vcr <- rd a cr ;;
  let cr := if vcr <? vhigh then high else cr in
  e <- rd a sl ;;
  a <- sink a e [cl] sl ;;
  e <- rd a mid ;;
  a <- sink a e [sl; cl] mid ;;
  e <- rd a sr ;;
  a <- sink a e [mid; sl; cl] sr ;;
  e <- rd a cr ;;
  sink a e [sr; mid; sl; cl] cr.

(** [while (u < mid) { E e = *u; *u++ = *q; *q-- = e; }] *)
Fixpoint rotate (n : nat) (a : arr) (u q mid : Z) : res arr :=
  if u <? mid then
    match n with
    | O => OutOfFuel
    | S n' =>
        e <- rd a u ;;
        vq <- rd a q ;;
        a <- wr a u vq ;;
        a <- wr a q e ;;
        rotate n' a (u + 1) (q - 1) mid
    end
  else Ok a.

(** Pivot selection: the test and the arm it chooses. *)
Definition selectPivot (a : arr) (low cl sl mid sr cr high : Z) : res arr :=
  nd <- notDescending a low cl sl mid sr cr high ;;
  if nd then sortCandidates a low cl sl mid sr cr high
  else rotate (cells a) a low high mid.

(** [h == *sl || h == *mid || h == *sr], with the short circuit. *)
Definition equalsCandidate (a : arr) (h sl mid sr : Z) : res bool :=
  vsl <- rd a sl ;;
  if h =? vsl then Ok true
  else
    vmid <- rd a mid ;;
    if h =? vmid then Ok true
    else
      vsr <- rd a sr ;;
      Ok (h =? vsr).

(** [g = l + (l < high); l -= (l > low);] : the value is [(l, g)]. *)
Definition skipPivot (l low high : Z) : Z * Z :=
  (l - (if low <? l then 1 else 0), l + (if l <? high then 1 else 0)).

Section Element.

(** The width of the element type: 8, 16, 32 or 64. *)
Variable bits : Z.

(** Partition to the left, from [E* l = low - 1] to [low = l]: the value
    is the array and the new [low]. *)
Definition partitionLeft (a : arr) (low high h : Z) : res (arr * Z) :=
  let l := low - 1 in
  let g := high + 1 in
  g <- scanDown (fun v => h <? v) (cells a) a g ;;
  e <- rd a g ;;
  a <- wr a g (wrapE bits (h + 1)) ;;
  l <- scanUp (fun v => v =? h) (cells a) a l ;;
  a <- wr a g e ;;
  let k := l in
  p <- rd a l ;;
  '(a, l, k) <- gapLoop (fun v => v =? h) (cells a) a l k g ;;
  vl <- rd a l ;;
  a <- wr a k vl ;;
  a <- wr a l p ;;
  let l := l + (if p =? h then 1 else 0) in
  Ok (a, l).

(** The two scans of the main partition, from [E *l = low - 1] to
    [while ( *--k >= p );]: the value is the array and the pointers [l]
    and [k] at which the scans stopped. *)
Definition prepareMain (a : arr) (low mid high : Z) : res (arr * Z * Z) :=
  let l := low - 1 in
  let k := high + 1 in
  p <- rd a mid ;;
  l <- scanUp (fun v => v <? p) (cells a) a l ;;
  vl <- rd a l ;;
  a <- wr a mid vl ;;
  a <- wr a l (wrapE bits (p - 1)) ;;
  k <- scanDown (fun v => p <=? v) (cells a) a k ;;
  Ok (a, l, k).

(** The main partition, from [E *l = low - 1] to [*g = *l; *l = p;]:
    the value is the array, the place [l] of the pivot and [work]. *)
Definition partitionMain (a : arr) (x low mid high : Z)
  : res (arr * Z * bool) :=
  p <- rd a mid ;;
  '(a, l, k) <- prepareMain a low mid high ;;
  let work := (l - low) + (high - k) <? Z.shiftr x 1 in
  let g := l in
  '(a, l, g) <- gapLoop (fun v => v <? p) (cells a) a l g k ;;
  vl <- rd a l ;;
  a <- wr a g vl ;;
  a <- wr a l p ;;
  Ok (a, l, work).

(** The label [l2:] of [qSort] and what follows it, to the end of the
    body of the loop; [rec] is [qSort] on the fuel that is left. *)
Definition l2 (rec : bool -> bool -> arr -> Z -> Z -> Z -> res arr)
  (Root : bool) (a : arr) (g high height : Z) : res arr :=
  let low := g in
  let x := u32 (high - low) in
  if Root && (x <? InsertionThreshold) then
    '(_, a) <- iSort false false a low high ;;
    Ok a
  else if Root && (height <? 0) then hSort a low high
  else rec Root false a low high height.

(** The label [l1:] of [qSort]: the recursive call, which runs on into
    [l2:]. *)
Definition l1 (rec : bool -> bool -> arr -> Z -> Z -> Z -> res arr)
  (Root leftmost : bool) (a : arr) (low l g high height : Z) : res arr :=
  a <- rec false leftmost a low l height ;;
  l2 rec Root a g high height.

(** The body of the loop of [qSort] from [E *l = low - 1, *k = high + 1;]
    on: the main partition, the attempt at insertion sort when the
    partition is balanced, [scramble] when it is not, and the jumps to
    [l1:] and [l2:]. *)
Definition mainStep (rec : bool -> bool -> arr -> Z -> Z -> Z -> res arr)
  (Root leftmost : bool) (a : arr) (x low mid high height : Z) : res arr :=
  '(a, l, work) <- partitionMain a x low mid high ;;
  let '(l, g) := skipPivot l low high in
  let _8th := Z.shiftr x 3 in
  let ls := u32 (l - low) in
  let gs := u32 (high - g) in
  if (_8th <=? ls) && (_8th <=? gs) then
    if work then l1 rec Root leftmost a low l g high height
    else
      '(ok, a) <- iSort true leftmost a low l ;;
      if negb ok then l1 rec Root leftmost a low l g high height
      else
        '(ok, a) <- iSort true false a g high ;;
        if negb ok then l2 rec Root a g high height
        else Ok a
  else
    a <- scramble a low l ls ;;
    a <- scramble a g high gs ;;
    l1 rec Root leftmost a low l g high (height - 1).

(** [qSort<E, Root>(leftmost, low, high, height)].  One unit of [fuel]
    is one turn of the tail call loop or one recursive call.  [x] is
    [high - low] at the head of every turn of the loop. *)
Fixpoint qSort (fuel : nat) (Root leftmost : bool) (a : arr)
  (low high height : Z) : res arr :=
  match fuel with
  | O => OutOfFuel
  | S fuel' =>
      let x := u32 (high - low) in
      if negb Root && (x <? InsertionThreshold) then
        '(_, a) <- iSort false leftmost a low high ;;
        Ok a
      else if negb Root && (height <? 0) then hSort a low high
      else
        let '(cl, sl, mid, sr, cr) := candidates x low high in
        a <- selectPivot a low cl sl mid sr cr high ;;
        if negb leftmost then
          h <- rd a (low - 1) ;;
          eq <- equalsCandidate a h sl mid sr ;;
          if eq then
            '(a, low) <- partitionLeft a low high h ;;
            if high <=? low then Ok a
            else qSort fuel' Root leftmost a low high height
          else mainStep (qSort fuel') Root leftmost a x low mid high height
        else mainStep (qSort fuel') Root leftmost a x low mid high height
  end.

(** [Arrays::blipsort(a, cnt)]; [a] is the offset 0. *)
Definition blipsort (fuel : nat) (a : arr) (cnt : Z) : res arr :=
  if cnt <? InsertionThreshold then
    '(_, a) <- iSort false true a 0 (0 + u32 (cnt - 1)) ;;
    Ok a
  else
    let log2Cnt := bitScanRev cnt in
    qSort fuel true true a 0 (0 + u32 (cnt - 1)) log2Cnt.

End Element.

(** ** Notions of the specification *)

(** [b] is [a] with the cells [lo .. hi] rearranged. *)
Definition permOn (lo hi : Z) (a b : arr) : Prop :=
  len a = len b /\
  (forall i, i < lo \/ hi < i -> get b i = get a i) /\
  (forall x, cnt x b = cnt x a).

(** The candidates [left], nearest first, and the one at [q] to their
    right hold an ascending run: [... <= *p2 <= *p1 <= *q]. *)
Fixpoint chain (a : arr) (q : Z) (left : list Z) : Prop :=
  match left with
  | [] => True
  | p :: left' => get a p <= get a q /\ chain a p left'
  end.

(** The value an arm of the insertion sort of the candidates leaves at
    [q]. *)
Definition top (a : arr) (e : Z) (left : list Z) : Z :=
  match left with
  | [] => e
  | p :: _ => Z.max e (get a p)
  end.

(** The cells [lo .. hi] hold an ascending run. *)
Definition sortedOn (lo hi : Z) (a : arr) : Prop :=
  forall i j, lo <= i -> i <= j -> j <= hi -> get a i <= get a j.

(** Every cell holds a value of the element type. *)
Definition allE (bits : Z) (a : arr) : bool :=
  forallb (fun v => (minE bits <=? v) && (v <=? maxE bits)) a.

(** The six comparisons of the monotonicity test all fail:
    [*low > *cl > *sl > *mid > *sr > *cr > *high]. *)
Definition descending (a : arr) (low cl sl mid sr cr high : Z) : Prop :=
  get a cl < get a low /\ get a sl < get a cl /\ get a mid < get a sl /\
  get a sr < get a mid /\ get a cr < get a sr /\ get a high < get a cr.

(** In the heap of [n] cells at [b] no child of the node [j] holds more
    than the node. *)
Definition heapAt (a : arr) (b n j : Z) : Prop :=
  (2 * j + 1 < n -> get a (b + (2 * j + 1)) <= get a (b + j)) /\
  (2 * j + 2 < n -> get a (b + (2 * j + 2)) <= get a (b + j)).

(** While [z] is sifted down from the node [i] there is a hole at [x]:
    every node from [i] on, but the hole while it is at [i], has the
    heap property, and the hole, once below [i], holds a copy of its
    parent, which is more than [z]. *)
Definition holeAt (b n i z : Z) (a : arr) (x : Z) : Prop :=
  b + n <= len a /\ i <= x < n /\
  (forall j, i <= j < n -> j <> i \/ x <> i -> heapAt a b n j) /\
  (x <> i -> z < get a (b + x)).

(** The cells [low .. l] hold no more than [p], the cells between [l]
    and [g] hold [p], the cells [g .. high] hold no less. *)
Definition split3 (low l g high p : Z) (a : arr) : Prop :=
  (forall i, low <= i <= l -> get a i <= p) /\
  (forall i, l < i < g -> get a i = p) /\
  (forall i, g <= i <= high -> p <= get a i).

(** The cells [low .. high] hold values of the element type other than
    the least one. *)
Definition aboveLeast (bits low high : Z) (a : arr) : Prop :=
  forall k, low <= k <= high -> minE bits < get a k <= maxE bits.

(** The cell before the interval, when there is one to look at, holds
    no more than any cell of the interval. *)
Definition guarded (leftmost : bool) (low high : Z) (a : arr) : Prop :=
  leftmost = false ->
  1 <= low /\ forall k, low <= k <= high -> get a (low - 1) <= get a k.

(** The result [r] is the array [a] with the cells [low .. high] put in
    order. *)
Definition sorts (low high : Z) (a : arr) (r : res arr) : Prop :=
  exists a', r = Ok a' /\ permOn low high a a' /\ sortedOn low high a'.

(** The cells [low .. high] hold values of the element type. *)
Definition elements (bits low high : Z) (a : arr) : Prop :=
  forall k, low <= k <= high -> minE bits <= get a k <= maxE bits.

(** What [qSort] asks of the values of a frame: none is the least
    element when the frame is leftmost; otherwise they, and the cell
    before them, hold values of the element type. *)
Definition pivotable (bits : Z) (leftmost : bool) (low high : Z) (a : arr)
  : Prop :=
  if leftmost then aboveLeast bits low high a
  else elements bits (low - 1) high a.

(** Each cell holds less than the next one. *)
Fixpoint ascending (a : arr) : bool :=
  match a with
  | x :: (y :: _) as t => (x <? y) && ascending t
  | _ => true
  end.

(** Some bit of [x] among the [w] bits from [i] on is set. *)
Definition window (x w i : Z) : Prop :=
  exists j, 0 <= j < w /\ Z.testbit x (i + j) = true.

(** * Properties *)

(** ** The array *)

Lemma len_nonneg (a : arr) : 0 <= len a.
Proof. unfold len. lia. Qed.

Lemma length_put (n : nat) (v : Z) (a : arr) : length (put n v a) = length a.
Proof.
  revert n. induction a as [|h t IH]; intros [|n]; simpl; auto.
Qed.

Lemma len_upd (a : arr) (i v : Z) : len (upd a i v) = len a.
Proof.
  unfold len, upd. destruct (i <? 0); auto. now rewrite length_put.
Qed.

Lemma cells_upd (a : arr) (i v : Z) : cells (upd a i v) = cells a.
Proof.
  unfold cells, upd. destruct (i <? 0); auto. now rewrite length_put.
Qed.

Lemma nth_put_eq (n : nat) (v : Z) (a : arr) :
  (n < length a)%nat -> nth n (put n v a) 0 = v.
Proof.
  revert n. induction a as [|h t IH]; intros [|n] H; simpl in *;
    try lia; auto. apply IH. lia.
Qed.

Lemma nth_put_ne (n m : nat) (v : Z) (a : arr) :
  n <> m -> nth m (put n v a) 0 = nth m a 0.
Proof.
  revert n m. induction a as [|h t IH]; intros [|n] [|m] H; simpl;
    try congruence; auto.
Qed.

Lemma get_upd_eq (a : arr) (i v : Z) :
  0 <= i < len a -> get (upd a i v) i = v.
Proof.
  unfold get, upd, len. intros H.
  destruct (Z.ltb_spec i 0); try lia. apply nth_put_eq. lia.
Qed.

Lemma get_upd_ne (a : arr) (i j v : Z) :
  i <> j -> get (upd a i v) j = get a j.
Proof.
  unfold get, upd. intros H.
  destruct (Z.ltb_spec i 0); auto.
  destruct (Z.ltb_spec j 0); auto.
  apply nth_put_ne. lia.
Qed.

Lemma get_upd (a : arr) (i j v : Z) :
  0 <= i < len a ->
  get (upd a i v) j = if j =? i then v else get a j.
Proof.
  intros H. destruct (Z.eqb_spec j i) as [->|N].
  - now apply get_upd_eq.
  - apply get_upd_ne. congruence.
Qed.

Lemma upd_same (a : arr) (i : Z) : upd a i (get a i) = a.
Proof.
  unfold upd, get. destruct (i <? 0); auto.
  generalize (Z.to_nat i). clear i. intros n. revert n.
  induction a as [|h t IH]; intros [|n]; simpl; auto.
  now rewrite IH.
Qed.

Lemma cnt_put (x : Z) (n : nat) (v : Z) (a : arr) :
  (n < length a)%nat ->
  (cnt x (put n v a) + ind (nth n a 0%Z) x = cnt x a + ind v x)%nat.
Proof.
  unfold cnt, ind. revert n.
  induction a as [|h t IH]; intros [|n] H; simpl in *; try lia.
  - destruct (Z.eq_dec v x), (Z.eq_dec h x); lia.
  - specialize (IH n ltac:(lia)).
    destruct (Z.eq_dec h x); lia.
Qed.

(** Writing a cell takes its old value out of the multiset and puts the
    new one in. *)
Lemma cnt_upd (x : Z) (a : arr) (i v : Z) :
  0 <= i < len a ->
  (cnt x (upd a i v) + ind (get a i) x = cnt x a + ind v x)%nat.
Proof.
  unfold upd, get, len. intros H.
  destruct (Z.ltb_spec i 0); try lia. apply cnt_put. lia.
Qed.

Lemma inb_true (a : arr) (i : Z) : 0 <= i < len a -> inb a i = true.
Proof. unfold inb. intros H. apply andb_true_iff. split; lia. Qed.

Lemma inb_false (a : arr) (i : Z) : i < 0 \/ len a <= i -> inb a i = false.
Proof. unfold inb. intros H. apply andb_false_iff. lia. Qed.

Lemma rd_ok (a : arr) (i : Z) : 0 <= i < len a -> rd a i = Ok (get a i).
Proof. unfold rd. intros H. now rewrite inb_true. Qed.

Lemma wr_ok (a : arr) (i v : Z) :
  0 <= i < len a -> wr a i v = Ok (upd a i v).
Proof. unfold wr. intros H. now rewrite inb_true. Qed.

Lemma rd_fault (a : arr) (i : Z) : i < 0 \/ len a <= i -> rd a i = Fault.
Proof. unfold rd. intros H. now rewrite inb_false. Qed.

Lemma perm_of_cnt (a b : arr) :
  (forall x, cnt x a = cnt x b) -> Permutation a b.
Proof. intros H. apply (Permutation_count_occ Z.eq_dec). exact H. Qed.

Lemma cnt_of_perm (a b : arr) (x : Z) :
  Permutation a b -> cnt x a = cnt x b.
Proof. intros H. now apply (Permutation_count_occ Z.eq_dec). Qed.

Lemma get_nth (a : arr) (n : nat) : get a (Z.of_nat n) = nth n a 0.
Proof.
  unfold get. destruct (Z.ltb_spec (Z.of_nat n) 0); try lia.
  now rewrite Nat2Z.id.
Qed.

(** Arrays of one length with the same cells are the same array. *)
Lemma arr_ext (a b : arr) :
  len a = len b ->
  (forall i, 0 <= i < len a -> get a i = get b i) ->
  a = b.
Proof.
  unfold len. intros L H.
  apply (nth_ext a b 0 0); [lia|].
  intros n Hn. rewrite <- !get_nth. apply H. lia.
Qed.

Lemma len_sub (a : arr) (lo hi : Z) :
  0 <= lo -> lo <= hi + 1 -> hi < len a -> len (sub a lo hi) = hi + 1 - lo.
Proof.
  unfold len, sub. intros.
  rewrite length_firstn, length_skipn. lia.
Qed.

Lemma get_sub (a : arr) (lo hi i : Z) :
  0 <= lo -> hi < len a -> 0 <= i <= hi - lo ->
  get (sub a lo hi) i = get a (lo + i).
Proof.
  unfold len, sub, get. intros.
  destruct (Z.ltb_spec i 0); try lia.
  destruct (Z.ltb_spec (lo + i) 0); try lia.
  rewrite nth_firstn.
  destruct (Nat.ltb_spec (Z.to_nat i) (Z.to_nat (hi + 1 - lo))); try lia.
  rewrite nth_skipn. f_equal. lia.
Qed.

(** The array is what lies before [lo], the cells [lo .. hi], and what
    lies behind [hi]. *)
Lemma split_sub (a : arr) (lo hi : Z) :
  0 <= lo -> lo <= hi + 1 -> hi < len a ->
  a = firstn (Z.to_nat lo) a ++ sub a lo hi ++ skipn (Z.to_nat (hi + 1)) a.
Proof.
  unfold sub, len. intros.
  rewrite <- (firstn_skipn (Z.to_nat lo) a) at 1. f_equal.
  rewrite <- (firstn_skipn (Z.to_nat (hi + 1 - lo)) (skipn (Z.to_nat lo) a)) at 1.
  f_equal. rewrite skipn_skipn. f_equal. lia.
Qed.

Lemma permOn_refl (lo hi : Z) (a : arr) : permOn lo hi a a.
Proof. repeat split; auto. Qed.

Lemma permOn_trans (lo hi : Z) (a b c : arr) :
  permOn lo hi a b -> permOn lo hi b c -> permOn lo hi a c.
Proof.
  intros (L1 & O1 & C1) (L2 & O2 & C2). repeat split.
  - congruence.
  - intros i Hi. rewrite O2, O1; auto.
  - intros x. rewrite C2, C1; auto.
Qed.

Lemma permOn_weaken (lo hi lo' hi' : Z) (a b : arr) :
  lo' <= lo -> hi <= hi' -> permOn lo hi a b -> permOn lo' hi' a b.
Proof.
  intros H1 H2 (L & O & C). repeat split; auto.
  intros i Hi. apply O. lia.
Qed.

Lemma firstn_ext (a b : arr) (n : nat) :
  len a = len b ->
  (forall i, 0 <= i < Z.of_nat n -> get b i = get a i) ->
  firstn n b = firstn n a.
Proof.
  unfold len. intros L H.
  apply (nth_ext _ _ 0 0).
  - rewrite !length_firstn. lia.
  - intros m Hm. rewrite length_firstn in Hm.
    rewrite !nth_firstn.
    destruct (Nat.ltb_spec m n); auto.
    rewrite <- !get_nth. apply H. lia.
Qed.

Lemma skipn_ext (a b : arr) (n : nat) :
  len a = len b ->
  (forall i, Z.of_nat n <= i -> get b i = get a i) ->
  skipn n b = skipn n a.
Proof.
  unfold len. intros L H.
  apply (nth_ext _ _ 0 0).
  - rewrite !length_skipn. lia.
  - intros m Hm. rewrite !nth_skipn, <- !get_nth. apply H. lia.
Qed.

(** Rearranging the cells [lo .. hi] permutes that part of the array. *)
Lemma permOn_sub (lo hi : Z) (a b : arr) :
  0 <= lo -> lo <= hi + 1 -> hi < len a ->
  permOn lo hi a b ->
  Permutation (sub a lo hi) (sub b lo hi).
Proof.
  intros H0 H1 H2 (L & O & C).
  assert (P : Permutation a b) by (apply perm_of_cnt; intros; now rewrite C).
  rewrite (split_sub a lo hi), (split_sub b lo hi) in P by lia.
  rewrite (firstn_ext a b) in P; auto; [|intros; apply O; lia].
  rewrite (skipn_ext a b) in P; auto; [|intros; apply O; lia].
  apply Permutation_app_inv_l in P.
  apply Permutation_app_inv_r in P. exact P.
Qed.

Lemma permOn_perm (lo hi : Z) (a b : arr) :
  permOn lo hi a b -> Permutation a b.
Proof.
  intros (L & O & C). apply perm_of_cnt. intros. now rewrite C.
Qed.

(** Reads and writes inside the array go through. *)
Ltac mem_step :=
  match goal with
  | |- context [rd ?a ?i] =>
      rewrite (rd_ok a i) by (rewrite ?len_upd; lia)
  | |- context [wr ?a ?i ?v] =>
      rewrite (wr_ok a i v) by (rewrite ?len_upd; lia)
  end.

Ltac mem := repeat (mem_step; cbn [bind]).

(** Closed arithmetic facts, by evaluation. *)
Ltac concrete :=
  repeat split; vm_compute; first [reflexivity | discriminate].

(** ** Scans *)

(** A scan upwards stops at the first cell that fails the test, when
    there is one. *)
Lemma scanUp_ok (test : Z -> bool) (n : nat) (a : arr) (l m : Z) :
  l < m -> 0 <= l + 1 -> m < len a ->
  test (get a m) = false ->
  (Z.to_nat (m - l) <= n)%nat ->
  exists l', scanUp test n a l = Ok l' /\ l < l' <= m /\
    test (get a l') = false /\
    (forall i, l < i < l' -> test (get a i) = true).
Proof.
  revert l. induction n as [|n IH]; intros l H1 H2 H3 H4 H5; [lia|].
  cbn [scanUp]. mem.
  destruct (test (get a (l + 1))) eqn:T.
  - assert (l + 1 <> m) by (intros E; rewrite E in T; congruence).
    destruct (IH (l + 1) ltac:(lia) ltac:(lia) H3 H4 ltac:(lia))
      as (l' & E & B & F & A).
    exists l'. repeat split; auto; try lia.
    intros i Hi. destruct (Z.eq_dec i (l + 1)) as [->|]; auto.
    apply A. lia.
  - exists (l + 1). repeat split; auto; try lia.
Qed.

(** A scan downwards stops at the first cell that fails the test, when
    there is one. *)
Lemma scanDown_ok (test : Z -> bool) (n : nat) (a : arr) (k m : Z) :
  m < k -> k - 1 < len a -> 0 <= m ->
  test (get a m) = false ->
  (Z.to_nat (k - m) <= n)%nat ->
  exists k', scanDown test n a k = Ok k' /\ m <= k' < k /\
    test (get a k') = false /\
    (forall i, k' < i < k -> test (get a i) = true).
Proof.
  revert k. induction n as [|n IH]; intros k H1 H2 H3 H4 H5; [lia|].
  cbn [scanDown]. mem.
  destruct (test (get a (k - 1))) eqn:T.
  - assert (k - 1 <> m) by (intros E; rewrite E in T; congruence).
    destruct (IH (k - 1) ltac:(lia) ltac:(lia) H3 H4 ltac:(lia))
      as (k' & E & B & F & A).
    exists k'. repeat split; auto; try lia.
    intros i Hi. destruct (Z.eq_dec i (k - 1)) as [->|]; auto.
    apply A. lia.
  - exists (k - 1). repeat split; auto; try lia.
Qed.

(** A scan downwards over cells that all pass the test leaves the
    array. *)
Lemma scanDown_fault (test : Z -> bool) (n : nat) (a : arr) (k : Z) :
  0 <= k <= len a ->
  (forall i, 0 <= i < k -> test (get a i) = true) ->
  (Z.to_nat k < n)%nat ->
  scanDown test n a k = Fault.
Proof.
  revert k. induction n as [|n IH]; intros k H1 H2 H3; [lia|].
  cbn [scanDown].
  destruct (Z.eq_dec k 0) as [->|N].
  - rewrite rd_fault by lia. reflexivity.
  - mem. rewrite H2 by lia. apply IH; try lia.
    intros i Hi. apply H2. lia.
Qed.

(** ** The gap loop *)

(** With the gap at [g], the cells [l .. g - 1] failing the test and
    [g < k] cells to go, the loop ends with the gap at [k], the cells
    from the old [l] up to the new one passing the test and the cells
    from there up to [k - 1] failing it; filling the gap with one value
    before and after gives the same multiset. *)
Lemma gapLoop_ok (test : Z -> bool) (n : nat) (a : arr) (l g k : Z) :
  0 <= l <= g -> g <= k -> k < len a ->
  (Z.to_nat (k - g) <= n)%nat ->
  (forall i, l <= i < g -> test (get a i) = false) ->
  exists a' l', gapLoop test n a l g k = Ok (a', l', k) /\
    l <= l' <= k /\ l' - l <= k - g /\
    len a' = len a /\
    (forall i, i < l \/ k < i -> get a' i = get a i) /\
    (forall i, l <= i < l' -> test (get a' i) = true) /\
    (forall i, l' <= i < k -> test (get a' i) = false) /\
    (forall v x, cnt x (upd a' k v) = cnt x (upd a g v)).
Proof.
  revert a l g. induction n as [|n IH]; intros a l g H1 H2 H3 H4 H5.
  - assert (g = k) by lia. subst g.
    unfold gapLoop. rewrite Z.ltb_irrefl.
    exists a, l. repeat split; auto; lia.
  - cbn [gapLoop]. destruct (Z.ltb_spec g k) as [Lt|Ge].
    + mem.
      set (a1 := upd a g (get a l)).
      set (a2 := upd a1 l (get a1 (g + 1))).
      assert (L1 : len a1 = len a) by apply len_upd.
      assert (L2 : len a2 = len a) by (unfold a2; now rewrite len_upd).
      assert (G1 : get a1 (g + 1) = get a (g + 1))
        by (apply get_upd_ne; lia).
      assert (G2 : get a2 l = get a (g + 1))
        by (unfold a2; rewrite get_upd_eq by lia; exact G1).
      rewrite G2.
      set (d := if test (get a (g + 1)) then 1 else 0).
      assert (Hd : d = 0 \/ d = 1) by (unfold d; destruct (test _); lia).
      assert (H6 : forall i, l + d <= i < g + 1 -> test (get a2 i) = false).
      { intros i Hi. unfold a2.
        destruct (Z.eq_dec i l) as [->|Nl].
        - rewrite get_upd_eq by lia. rewrite G1.
          unfold d in Hi. destruct (test (get a (g + 1))); auto. lia.
        - rewrite get_upd_ne by lia. unfold a1.
          destruct (Z.eq_dec i g) as [->|Ng].
          + rewrite get_upd_eq by lia. apply H5. lia.
          + rewrite get_upd_ne by lia. apply H5. lia. }
      destruct (IH a2 (l + d) (g + 1) ltac:(lia) ltac:(lia) ltac:(lia)
                  ltac:(lia) H6)
        as (a' & l' & E & B & B' & L & O & T & F & C).
      exists a', l'.
      split; [exact E|]. split; [lia|]. split; [lia|].
      split; [congruence|].
      split; [|split; [|split; [|]]].
      * intros i Hi. rewrite O by lia. unfold a2, a1.
        rewrite !get_upd_ne by lia. reflexivity.
      * intros i Hi. destruct (Z_lt_ge_dec i (l + d)) as [Lt'|Ge'].
        -- assert (i = l) by lia. subst i.
           rewrite O by lia. rewrite G2.
           unfold d in Lt'. destruct (test (get a (g + 1))); auto. lia.
        -- apply T. lia.
      * intros i Hi. apply F. lia.
      * intros v x. rewrite C.
        pose proof (cnt_upd x a2 (g + 1) v ltac:(lia)) as Q1.
        pose proof (cnt_upd x a1 l (get a1 (g + 1)) ltac:(lia)) as Q2.
        pose proof (cnt_upd x a g (get a l) ltac:(lia)) as Q3.
        pose proof (cnt_upd x a g v ltac:(lia)) as Q4.
        fold a1 in Q3. fold a2 in Q2.
        assert (G3 : get a2 (g + 1) = get a (g + 1)).
        { unfold a2. rewrite get_upd_ne by lia. exact G1. }
        assert (G4 : get a1 l = get a l).
        { unfold a1. destruct (Z.eq_dec l g) as [->|Ng].
          - now rewrite get_upd_eq by lia.
          - now rewrite get_upd_ne by lia. }
        rewrite G3 in Q1. rewrite G4, G1 in Q2. lia.
    + assert (g = k) by lia. subst g.
      exists a, l. repeat split; auto; lia.
Qed.

(** ** Element arithmetic *)

Lemma pow2_half (bits : Z) : 0 < bits -> 2 ^ bits = 2 * 2 ^ (bits - 1).
Proof.
  intros H. replace bits with (Z.succ (bits - 1)) at 1 by lia.
  apply Z.pow_succ_r. lia.
Qed.

Lemma pow2_pos (n : Z) : 0 <= n -> 0 < 2 ^ n.
Proof. intros H. apply Z.pow_pos_nonneg; lia. Qed.

(** Above the least element, [p - 1] does not wrap around. *)
Lemma wrapE_pred (bits p : Z) :
  0 < bits -> minE bits < p <= maxE bits -> wrapE bits (p - 1) = p - 1.
Proof.
  unfold minE, maxE, wrapE. intros Hb Hp.
  pose proof (pow2_half bits Hb). pose proof (pow2_pos (bits - 1) ltac:(lia)).
  rewrite Z.mod_small; lia.
Qed.

(** At the least element, [p - 1] wraps around to the greatest one. *)
Lemma wrapE_pred_min (bits : Z) :
  0 < bits -> wrapE bits (minE bits - 1) = maxE bits.
Proof.
  unfold minE, maxE, wrapE. intros Hb.
  pose proof (pow2_half bits Hb). pose proof (pow2_pos (bits - 1) ltac:(lia)).
  replace (- 2 ^ (bits - 1) - 1 + 2 ^ (bits - 1))
    with (2 ^ bits - 1 + (-1) * 2 ^ bits) by lia.
  rewrite Z.mod_add by lia. rewrite Z.mod_small; lia.
Qed.

(** [h + 1], wrapped around or not, is not [h]. *)
Lemma wrapE_succ_ne (bits h : Z) : 0 < bits -> wrapE bits (h + 1) <> h.
Proof.
  unfold wrapE. intros Hb E.
  pose proof (pow2_half bits Hb). pose proof (pow2_pos (bits - 1) ltac:(lia)).
  set (half := 2 ^ (bits - 1)) in *.
  pose proof (Z.mod_pos_bound (h + 1 + half) (2 ^ bits) ltac:(lia)).
  pose proof (Z.div_mod (h + 1 + half) (2 ^ bits) ltac:(lia)).
  assert (Q : 2 ^ bits * ((h + 1 + half) / 2 ^ bits) = 1) by lia.
  rewrite H, <- Z.mul_assoc in Q. lia.
Qed.

Lemma fuel_cells (a : arr) (n : Z) : n <= len a -> (Z.to_nat n <= cells a)%nat.
Proof. unfold len, cells. lia. Qed.

(** ** The main partition *)

Section MainPartition.

Variable bits : Z.
Hypothesis bits_pos : 0 < bits.

Variables (a : arr) (low mid high : Z).
Hypothesis bounds : 0 <= low <= mid /\ mid <= high < len a.

Let p := get a mid.

(** With a pivot above the least element the two scans stop inside the
    interval: [l] at the first cell not below the pivot, [k] at the
    first cell from the right below it, which is the stopper at [l] at
    the latest. *)
Lemma prepareMain_ok :
  minE bits < p <= maxE bits ->
  exists l k,
    prepareMain bits a low mid high =
      Ok (upd (upd a mid (get a l)) l (p - 1), l, k) /\
    low <= l <= mid /\ l <= k <= high /\
    (forall i, low <= i < l -> get a i < p) /\
    p <= get a l /\
    (forall i, k < i <= high ->
       p <= get (upd (upd a mid (get a l)) l (p - 1)) i).
Proof.
  intros Hp. unfold prepareMain. mem. fold p.
  destruct (scanUp_ok (fun v => v <? p) (cells a) a (low - 1) mid
              ltac:(lia) ltac:(lia) ltac:(lia) (Z.ltb_irrefl p)
              ltac:(apply fuel_cells; lia))
    as (l & E & B & F & A).
  rewrite E. cbn [bind]. mem.
  rewrite wrapE_pred by auto.
  set (a1 := upd (upd a mid (get a l)) l (p - 1)).
  assert (L1 : len a1 = len a) by (unfold a1; now rewrite !len_upd).
  assert (S1 : get a1 l = p - 1)
    by (unfold a1; rewrite get_upd_eq; rewrite ?len_upd; lia).
  destruct (scanDown_ok (fun v => p <=? v) (cells a1) a1 (high + 1) l
              ltac:(lia) ltac:(lia) ltac:(lia)
              ltac:(rewrite S1; apply Z.leb_gt; lia)
              ltac:(apply fuel_cells; lia))
    as (k & E' & B' & F' & A').
  rewrite E'. cbn [bind].
  exists l, k. split; [reflexivity|].
  split; [lia|]. split; [lia|].
  split; [|split].
  - intros i Hi. apply Z.ltb_lt. apply A. lia.
  - apply Z.ltb_ge. exact F.
  - intros i Hi. apply Z.leb_le. apply A'. lia.
Qed.

(** The main partition of an interval whose pivot is above the least
    element: the cells before the place [l] of the pivot are below the
    pivot, the cells behind it are not, and the interval was
    rearranged. *)
Lemma partitionMain_ok (x : Z) :
  minE bits < p <= maxE bits ->
  exists a' l work,
    partitionMain bits a x low mid high = Ok (a', l, work) /\
    low <= l <= high /\
    (forall i, low <= i < l -> get a' i < p) /\
    get a' l = p /\
    (forall i, l < i <= high -> p <= get a' i) /\
    permOn low high a a'.
Proof.
  intros Hp.
  destruct (prepareMain_ok Hp) as (l0 & k & E & B1 & B2 & A & F & G).
  unfold partitionMain. mem. fold p. rewrite E. cbn [bind].
  set (a1 := upd (upd a mid (get a l0)) l0 (p - 1)) in *.
  assert (L1 : len a1 = len a) by (unfold a1; now rewrite !len_upd).
  destruct (gapLoop_ok (fun v => v <? p) (cells a1) a1 l0 l0 k
              ltac:(lia) ltac:(lia) ltac:(lia)
              ltac:(apply fuel_cells; lia) ltac:(intros; lia))
    as (a2 & l & E2 & B3 & _ & L2 & O & T & N & C).
  rewrite E2. cbn [bind]. mem.
  set (a3 := upd a2 k (get a2 l)).
  set (a4 := upd a3 l p).
  assert (L3 : len a3 = len a) by (unfold a3; rewrite len_upd; lia).
  assert (G3 : forall i, i <> k -> get a3 i = get a2 i)
    by (intros; unfold a3; apply get_upd_ne; lia).
  assert (G4 : forall i, i <> l -> get a4 i = get a3 i)
    by (intros; unfold a4; apply get_upd_ne; lia).
  assert (G1 : forall i, i <> mid -> i <> l0 -> get a1 i = get a i)
    by (intros; unfold a1; rewrite !get_upd_ne by lia; reflexivity).
  exists a4, l, ((l0 - low) + (high - k) <? Z.shiftr x 1).
  split; [reflexivity|]. split; [lia|].
  split; [|split; [|split]].
  - intros i Hi. rewrite G4, G3 by lia.
    destruct (Z_lt_ge_dec i l0).
    + rewrite O, G1 by lia. apply A. lia.
    + apply Z.ltb_lt. apply T. lia.
  - unfold a4. apply get_upd_eq. lia.
  - intros i Hi. rewrite G4 by lia.
    destruct (Z.eq_dec i k) as [->|Nk].
    + unfold a3. rewrite get_upd_eq by lia.
      apply Z.ltb_ge. apply N. lia.
    + rewrite G3 by lia. destruct (Z_lt_ge_dec i k).
      * apply Z.ltb_ge. apply N. lia.
      * rewrite O by lia. apply G. lia.
  - split; [unfold a4; rewrite len_upd; lia|]. split.
    + intros i Hi. rewrite G4, G3, O, G1 by lia. reflexivity.
    + intros v.
      pose proof (cnt_upd v a3 l p ltac:(lia)) as Q1. fold a4 in Q1.
      assert (G5 : get a3 l = get a2 l).
      { unfold a3. destruct (Z.eq_dec l k) as [->|Nk].
        - now rewrite get_upd_eq by lia.
        - now rewrite get_upd_ne by lia. }
      rewrite G5 in Q1.
      pose proof (C (get a2 l) v) as Q2. fold a3 in Q2.
      pose proof (cnt_upd v a1 l0 (get a2 l) ltac:(lia)) as Q3.
      assert (S1 : get a1 l0 = p - 1)
        by (unfold a1; rewrite get_upd_eq; rewrite ?len_upd; lia).
      rewrite S1 in Q3.
      pose proof (cnt_upd v (upd a mid (get a l0)) l0 (p - 1)
                    ltac:(rewrite len_upd; lia)) as Q4.
      fold a1 in Q4.
      pose proof (cnt_upd v a mid (get a l0) ltac:(lia)) as Q5.
      fold p in Q5.
      assert (G6 : get (upd a mid (get a l0)) l0 = get a l0).
      { destruct (Z.eq_dec l0 mid) as [->|Nm].
        - now rewrite get_upd_eq by lia.
        - now rewrite get_upd_ne by lia. }
      rewrite G6 in Q4. lia.
Qed.

End MainPartition.

Lemma upd_upd (a : arr) (i v w : Z) :
  0 <= i < len a -> upd (upd a i v) i w = upd a i w.
Proof.
  intros H. apply arr_ext.
  - now rewrite !len_upd.
  - intros j Hj. rewrite !get_upd by (rewrite ?len_upd; lia).
    now destruct (j =? i).
Qed.

Lemma permOn_sym (lo hi : Z) (a b : arr) : permOn lo hi a b -> permOn lo hi b a.
Proof.
  intros (L & O & C). repeat split; auto.
  intros i Hi. now rewrite O.
Qed.

(** What holds for every cell of [lo .. hi] holds for every one after
    these cells were rearranged. *)
Lemma permOn_forall (P : Z -> Prop) (lo hi : Z) (a b : arr) :
  0 <= lo -> hi < len a ->
  permOn lo hi a b ->
  (forall i, lo <= i <= hi -> P (get a i)) ->
  forall i, lo <= i <= hi -> P (get b i).
Proof.
  intros H0 H1 PO HP i Hi.
  assert (Lb : len b = len a) by (destruct PO; lia).
  pose proof (permOn_sub lo hi a b H0 ltac:(lia) H1 PO) as Q.
  assert (I : In (get b i) (sub b lo hi)).
  { replace (get b i) with (get (sub b lo hi) (i - lo))
      by (rewrite get_sub by lia; f_equal; lia).
    unfold get. destruct (Z.ltb_spec (i - lo) 0); try lia.
    apply nth_In.
    pose proof (len_sub b lo hi H0 ltac:(lia) ltac:(lia)) as Ls.
    unfold len in Ls. lia. }
  apply Permutation_sym in Q. apply (Permutation_in _ Q) in I.
  apply (In_nth _ _ 0) in I. destruct I as (n & Hn & E).
  pose proof (len_sub a lo hi H0 ltac:(lia) H1) as Ls. unfold len in Ls.
  rewrite <- get_nth, get_sub in E by lia.
  rewrite <- E. apply HP. lia.
Qed.

(** ** The partition to the left *)

Section LeftPartition.

Variable bits : Z.
Hypothesis bits_pos : 0 < bits.

Variables (a : arr) (low high h : Z).
Hypothesis bounds : 1 <= low <= high /\ high < len a.
Hypothesis left_neighbour : get a (low - 1) = h.

(** The partition to the left rearranges the interval into the cells
    that hold [h], up to the new [low], and those that do not. *)
Lemma partitionLeft_ok :
  exists a' l,
    partitionLeft bits a low high h = Ok (a', l) /\
    low <= l <= high + 1 /\
    (forall i, low <= i < l -> get a' i = h) /\
    (forall i, l <= i <= high -> get a' i <> h) /\
    ((forall i, low <= i <= high -> h < get a i) -> l = low) /\
    permOn low high a a'.
Proof.
  unfold partitionLeft.
  destruct (scanDown_ok (fun v => h <? v) (cells a) a (high + 1) (low - 1)
              ltac:(lia) ltac:(lia) ltac:(lia)
              ltac:(rewrite left_neighbour; apply Z.ltb_irrefl)
              ltac:(apply fuel_cells; lia))
    as (g & E & B & F & A).
  rewrite E. cbn [bind]. mem.
  set (s := wrapE bits (h + 1)).
  set (a1 := upd a g s).
  assert (L1 : len a1 = len a) by apply len_upd.
  assert (S1 : (get a1 (Z.max g low) =? h) = false).
  { apply Z.eqb_neq. unfold a1. destruct (Z_lt_ge_dec g low).
    - rewrite Z.max_r by lia. rewrite get_upd_ne by lia.
      specialize (A low ltac:(lia)). apply Z.ltb_lt in A. lia.
    - rewrite Z.max_l by lia. rewrite get_upd_eq by lia.
      apply wrapE_succ_ne. exact bits_pos. }
  destruct (scanUp_ok (fun v => v =? h) (cells a1) a1 (low - 1) (Z.max g low)
              ltac:(lia) ltac:(lia) ltac:(lia) S1
              ltac:(apply fuel_cells; lia))
    as (l & E1 & B1 & F1 & A1).
  rewrite E1. cbn [bind]. mem.
  assert (R : upd a1 g (get a g) = a)
    by (unfold a1; rewrite upd_upd, upd_same by lia; reflexivity).
  rewrite !R. mem.
  set (p := get a l).
  assert (G1 : forall i, i <> g -> get a1 i = get a i)
    by (intros; unfold a1; apply get_upd_ne; lia).
  destruct (Z_le_gt_dec l g) as [Le|Gt].
  - destruct (gapLoop_ok (fun v => v =? h) (cells a) a l l g
                ltac:(lia) ltac:(lia) ltac:(lia)
                ltac:(apply fuel_cells; lia) ltac:(intros; lia))
      as (a3 & l' & E3 & B3 & _ & L3 & O & T & N & C).
    rewrite E3. cbn [bind]. mem.
    set (a4 := upd a3 g (get a3 l')).
    set (a5 := upd a4 l' p).
    assert (L4 : len a4 = len a) by (unfold a4; rewrite len_upd; lia).
    assert (L5 : len a5 = len a) by (unfold a5; rewrite len_upd; lia).
    assert (G4 : forall i, i <> g -> get a4 i = get a3 i)
      by (intros; unfold a4; apply get_upd_ne; lia).
    assert (G5 : forall i, i <> l' -> get a5 i = get a4 i)
      by (intros; unfold a5; apply get_upd_ne; lia).
    assert (Pl : p = h -> l = g /\ l' = g).
    { intros Ep. destruct (Z.eq_dec l g) as [->|Ng]; [lia|].
      rewrite G1 in F1 by lia. apply Z.eqb_neq in F1. tauto. }
    exists a5, (l' + (if p =? h then 1 else 0)).
    split; [reflexivity|].
    assert (D : (p =? h) = true /\ p = h \/ (p =? h) = false /\ p <> h).
    { destruct (Z.eqb_spec p h); auto. }
    split; [destruct D as [(Eb & _)|(Eb & _)]; rewrite Eb; lia|].
    split; [|split; [|split]].
    + intros i Hi.
      destruct (Z.eq_dec i l') as [->|Nl].
      * unfold a5. rewrite get_upd_eq by lia.
        destruct D as [(_ & Ep)|(Ep & _)]; auto.
        rewrite Ep in Hi. lia.
      * assert (i < l')
          by (destruct D as [(Eb & _)|(Eb & _)]; rewrite Eb in Hi; lia).
        rewrite G5, G4 by lia.
        destruct (Z_lt_ge_dec i l).
        -- rewrite O by lia. rewrite <- G1 by lia.
           apply Z.eqb_eq. apply A1. lia.
        -- apply Z.eqb_eq. apply T. lia.
    + intros i Hi.
      destruct D as [(Eb & Ep)|(Eb & Ep)]; rewrite Eb in Hi.
      * destruct (Pl Ep) as (-> & ->).
        rewrite G5, G4, O by lia.
        specialize (A i ltac:(lia)). apply Z.ltb_lt in A. lia.
      * destruct (Z.eq_dec i l') as [->|Nl].
        { unfold a5. rewrite get_upd_eq by lia. exact Ep. }
        rewrite G5 by lia.
        destruct (Z.eq_dec i g) as [->|Ng].
        { unfold a4. rewrite get_upd_eq by lia.
          apply Z.eqb_neq. apply N. lia. }
        rewrite G4 by lia. destruct (Z_lt_ge_dec i g).
        -- apply Z.eqb_neq. apply N. lia.
        -- rewrite O by lia.
           specialize (A i ltac:(lia)). apply Z.ltb_lt in A. lia.
    + intros Hgt. specialize (Hgt g). apply Z.ltb_ge in F. lia.
    + split; [lia|]. split.
      * intros i Hi. rewrite G5, G4, O by lia. reflexivity.
      * intros v.
        pose proof (cnt_upd v a4 l' p ltac:(lia)) as Q1. fold a5 in Q1.
        assert (G6 : get a4 l' = get a3 l').
        { unfold a4. destruct (Z.eq_dec l' g) as [->|Ng].
          - now rewrite get_upd_eq by lia.
          - now rewrite get_upd_ne by lia. }
        rewrite G6 in Q1.
        pose proof (C (get a3 l') v) as Q2. fold a4 in Q2.
        pose proof (cnt_upd v a l (get a3 l') ltac:(lia)) as Q3.
        fold p in Q3. lia.
  - assert (g = low - 1 /\ l = low) as (-> & ->) by lia.
    unfold cells. cbn [gapLoop].
    destruct (Z.ltb_spec low (low - 1)); try lia. cbn [bind]. mem.
    rewrite upd_same. mem. unfold p. rewrite upd_same.
    assert (Hp : h < get a low).
    { specialize (A low ltac:(lia)). now apply Z.ltb_lt in A. }
    destruct (Z.eqb_spec (get a low) h); try lia.
    exists a, low. rewrite Z.add_0_r.
    split; [reflexivity|]. split; [lia|].
    split; [intros; lia|]. split; [|split; [auto|apply permOn_refl]].
    intros i Hi. specialize (A i ltac:(lia)). apply Z.ltb_lt in A. lia.
Qed.

End LeftPartition.

(** ** The candidate pivots *)

(** Two writes that exchange two cells keep the multiset. *)
Lemma cnt_exchange (a : arr) (i j : Z) (x : Z) :
  0 <= i < len a -> 0 <= j < len a ->
  cnt x (upd (upd a i (get a j)) j (get a i)) = cnt x a.
Proof.
  intros Hi Hj.
  pose proof (cnt_upd x (upd a i (get a j)) j (get a i)
                ltac:(rewrite len_upd; lia)) as Q1.
  pose proof (cnt_upd x a i (get a j) Hi) as Q2.
  rewrite get_upd in Q1 by lia.
  destruct (Z.eqb_spec j i) as [->|N]; lia.
Qed.

(** One arm of the insertion sort of the candidates rearranges the
    cells it is given, whether or not they are different cells. *)
Lemma sink_perm (left : list Z) (a : arr) (e q : Z) :
  0 <= q < len a ->
  Forall (fun p => 0 <= p < len a) left ->
  get a q = e ->
  exists a', sink a e left q = Ok a' /\
    len a' = len a /\
    (forall x, cnt x a' = cnt x a) /\
    (forall i, i <> q -> ~ In i left -> get a' i = get a i).
Proof.
  revert a q. induction left as [|p left IH]; intros a q Hq Hl He.
  - exists a. cbn [sink]. auto.
  - inversion Hl as [|? ? Hp Hl']; subst.
    cbn [sink]. mem.
    destruct (Z.ltb_spec (get a q) (get a p)) as [Lt|Ge].
    + assert (N : p <> q) by (intros ->; lia).
      set (a2 := upd (upd a q (get a p)) p (get a q)).
      assert (L2 : len a2 = len a) by (unfold a2; now rewrite !len_upd).
      destruct (IH a2 p) as (a' & E & L & C & O).
      * lia.
      * rewrite L2. exact Hl'.
      * unfold a2. apply get_upd_eq. rewrite len_upd. lia.
      * exists a'. split; [exact E|]. split; [congruence|]. split.
        -- intros x. rewrite C. apply cnt_exchange; lia.
        -- intros i Ni Nin. rewrite O.
           ++ unfold a2. rewrite !get_upd_ne; auto.
              intros ->. apply Nin. now left.
           ++ intros ->. apply Nin. now left.
           ++ intros I. apply Nin. now right.
    + exists a. auto.
Qed.

Lemma chain_ext (a b : arr) (q : Z) (left : list Z) :
  get b q = get a q ->
  (forall p, In p left -> get b p = get a p) ->
  chain a q left -> chain b q left.
Proof.
  revert q. induction left as [|p left IH]; intros q Hq Hl; cbn [chain]; auto.
  intros (H1 & H2). split.
  - rewrite Hq, Hl; auto. now left.
  - apply IH; auto.
    + apply Hl. now left.
    + intros p' Hp'. apply Hl. now right.
Qed.

(** An arm of the insertion sort, run on different cells of which those
    to the left hold an ascending run, leaves an ascending run. *)
Lemma sink_sorted (left : list Z) (a a' : arr) (e q : Z) :
  0 <= q < len a ->
  Forall (fun p => 0 <= p < len a) left ->
  NoDup (q :: left) ->
  get a q = e ->
  match left with [] => True | p :: left' => chain a p left' end ->
  sink a e left q = Ok a' ->
  chain a' q left /\ get a' q = top a e left.
Proof.
  revert a q. induction left as [|p left IH]; intros a q Hq Hl Hn He Hc E.
  - cbn [sink] in E. inversion E; subst. cbn. auto.
  - inversion Hl as [|? ? Hp Hl']; subst.
    inversion Hn as [|? ? Nq Hn']; subst.
    assert (N : p <> q) by (intros ->; apply Nq; now left).
    cbn [sink] in E. revert E. mem.
    destruct (Z.ltb_spec (get a q) (get a p)) as [Lt|Ge]; intros E.
    + set (a2 := upd (upd a q (get a p)) p (get a q)) in *.
      assert (L2 : len a2 = len a) by (unfold a2; now rewrite !len_upd).
      assert (G2 : forall i, i <> q -> i <> p -> get a2 i = get a i)
        by (intros; unfold a2; rewrite !get_upd_ne; auto).
      assert (Gp : get a2 p = get a q)
        by (unfold a2; apply get_upd_eq; rewrite len_upd; lia).
      assert (Gq : get a2 q = get a p).
      { unfold a2. rewrite get_upd_ne by auto. apply get_upd_eq. lia. }
      assert (Nl : forall i, In i left -> i <> q /\ i <> p).
      { intros i Hi. split; intros ->.
        - apply Nq. now right.
        - inversion Hn'; subst. tauto. }
      destruct (sink_perm left a2 (get a q) p) as (b & Eb & Lb & Cb & Ob);
        [lia| now rewrite L2 | exact Gp |].
      rewrite Eb in E. inversion E; subst b.
      destruct (IH a2 p ltac:(lia) ltac:(now rewrite L2) Hn' Gp) as (C1 & T1).
      * destruct left as [|p2 left']; auto. cbn [chain] in Hc.
        apply (chain_ext a); [| |tauto].
        -- apply G2; apply Nl; now left.
        -- intros i Hi. apply G2; apply Nl; now right.
      * exact Eb.
      * assert (Q : get a' q = get a p).
        { rewrite Ob; auto. intros I. apply Nq. now right. }
        split.
        -- cbn [chain]. split; auto. rewrite T1, Q.
           destruct left as [|p2 left']; cbn [top]; [lia|].
           cbn [chain] in Hc. rewrite G2 by (apply Nl; now left). lia.
        -- cbn [top]. rewrite Q. lia.
    + inversion E; subst a'. split.
      * cbn [chain]. split; [lia|exact Hc].
      * cbn [top]. lia.
Qed.

Lemma Forall_bounds (lo hi n : Z) (l : list Z) :
  0 <= lo -> hi < n ->
  Forall (fun p => lo <= p <= hi) l -> Forall (fun p => 0 <= p < n) l.
Proof.
  intros H0 H1 H. eapply Forall_impl; [|exact H].
  cbv beta. intros. lia.
Qed.

(** An arm of the insertion sort on cells of [lo .. hi]. *)
Lemma sink_permOn (lo hi : Z) (left : list Z) (a : arr) (q : Z) :
  0 <= lo -> hi < len a -> lo <= q <= hi ->
  Forall (fun p => lo <= p <= hi) left ->
  exists a', sink a (get a q) left q = Ok a' /\
    permOn lo hi a a' /\
    (forall i, i <> q -> ~ In i left -> get a' i = get a i).
Proof.
  intros H0 H1 Hq Hl.
  destruct (sink_perm left a (get a q) q ltac:(lia)
              (Forall_bounds lo hi (len a) left H0 H1 Hl) eq_refl)
    as (a' & E & L & C & O).
  exists a'. split; [exact E|]. split; [|exact O].
  split; [lia|]. split; [|exact C].
  intros i Hi. apply O; [lia|].
  intros I. rewrite Forall_forall in Hl. specialize (Hl i I). lia.
Qed.

(** The same on different cells, those to the left already in order. *)
Lemma sink_step (lo hi : Z) (left : list Z) (a : arr) (q : Z) :
  0 <= lo -> hi < len a -> lo <= q <= hi ->
  Forall (fun p => lo <= p <= hi) left ->
  NoDup (q :: left) ->
  match left with [] => True | p :: left' => chain a p left' end ->
  exists a', sink a (get a q) left q = Ok a' /\
    permOn lo hi a a' /\
    (forall i, i <> q -> ~ In i left -> get a' i = get a i) /\
    chain a' q left.
Proof.
  intros H0 H1 Hq Hl Hn Hc.
  destruct (sink_permOn lo hi left a q H0 H1 Hq Hl) as (a' & E & P & O).
  exists a'. split; [exact E|]. split; [exact P|]. split; [exact O|].
  apply (sink_sorted left a a' (get a q) q); auto.
  - lia.
  - apply (Forall_bounds lo hi); auto.
Qed.

Ltac in_list :=
  repeat first [apply Forall_cons; [lia|] | apply Forall_nil].

Ltac no_dup :=
  repeat first
    [ apply NoDup_cons; [cbn [In]; lia|] | apply NoDup_nil ].

Section Candidates.

Variables (a : arr) (low cl sl mid sr cr high : Z).

(** The cells [cl] and [cr] after [if ( *low < *cl ) cl = low;] and
    [if ( *high > *cr ) cr = high;]. *)
Let cl' := if get a low <? get a cl then low else cl.
Let cr' := if get a cr <? get a high then high else cr.

(** The insertion sort of the candidates rearranges the interval,
    wherever in it the candidates lie. *)
Lemma sortCandidates_perm :
  0 <= low -> high < len a ->
  low <= cl <= high -> low <= sl <= high -> low <= mid <= high ->
  low <= sr <= high -> low <= cr <= high ->
  exists a', sortCandidates a low cl sl mid sr cr high = Ok a' /\
    permOn low high a a'.
Proof.
  intros H0 H1 Hcl Hsl Hmid Hsr Hcr.
  unfold sortCandidates. mem. fold cl' cr'.
  assert (Hcl' : low <= cl' <= high) by (unfold cl'; destruct (get a low <? get a cl); lia).
  assert (Hcr' : low <= cr' <= high) by (unfold cr'; destruct (get a cr <? get a high); lia).
  destruct (sink_permOn low high [cl'] a sl H0 H1 Hsl ltac:(in_list))
    as (a1 & E1 & P1 & _).
  rewrite E1. cbn [bind].
  assert (L1 : len a1 = len a) by (destruct P1; lia).
  mem.
  destruct (sink_permOn low high [sl; cl'] a1 mid H0 ltac:(lia) Hmid
              ltac:(in_list)) as (a2 & E2 & P2 & _).
  rewrite E2. cbn [bind].
  assert (L2 : len a2 = len a) by (destruct P2; lia).
  mem.
  destruct (sink_permOn low high [mid; sl; cl'] a2 sr H0 ltac:(lia) Hsr
              ltac:(in_list)) as (a3 & E3 & P3 & _).
  rewrite E3. cbn [bind].
  assert (L3 : len a3 = len a) by (destruct P3; lia).
  mem.
  destruct (sink_permOn low high [sr; mid; sl; cl'] a3 cr' H0 ltac:(lia) Hcr'
              ltac:(in_list)) as (a4 & E4 & P4 & _).
  exists a4. split; [exact E4|].
  eapply permOn_trans; [|exact P4].
  eapply permOn_trans; [|exact P3].
  eapply permOn_trans; [exact P1|exact P2].
Qed.

(** On five different candidates the insertion sort leaves them in
    ascending order and touches no other cell. *)
Lemma sortCandidates_sorted :
  0 <= low <= cl -> cl < sl -> sl < mid -> mid < sr -> sr < cr ->
  cr <= high < len a ->
  exists a', sortCandidates a low cl sl mid sr cr high = Ok a' /\
    get a' cl' <= get a' sl /\ get a' sl <= get a' mid /\
    get a' mid <= get a' sr /\ get a' sr <= get a' cr' /\
    (forall i, i <> cl' -> i <> sl -> i <> mid -> i <> sr -> i <> cr' ->
               get a' i = get a i).
Proof.
  intros H0 H1 H2 H3 H4 H5.
  unfold sortCandidates. mem. fold cl' cr'.
  assert (Hcl' : low <= cl' <= cl) by (unfold cl'; destruct (get a low <? get a cl); lia).
  assert (Hcr' : cr <= cr' <= high) by (unfold cr'; destruct (get a cr <? get a high); lia).
  destruct (sink_step low high [cl'] a sl ltac:(lia) ltac:(lia) ltac:(lia)
              ltac:(in_list) ltac:(no_dup) I)
    as (a1 & E1 & P1 & O1 & C1).
  rewrite E1. cbn [bind].
  assert (L1 : len a1 = len a) by (destruct P1; lia).
  mem.
  destruct (sink_step low high [sl; cl'] a1 mid ltac:(lia) ltac:(lia)
              ltac:(lia) ltac:(in_list) ltac:(no_dup) C1)
    as (a2 & E2 & P2 & O2 & C2).
  rewrite E2. cbn [bind].
  assert (L2 : len a2 = len a) by (destruct P2; lia).
  mem.
  destruct (sink_step low high [mid; sl; cl'] a2 sr ltac:(lia) ltac:(lia)
              ltac:(lia) ltac:(in_list) ltac:(no_dup) C2)
    as (a3 & E3 & P3 & O3 & C3).
  rewrite E3. cbn [bind].
  assert (L3 : len a3 = len a) by (destruct P3; lia).
  mem.
  destruct (sink_step low high [sr; mid; sl; cl'] a3 cr' ltac:(lia) ltac:(lia)
              ltac:(lia) ltac:(in_list) ltac:(no_dup) C3)
    as (a4 & E4 & P4 & O4 & C4).
  exists a4. split; [exact E4|].
  cbn [chain] in C4. repeat (split; [tauto|]).
  intros i N1 N2 N3 N4 N5.
  rewrite O4, O3, O2, O1; auto; cbn [In]; lia.
Qed.

End Candidates.

(** ** Conversions and shifts *)

Lemma u32_small (z : Z) : 0 <= z < 2 ^ 32 -> u32 z = z.
Proof. intros H. unfold u32. now apply Z.mod_small. Qed.

Lemma i32_small (z : Z) : - 2 ^ 31 <= z < 2 ^ 31 -> i32 z = z.
Proof. intros H. unfold i32. rewrite Z.mod_small; lia. Qed.

Lemma shiftr1 (z : Z) : Z.shiftr z 1 = z / 2.
Proof. now rewrite Z.shiftr_div_pow2 by lia. Qed.

Lemma shiftr2 (z : Z) : Z.shiftr z 2 = z / 4.
Proof. now rewrite Z.shiftr_div_pow2 by lia. Qed.

Lemma shiftr3 (z : Z) : Z.shiftr z 3 = z / 8.
Proof. now rewrite Z.shiftr_div_pow2 by lia. Qed.

Ltac shifts := rewrite ?shiftr1, ?shiftr2, ?shiftr3 in *.

Ltac div_lia := Z.div_mod_to_equations; lia.

(** The candidates of an interval lie in it, in this order. *)
Lemma candidates_in (x low high cl sl mid sr cr : Z) :
  0 <= x < 2 ^ 32 -> high = low + x ->
  candidates x low high = (cl, sl, mid, sr, cr) ->
  low <= cl /\ cl <= sl /\ sl <= mid /\ mid <= sr /\ sr <= cr /\ cr <= high /\
  mid = low + x / 2.
Proof.
  intros Hx Hh E. unfold candidates in E. shifts.
  rewrite u32_small in E by div_lia.
  inversion E. div_lia.
Qed.

(** From five cells on the candidates are five different cells. *)
Lemma candidates_apart (x low high cl sl mid sr cr : Z) :
  4 <= x < 2 ^ 32 -> high = low + x ->
  candidates x low high = (cl, sl, mid, sr, cr) ->
  low <= cl /\ cl < sl /\ sl < mid /\ mid < sr /\ sr < cr /\ cr <= high.
Proof.
  intros Hx Hh E. unfold candidates in E. shifts.
  rewrite u32_small in E by div_lia.
  inversion E. div_lia.
Qed.

Lemma notDescending_ok (a : arr) (low cl sl mid sr cr high : Z) :
  0 <= low -> high < len a ->
  low <= cl <= high -> low <= sl <= high -> low <= mid <= high ->
  low <= sr <= high -> low <= cr <= high ->
  notDescending a low cl sl mid sr cr high =
    Ok ((get a low <=? get a cl) || (get a cl <=? get a sl) ||
        (get a sl <=? get a mid) || (get a mid <=? get a sr) ||
        (get a sr <=? get a cr) || (get a cr <=? get a high)).
Proof. intros. unfold notDescending. mem. reflexivity. Qed.

(** ** The rotation *)

Lemma rotate_ok (n : nat) (a : arr) (u q mid : Z) :
  0 <= u <= mid -> 2 * mid <= u + q -> q < len a ->
  (Z.to_nat (mid - u) <= n)%nat ->
  exists a', rotate n a u q mid = Ok a' /\
    len a' = len a /\
    (forall i, u <= i < mid ->
       get a' i = get a (u + q - i) /\ get a' (u + q - i) = get a i) /\
    (forall j, j < u \/ q < j \/ mid <= j <= u + q - mid ->
       get a' j = get a j) /\
    (forall x, cnt x a' = cnt x a).
Proof.
  revert a u q. induction n as [|n IH]; intros a u q H1 H2 H3 H4.
  - assert (u = mid) by lia. subst u. unfold rotate.
    rewrite Z.ltb_irrefl. exists a. repeat split; auto; lia.
  - cbn [rotate]. destruct (Z.ltb_spec u mid) as [Lt|Ge].
    + mem.
      set (a2 := upd (upd a u (get a q)) q (get a u)).
      assert (L2 : len a2 = len a) by (unfold a2; now rewrite !len_upd).
      assert (G2 : forall i, i <> u -> i <> q -> get a2 i = get a i)
        by (intros; unfold a2; rewrite !get_upd_ne; auto).
      assert (Gu : get a2 u = get a q).
      { unfold a2. rewrite get_upd_ne by lia. apply get_upd_eq. lia. }
      assert (Gq : get a2 q = get a u)
        by (unfold a2; apply get_upd_eq; rewrite len_upd; lia).
      destruct (IH a2 (u + 1) (q - 1) ltac:(lia) ltac:(lia) ltac:(lia)
                  ltac:(lia)) as (a' & E & L & S & O & C).
      exists a'. split; [exact E|]. split; [lia|].
      split; [|split].
      * intros i Hi. destruct (Z.eq_dec i u) as [->|N].
        -- rewrite !O by lia. replace (u + q - u) with q by lia. auto.
        -- destruct (S i ltac:(lia)) as (S1 & S2).
           replace (u + 1 + (q - 1) - i) with (u + q - i) in * by lia.
           rewrite S1, S2, !G2 by lia. auto.
      * intros j Hj. rewrite O, G2 by lia. reflexivity.
      * intros x. rewrite C. apply cnt_exchange; lia.
    + assert (u = mid) by lia. subst u.
      exists a. repeat split; auto; lia.
Qed.

(** ** [swap] and [scramble] *)

Lemma swap_permOn (lo hi : Z) (a : arr) (i j : Z) :
  0 <= lo -> hi < len a -> lo <= i <= hi -> lo <= j <= hi ->
  exists a', swap a i j = Ok a' /\ permOn lo hi a a'.
Proof.
  intros H0 H1 Hi Hj. unfold swap. mem.
  eexists. split; [reflexivity|].
  split; [now rewrite !len_upd|]. split.
  - intros k Hk. rewrite !get_upd_ne by lia. reflexivity.
  - intros x. apply cnt_exchange; lia.
Qed.

(** [scramble] on an interval of [n] cells and one rearranges it. *)
Lemma scramble_permOn (a : arr) (low high n : Z) :
  0 <= low -> high < len a -> 0 <= n <= high - low -> n < 2 ^ 32 ->
  exists a', scramble a low high n = Ok a' /\ permOn low high a a'.
Proof.
  intros H0 H1 Hn Hn'. unfold scramble, InsertionThreshold, LargeDataThreshold.
  destruct (Z.leb_spec 88 n) as [Ge|Lt];
    [|exists a; split; [reflexivity|apply permOn_refl]].
  shifts. rewrite i32_small by div_lia.
  assert (Q : 22 <= n / 4 <= n - 3 /\ (128 < n -> 32 <= n / 4 <= n - 3))
    by div_lia.
  set (d := n / 4) in *.
  destruct (swap_permOn low high a low (low + d)) as (a1 & E1 & P1);
    try lia.
  rewrite E1. cbn [bind].
  assert (L1 : len a1 = len a) by (destruct P1; lia).
  destruct (swap_permOn low high a1 high (high - d)) as (a2 & E2 & P2);
    try lia.
  rewrite E2. cbn [bind].
  assert (L2 : len a2 = len a) by (destruct P2; lia).
  pose proof (permOn_trans _ _ _ _ _ P1 P2) as P12.
  destruct (Z.ltb_spec 128 n) as [Big|Small];
    [|exists a2; split; [reflexivity|exact P12]].
  destruct (swap_permOn low high a2 (low + 1) (low + (d + 1)))
    as (a3 & E3 & P3); try lia.
  rewrite E3. cbn [bind].
  assert (L3 : len a3 = len a) by (destruct P3; lia).
  destruct (swap_permOn low high a3 (low + 2) (low + (d + 2)))
    as (a4 & E4 & P4); try lia.
  rewrite E4. cbn [bind].
  assert (L4 : len a4 = len a) by (destruct P4; lia).
  destruct (swap_permOn low high a4 (high - 2) (high - (d + 2)))
    as (a5 & E5 & P5); try lia.
  rewrite E5. cbn [bind].
  assert (L5 : len a5 = len a) by (destruct P5; lia).
  destruct (swap_permOn low high a5 (high - 1) (high - (d + 1)))
    as (a6 & E6 & P6); try lia.
  exists a6. split; [exact E6|].
  eapply permOn_trans; [|exact P6].
  eapply permOn_trans; [|exact P5].
  eapply permOn_trans; [|exact P4].
  eapply permOn_trans; [exact P12|exact P3].
Qed.

(** ** The driver *)

(** A frame that is not the root and has fewer than 89 cells runs the
    insertion sort that cannot bail out, and returns. *)
Lemma qSort_small (bits : Z) (fuel : nat) (leftmost : bool) (a : arr)
  (low high height : Z) :
  u32 (high - low) < InsertionThreshold ->
  qSort bits (S fuel) false leftmost a low high height =
    ('(_, a') <- iSort false leftmost a low high ;; Ok a').
Proof.
  intros H. cbn [qSort negb andb].
  destruct (Z.ltb_spec (u32 (high - low)) InsertionThreshold); [|lia].
  reflexivity.
Qed.

(** A frame that takes the partition to the left returns when the new
    [low] has reached [high], and goes round the loop with the new
    [low] when not. *)
Lemma qSort_left (bits : Z) (fuel : nat) (Root : bool) (a0 a a' : arr)
  (low high height cl sl mid sr cr h l : Z) :
  Root = true \/
    (InsertionThreshold <= u32 (high - low) /\ 0 <= height) ->
  candidates (u32 (high - low)) low high = (cl, sl, mid, sr, cr) ->
  selectPivot a0 low cl sl mid sr cr high = Ok a ->
  rd a (low - 1) = Ok h ->
  equalsCandidate a h sl mid sr = Ok true ->
  partitionLeft bits a low high h = Ok (a', l) ->
  qSort bits (S fuel) Root false a0 low high height =
    if high <=? l then Ok a'
    else qSort bits fuel Root false a' l high height.
Proof.
  intros G C S R Q P. cbn [qSort].
  assert (G1 : negb Root && (u32 (high - low) <? InsertionThreshold) = false).
  { destruct G as [->|(G & _)]; [reflexivity|].
    apply andb_false_iff. right. apply Z.ltb_ge. exact G. }
  assert (G2 : negb Root && (height <? 0) = false).
  { destruct G as [->|(_ & G)]; [reflexivity|].
    apply andb_false_iff. right. apply Z.ltb_ge. exact G. }
  rewrite G1, G2, C, S. cbn [bind negb].
  rewrite R. cbn [bind]. rewrite Q. cbn [bind]. rewrite P. cbn [bind].
  reflexivity.
Qed.

(** ** The least element as the pivot *)

Lemma allE_get (bits : Z) (a : arr) (i : Z) :
  allE bits a = true -> 0 <= i < len a -> inE bits (get a i).
Proof.
  unfold allE, inE, len, get. intros H Hi.
  destruct (Z.ltb_spec i 0); try lia.
  rewrite forallb_forall in H.
  specialize (H (nth (Z.to_nat i) a 0) ltac:(apply nth_In; lia)).
  apply andb_true_iff in H. lia.
Qed.

Lemma minE_le_maxE (bits : Z) : 0 < bits -> minE bits <= maxE bits.
Proof.
  intros H. unfold minE, maxE.
  pose proof (pow2_pos (bits - 1) ltac:(lia)). lia.
Qed.

(** With the least element as the pivot the stopper [p - 1] wraps
    around to the greatest element, every cell passes the test [>= p],
    and the scan downwards leaves the array at its low end. *)
Lemma prepareMain_least (bits : Z) (a : arr)
  (low mid high : Z) :
  0 < bits -> 0 <= low <= mid -> mid <= high < len a ->
  allE bits a = true ->
  get a mid = minE bits ->
  prepareMain bits a low mid high = Fault.
Proof.
  intros Hb H1 H2 HE Hp. unfold prepareMain. mem. rewrite Hp.
  assert (Ge : forall i, 0 <= i < len a -> minE bits <= get a i)
    by (intros i Hi; apply (allE_get bits a i HE Hi)).
  destruct (scanUp_ok (fun v => v <? minE bits) (cells a) a (low - 1) low
              ltac:(lia) ltac:(lia) ltac:(lia)
              ltac:(apply Z.ltb_ge; apply Ge; lia)
              ltac:(apply fuel_cells; lia))
    as (l & E & B & _).
  assert (l = low) by lia. subst l.
  rewrite E. cbn [bind]. mem.
  rewrite wrapE_pred_min by exact Hb.
  rewrite scanDown_fault; [reflexivity| | |].
  - rewrite !len_upd. lia.
  - intros i Hi. apply Z.leb_le.
    rewrite !get_upd by (rewrite ?len_upd; lia).
    pose proof (minE_le_maxE bits Hb).
    destruct (i =? low); [lia|].
    destruct (i =? mid); apply Ge; lia.
  - rewrite !cells_upd. unfold cells, len in *. lia.
Qed.

(** C2.  The claim is that the scan [while ( *--k >= p );] of the main
    partition stops at a cell of the interval also when the pivot [p] is
    the least value of the element type.  It does not: the stopper
    [p - 1] then wraps around to the greatest value, every cell passes
    the test [>= p], the scan leaves the array at its low end, and the
    partition does not come to its end. *)
Theorem prepareMain_least_pivot_faults (bits : Z) (a : arr)
  (x low mid high : Z) :
  0 < bits -> 0 <= low <= mid -> mid <= high < len a ->
  allE bits a = true ->
  get a mid = minE bits ->
  prepareMain bits a low mid high = Fault /\
  partitionMain bits a x low mid high = Fault.
Proof.
  intros Hb H1 H2 HE Hp.
  pose proof (prepareMain_least bits a low mid high Hb H1 H2 HE Hp) as F.
  split; [exact F|].
  unfold partitionMain. mem. rewrite F. reflexivity.
Qed.

(** The failing run of C2: an [int8_t] array of 88 cells that all hold
    -128, at the root. *)
Lemma prepareMain_least_pivot_faults_witness :
  prepareMain 8 (repeat (-128) 88) 0 43 87 = Fault /\
  partitionMain 8 (repeat (-128) 88) 87 0 43 87 = Fault.
Proof.
  apply (prepareMain_least_pivot_faults 8 (repeat (-128) 88) 87 0 43 87);
    concrete.
Defined.

(** The root frame on 88 cells that all hold -128 reaches the main
    partition with the pivot -128 and faults there. *)
Lemma qSort_all_least (fuel : nat) :
  qSort 8 (S fuel) true true (repeat (-128) 88) 0 87 6 = Fault.
Proof. vm_compute. reflexivity. Qed.

(** C1.  The claim is that [blipsort] leaves every array sorted and a
    permutation of its input.  On an [int8_t] array of 88 cells that all
    hold -128 it reads the cell before the array and so has undefined
    behaviour: here, with any fuel, the result is a fault, not a sorted
    array. *)
Theorem blipsort_all_least_faults (fuel : nat) :
  blipsort 8 (S fuel) (repeat (-128) 88) 88 = Fault.
Proof.
  unfold blipsort. change (88 <? InsertionThreshold) with false.
  cbv iota. change (bitScanRev 88) with 6.
  change (0 + u32 (88 - 1)) with 87. apply qSort_all_least.
Qed.

(** C9.  The claim is that [blipsort] runs to completion on every
    input.  On the array of C1 no amount of fuel gives a result. *)
Theorem blipsort_all_least_never_returns (fuel : nat) (a' : arr) :
  blipsort 8 fuel (repeat (-128) 88) 88 <> Ok a'.
Proof.
  destruct fuel as [|fuel].
  - vm_compute. discriminate.
  - unfold blipsort. change (88 <? InsertionThreshold) with false.
    cbv iota. change (bitScanRev 88) with 6.
    change (0 + u32 (88 - 1)) with 87. rewrite qSort_all_least.
    discriminate.
Qed.

(** C3.  The claim is that [blipsort] on no cells leaves the array as
    it is.  With [cnt = 0] the unsigned [cnt - 1] is 4294967295, [high]
    lies that far behind [a], and the insertion sort reads [a[1]]. *)
Theorem blipsort_empty_faults (bits : Z) (fuel : nat) :
  blipsort bits fuel [] 0 = Fault.
Proof. reflexivity. Qed.

(** ** The main partition and the pivot *)

(** The main partition returns only with a pivot above the least
    element. *)
Lemma partitionMain_returns (bits : Z) (a a' : arr) (x low mid high l : Z)
  (work : bool) :
  0 < bits -> 0 <= low <= mid -> mid <= high < len a ->
  allE bits a = true ->
  partitionMain bits a x low mid high = Ok (a', l, work) ->
  minE bits < get a mid <= maxE bits.
Proof.
  intros Hb H1 H2 HE E.
  pose proof (allE_get bits a mid HE ltac:(lia)) as I. unfold inE in I.
  destruct (Z.eq_dec (get a mid) (minE bits)) as [Em|]; [exfalso|lia].
  unfold partitionMain in E. revert E. mem.
  rewrite prepareMain_least by auto.
  discriminate.
Qed.

(** C5, as amended.  The main partition with the pivot [p = a[mid]]
    puts the pivot back whenever [p] is above the least element, and
    whenever it has put the pivot back, [a[low .. l) < p], [a[l] = p]
    and [a[l + 1 .. high] >= p]; then [g] is [l + 1] exactly when
    [l < high] and [l] otherwise, [l] is decremented exactly when
    [l > low], and the place of the pivot lies outside the left side
    [low .. l] exactly when it was not [low], outside the right side
    [g .. high] exactly when it was not [high]. *)
Theorem partitionMain_post (bits : Z) (a : arr) (x low mid high : Z) :
  0 < bits -> 0 <= low <= mid -> mid <= high < len a ->
  allE bits a = true ->
  (minE bits < get a mid ->
   exists a' l work, partitionMain bits a x low mid high = Ok (a', l, work)) /\
  (forall a' l work,
     partitionMain bits a x low mid high = Ok (a', l, work) ->
     low <= l <= high /\
     (forall i, low <= i < l -> get a' i < get a mid) /\
     get a' l = get a mid /\
     (forall i, l < i <= high -> get a mid <= get a' i) /\
     let '(l', g) := skipPivot l low high in
     (g = l + 1 <-> l < high) /\ (~ l < high -> g = l) /\
     (l' = l - 1 <-> low < l) /\ (~ low < l -> l' = l) /\
     (~ low <= l <= l' <-> low < l) /\
     (~ g <= l <= high <-> l < high)).
Proof.
  intros Hb H1 H2 HE.
  pose proof (allE_get bits a mid HE ltac:(lia)) as I. unfold inE in I.
  split.
  - intros Hp.
    destruct (partitionMain_ok bits Hb a low mid high ltac:(lia) x
                ltac:(lia))
      as (a' & l & work & E & _).
    exists a', l, work. exact E.
  - intros a' l work E.
    pose proof (partitionMain_returns bits a a' x low mid high l work
                  Hb H1 H2 HE E) as Hp.
    destruct (partitionMain_ok bits Hb a low mid high ltac:(lia) x Hp)
      as (b & l0 & w & E0 & B & Lt & Eq & Ge & _).
    rewrite E in E0. inversion E0; subst b l0 w.
    split; [exact B|]. split; [exact Lt|].
    split; [exact Eq|]. split; [exact Ge|].
    unfold skipPivot.
    destruct (Z.ltb_spec low l), (Z.ltb_spec l high); lia.
Qed.

Lemma partitionMain_post_witness :
  let a := [3; 1; 2; 5; 4] in
  exists a' l work,
    partitionMain 8 a 4 0 2 4 = Ok (a', l, work) /\
    0 <= l <= 4 /\
    (forall i, 0 <= i < l -> get a' i < get a 2) /\
    get a' l = get a 2 /\
    (forall i, l < i <= 4 -> get a 2 <= get a' i) /\
    let '(l', g) := skipPivot l 0 4 in
    (g = l + 1 <-> l < 4) /\ (~ l < 4 -> g = l) /\
    (l' = l - 1 <-> 0 < l) /\ (~ 0 < l -> l' = l) /\
    (~ 0 <= l <= l' <-> 0 < l) /\
    (~ g <= l <= 4 <-> l < 4).
Proof.
  intros a.
  destruct (partitionMain_post 8 a 4 0 2 4 ltac:(concrete)
              ltac:(concrete) ltac:(concrete) eq_refl) as (T & P).
  destruct (T ltac:(concrete)) as (a' & l & work & E).
  exists a', l, work. split; [exact E|]. exact (P a' l work E).
Defined.

(** C5, as stated, fails where it says that the place of the pivot
    belongs to neither side: on 88 cells that all hold 5 the pivot comes
    to lie at [low], [l] is not decremented, and the left side
    [low .. l] is the place of the pivot. *)
Lemma partitionMain_pivot_in_left_side :
  exists a' l work l' g,
    partitionMain 8 (repeat 5 88) 87 0 43 87 = Ok (a', l, work) /\
    skipPivot l 0 87 = (l', g) /\
    0 <= l <= l'.
Proof.
  exists (repeat 5 88), 0, false, 0, 1.
  split; [vm_compute; reflexivity|]. split; [reflexivity|lia].
Qed.

(** ** The partition to the left in the driver *)

Lemma equalsCandidate_true (a : arr) (h sl mid sr : Z) :
  0 <= sl < len a -> 0 <= mid < len a -> 0 <= sr < len a ->
  h = get a sl \/ h = get a mid \/ h = get a sr ->
  equalsCandidate a h sl mid sr = Ok true.
Proof.
  intros H1 H2 H3 H. unfold equalsCandidate. mem.
  destruct (Z.eqb_spec h (get a sl)); [reflexivity|]. mem.
  destruct (Z.eqb_spec h (get a mid)); [reflexivity|]. mem.
  destruct (Z.eqb_spec h (get a sr)); [reflexivity|]. tauto.
Qed.

(** C7.  In a frame that is not leftmost, where [h = a[low - 1]] is the
    value of one of the candidates [sl], [mid], [sr] and no cell of the
    interval holds less than [h], the partition to the left rearranges
    the interval into cells that hold [h] followed by cells that hold
    more, takes the first of the latter as the new [low], and the
    driver returns exactly when the new [low >= high], going round its
    loop on the interval from the new [low] when not. *)
Theorem partitionLeft_collapses (bits : Z) (fuel : nat) (Root : bool)
  (a0 a : arr) (low high height cl sl mid sr cr : Z) :
  0 < bits ->
  1 <= low -> low <= high -> high < len a -> high - low < 2 ^ 32 ->
  Root = true \/
    (InsertionThreshold <= u32 (high - low) /\ 0 <= height) ->
  candidates (u32 (high - low)) low high = (cl, sl, mid, sr, cr) ->
  selectPivot a0 low cl sl mid sr cr high = Ok a ->
  let h := get a (low - 1) in
  h = get a sl \/ h = get a mid \/ h = get a sr ->
  (forall i, low <= i <= high -> h <= get a i) ->
  exists a' l,
    partitionLeft bits a low high h = Ok (a', l) /\
    low < l <= high + 1 /\
    (forall i, low <= i < l -> get a' i = h) /\
    (forall i, l <= i <= high -> h < get a' i) /\
    permOn low high a a' /\
    qSort bits (S fuel) Root false a0 low high height =
      if high <=? l then Ok a'
      else qSort bits fuel Root false a' l high height.
Proof.
  intros Hb H1 H2 H3 H4 G C S h Hc Hge.
  rewrite u32_small in C by lia.
  destruct (candidates_in (high - low) low high cl sl mid sr cr
              ltac:(lia) ltac:(lia) C)
    as (I1 & I2 & I3 & I4 & I5 & I6 & _).
  destruct (partitionLeft_ok bits Hb a low high h ltac:(lia) eq_refl)
    as (a' & l & E & B & Eq & Ne & _ & P).
  exists a', l. split; [exact E|].
  assert (Hl : low < l).
  { destruct (Z_lt_ge_dec low l) as [|Ge]; [assumption|exfalso].
    assert (La : len a' = len a) by (destruct P; lia).
    pose proof (permOn_forall (fun v => v <> h) low high a' a
                  ltac:(lia) ltac:(lia) (permOn_sym _ _ _ _ P)
                  ltac:(intros i Hi; apply Ne; lia)) as Q.
    cbv beta in Q.
    destruct Hc as [Hc|[Hc|Hc]]; symmetry in Hc; revert Hc; apply Q; lia. }
  split; [lia|]. split; [exact Eq|]. split.
  { intros i Hi.
    pose proof (permOn_forall (fun v => h <= v) low high a a'
                  ltac:(lia) ltac:(lia) P Hge i ltac:(lia)) as Q.
    cbv beta in Q. specialize (Ne i Hi). lia. }
  split; [exact P|].
  rewrite <- (u32_small (high - low)) in C by lia.
  apply (qSort_left bits fuel Root a0 a a' low high height cl sl mid sr cr h l);
    auto.
  - apply rd_ok. lia.
  - apply equalsCandidate_true; auto; lia.
Qed.

Lemma partitionLeft_collapses_witness :
  exists a' l,
    partitionLeft 8 [1; 1; 1; 2; 3; 4] 1 5 1 = Ok (a', l) /\
    1 < l <= 5 + 1 /\
    (forall i, 1 <= i < l -> get a' i = 1) /\
    (forall i, l <= i <= 5 -> 1 < get a' i) /\
    permOn 1 5 [1; 1; 1; 2; 3; 4] a' /\
    qSort 8 1 true false [1; 3; 1; 2; 1; 4] 1 5 0 =
      if 5 <=? l then Ok a'
      else qSort 8 0 true false a' l 5 0.
Proof.
  apply (partitionLeft_collapses 8 0 true [1; 3; 1; 2; 1; 4]
           [1; 1; 1; 2; 3; 4] 1 5 0 1 2 3 4 5).
  - concrete.
  - concrete.
  - concrete.
  - concrete.
  - concrete.
  - left. reflexivity.
  - reflexivity.
  - reflexivity.
  - left. reflexivity.
  - intros i Hi.
    assert (C : i = 1 \/ i = 2 \/ i = 3 \/ i = 4 \/ i = 5) by lia.
    destruct C as [->|[->|[->|[->| ->]]]]; concrete.
Defined.

(** ** Pivot selection *)

(** Symbolic runs of the candidate sort on a handful of cells. *)
Ltac crunch :=
  repeat first
    [ mem_step; cbn [bind]
    | progress cbn [sink bind]
    | rewrite Z.ltb_irrefl
    | rewrite get_upd by (rewrite ?len_upd; lia)
    | match goal with
      | |- context [?x =? ?y] =>
          destruct (Z.eqb_spec x y); [try lia | try lia]
      end
    | match goal with
      | |- context [?x <? ?y] => destruct (Z.ltb_spec x y)
      end ].

(** On up to four cells some candidates are one cell; the insertion
    sort still leaves the candidates in ascending order. *)
Lemma sortCandidates_sorted_small (a : arr) (x low high cl sl mid sr cr : Z) :
  0 <= x <= 3 -> 0 <= low -> high = low + x -> high < len a ->
  candidates x low high = (cl, sl, mid, sr, cr) ->
  exists a', sortCandidates a low cl sl mid sr cr high = Ok a' /\
    get a' (if get a low <? get a cl then low else cl) <= get a' sl /\
    get a' sl <= get a' mid /\
    get a' mid <= get a' sr /\
    get a' sr <= get a' (if get a cr <? get a high then high else cr).
Proof.
  intros Hx H0 Hh H1 E. unfold candidates in E. shifts.
  rewrite u32_small in E by div_lia.
  assert (C : x = 0 \/ x = 1 \/ x = 2 \/ x = 3) by lia.
  inversion E; subst; clear E.
  destruct C as [->|[->|[->| ->]]].
  all: change (0 / 4) with 0; change (1 / 4) with 0;
       change (2 / 4) with 0; change (3 / 4) with 0;
       change (0 / 2) with 0; change (1 / 2) with 0;
       change (2 / 2) with 1; change (3 / 2) with 1;
       change (0 + 0) with 0; rewrite ?Z.add_0_r, ?Z.sub_0_r.
  all: unfold sortCandidates.
  all: crunch.
  all: eexists; split; [reflexivity|]; crunch; lia.
Qed.

(** C8.  When the six comparisons of the candidates all fail the test
    [<=], the driver swaps [low + i] with [high - i] for every [i] from
    [0] to [mid - low - 1], which leaves alone the cell [mid] when
    [high - low] is even and the cells [mid] and [mid + 1] when it is
    odd, and does not sort the candidates; in every other case it
    insertion sorts the five candidates, with [cl] moved to [low] when
    [*low < *cl] and [cr] to [high] when [*high > *cr], and does not
    rotate. *)
Theorem selectPivot_rotates_or_sorts (a : arr)
  (low high cl sl mid sr cr : Z) :
  0 <= low -> low <= high -> high < len a -> high - low < 2 ^ 32 ->
  candidates (high - low) low high = (cl, sl, mid, sr, cr) ->
  (descending a low cl sl mid sr cr high ->
   selectPivot a low cl sl mid sr cr high = rotate (cells a) a low high mid /\
   high - (mid - low) = mid + (high - low) mod 2 /\
   exists a', selectPivot a low cl sl mid sr cr high = Ok a' /\
     (forall i, 0 <= i < mid - low ->
        get a' (low + i) = get a (high - i) /\
        get a' (high - i) = get a (low + i)) /\
     (forall j, j < low \/ high < j \/ mid <= j <= high - (mid - low) ->
        get a' j = get a j)) /\
  (~ descending a low cl sl mid sr cr high ->
   selectPivot a low cl sl mid sr cr high =
     sortCandidates a low cl sl mid sr cr high /\
   exists a', selectPivot a low cl sl mid sr cr high = Ok a' /\
     let cl' := if get a low <? get a cl then low else cl in
     let cr' := if get a cr <? get a high then high else cr in
     get a' cl' <= get a' sl /\ get a' sl <= get a' mid /\
     get a' mid <= get a' sr /\ get a' sr <= get a' cr' /\
     permOn low high a a').
Proof.
  intros H0 H1 H2 H3 C.
  destruct (candidates_in (high - low) low high cl sl mid sr cr
              ltac:(lia) ltac:(lia) C)
    as (I1 & I2 & I3 & I4 & I5 & I6 & M).
  pose proof (notDescending_ok a low cl sl mid sr cr high H0 H2
                ltac:(lia) ltac:(lia) ltac:(lia) ltac:(lia) ltac:(lia)) as N.
  unfold selectPivot. rewrite N. cbn [bind]. split.
  - intros (D1 & D2 & D3 & D4 & D5 & D6).
    repeat (rewrite (proj2 (Z.leb_gt _ _)) by assumption).
    cbn [orb]. split; [reflexivity|].
    split; [rewrite M; div_lia|].
    destruct (rotate_ok (cells a) a low high mid ltac:(lia)
                ltac:(rewrite M; div_lia) H2 ltac:(apply fuel_cells; lia))
      as (a' & E & _ & S & O & _).
    exists a'. split; [exact E|]. split.
    + intros i Hi. destruct (S (low + i) ltac:(lia)) as (S1 & S2).
      replace (low + high - (low + i)) with (high - i) in * by lia.
      auto.
    + intros j Hj. apply O.
      replace (low + high - mid) with (high - (mid - low)) by lia. exact Hj.
  - intros ND.
    assert (T : (get a low <=? get a cl) || (get a cl <=? get a sl) ||
                (get a sl <=? get a mid) || (get a mid <=? get a sr) ||
                (get a sr <=? get a cr) || (get a cr <=? get a high) = true).
    { unfold descending in ND.
      destruct (Z.leb_spec (get a low) (get a cl)); [reflexivity|].
      destruct (Z.leb_spec (get a cl) (get a sl)); [reflexivity|].
      destruct (Z.leb_spec (get a sl) (get a mid)); [reflexivity|].
      destruct (Z.leb_spec (get a mid) (get a sr)); [reflexivity|].
      destruct (Z.leb_spec (get a sr) (get a cr)); [reflexivity|].
      destruct (Z.leb_spec (get a cr) (get a high)); [reflexivity|].
      tauto. }
    rewrite T. split; [reflexivity|].
    destruct (sortCandidates_perm a low cl sl mid sr cr high H0 H2
                ltac:(lia) ltac:(lia) ltac:(lia) ltac:(lia) ltac:(lia))
      as (a' & E & P).
    exists a'. split; [exact E|]. cbv zeta.
    destruct (Z_lt_ge_dec (high - low) 4) as [Small|Big].
    + destruct (sortCandidates_sorted_small a (high - low) low high
                  cl sl mid sr cr ltac:(lia) H0 ltac:(lia) H2 C)
        as (b & Eb & S).
      rewrite E in Eb. inversion Eb; subst b. tauto.
    + destruct (candidates_apart (high - low) low high cl sl mid sr cr
                  ltac:(lia) ltac:(lia) C) as (A1 & A2 & A3 & A4 & A5 & A6).
      destruct (sortCandidates_sorted a low cl sl mid sr cr high
                  ltac:(lia) A2 A3 A4 A5 ltac:(lia))
        as (b & Eb & S).
      rewrite E in Eb. inversion Eb; subst b. tauto.
Qed.

Lemma selectPivot_rotates_or_sorts_witness :
  let a := [8; 7; 6; 5; 4; 3; 2; 1; 0] in
  selectPivot a 0 1 3 4 5 7 8 = rotate (cells a) a 0 8 4 /\
  8 - (4 - 0) = 4 + (8 - 0) mod 2 /\
  exists a', selectPivot a 0 1 3 4 5 7 8 = Ok a' /\
    (forall i, 0 <= i < 4 - 0 ->
       get a' (0 + i) = get a (8 - i) /\ get a' (8 - i) = get a (0 + i)) /\
    (forall j, j < 0 \/ 8 < j \/ 4 <= j <= 8 - (4 - 0) ->
       get a' j = get a j).
Proof.
  intros a.
  apply (proj1 (selectPivot_rotates_or_sorts a 0 8 1 3 4 5 7
                  ltac:(concrete) ltac:(concrete) ltac:(concrete)
                  ltac:(concrete) eq_refl)).
  concrete.
Defined.

(** ** The steps of the driver keep the multiset *)

(** C10.  Each step of [qSort] on an interval [low .. high] of the
    array leaves the cells of the interval a permutation of what they
    were, and every other cell as it was: the insertion sort of the
    five candidates, the rotation, [scramble], the main partition
    whenever it has put the pivot back, which it does with every pivot
    above the least element (the stopper [p - 1] is overwritten
    before), and the partition to the left (the stopper [h + 1] is
    taken back). *)
Theorem qSort_steps_permute (bits : Z) (a : arr) (low high : Z) :
  0 < bits -> 0 <= low -> low <= high -> high < len a ->
  high - low < 2 ^ 32 ->
  (forall cl sl mid sr cr,
     candidates (high - low) low high = (cl, sl, mid, sr, cr) ->
     (exists a', sortCandidates a low cl sl mid sr cr high = Ok a' /\
        permOn low high a a' /\
        Permutation (sub a low high) (sub a' low high)) /\
     (exists a', rotate (cells a) a low high mid = Ok a' /\
        permOn low high a a' /\
        Permutation (sub a low high) (sub a' low high))) /\
  (exists a', scramble a low high (high - low) = Ok a' /\
     permOn low high a a' /\
     Permutation (sub a low high) (sub a' low high)) /\
  (forall x mid,
     low <= mid <= high -> allE bits a = true ->
     (minE bits < get a mid ->
      exists a' l work,
        partitionMain bits a x low mid high = Ok (a', l, work)) /\
     (forall a' l work,
        partitionMain bits a x low mid high = Ok (a', l, work) ->
        permOn low high a a' /\
        Permutation (sub a low high) (sub a' low high))) /\
  (1 <= low ->
   exists a' l,
     partitionLeft bits a low high (get a (low - 1)) = Ok (a', l) /\
     permOn low high a a' /\
     Permutation (sub a low high) (sub a' low high)).
Proof.
  intros Hb H0 H1 H2 H3.
  assert (PS : forall a', permOn low high a a' ->
                 Permutation (sub a low high) (sub a' low high))
    by (intros a' P; apply permOn_sub; auto; lia).
  split; [|split; [|split]].
  - intros cl sl mid sr cr C.
    destruct (candidates_in (high - low) low high cl sl mid sr cr
                ltac:(lia) ltac:(lia) C)
      as (I1 & I2 & I3 & I4 & I5 & I6 & M).
    split.
    + destruct (sortCandidates_perm a low cl sl mid sr cr high H0 H2
                  ltac:(lia) ltac:(lia) ltac:(lia) ltac:(lia) ltac:(lia))
        as (a' & E & P).
      exists a'. auto.
    + destruct (rotate_ok (cells a) a low high mid ltac:(lia)
                  ltac:(rewrite M; div_lia) H2 ltac:(apply fuel_cells; lia))
        as (a' & E & L & S & O & Cn).
      exists a'. split; [exact E|].
      assert (P : permOn low high a a').
      { split; [lia|]. split; [|exact Cn]. intros j Hj. apply O. lia. }
      auto.
  - destruct (scramble_permOn a low high (high - low) H0 H2
                ltac:(lia) H3) as (a' & E & P).
    exists a'. auto.
  - intros x mid Hm HE.
    pose proof (allE_get bits a mid HE ltac:(lia)) as I. unfold inE in I.
    split.
    + intros Hp.
      destruct (partitionMain_ok bits Hb a low mid high ltac:(lia) x
                  ltac:(lia))
        as (a' & l & work & E & _).
      exists a', l, work. exact E.
    + intros a' l work E.
      pose proof (partitionMain_returns bits a a' x low mid high l work
                    Hb ltac:(lia) ltac:(lia) HE E) as Hp.
      destruct (partitionMain_ok bits Hb a low mid high ltac:(lia) x Hp)
        as (b & l0 & w & E0 & _ & _ & _ & _ & P).
      rewrite E in E0. inversion E0; subst b l0 w. auto.
  - intros Hl.
    destruct (partitionLeft_ok bits Hb a low high (get a (low - 1))
                ltac:(lia) eq_refl)
      as (a' & l & E & _ & _ & _ & _ & P).
    exists a', l. auto.
Qed.

Lemma qSort_steps_permute_witness :
  let a := [1; 3; 1; 2; 1; 4] in
  exists a' l,
    partitionLeft 8 a 1 5 (get a (1 - 1)) = Ok (a', l) /\
    permOn 1 5 a a' /\
    Permutation (sub a 1 5) (sub a' 1 5).
Proof.
  intros a.
  apply (proj2 (proj2 (proj2
           (qSort_steps_permute 8 a 1 5 ltac:(concrete) ltac:(concrete)
              ltac:(concrete) ltac:(concrete) ltac:(concrete))))).
  concrete.
Defined.

(** ** Insertion sort: the shifts *)

Lemma upd_comm (a : arr) (i j v w : Z) :
  i <> j -> upd (upd a i v) j w = upd (upd a j w) i v.
Proof.
  intros N. apply arr_ext.
  - now rewrite !len_upd.
  - intros k Hk. rewrite !len_upd in Hk.
    destruct (Z_lt_ge_dec i 0) as [Li|Gi].
    { unfold upd at 2 3. destruct (Z.ltb_spec i 0); [reflexivity|lia]. }
    destruct (Z_lt_ge_dec j 0) as [Lj|Gj].
    { unfold upd at 1 4. destruct (Z.ltb_spec j 0); [reflexivity|lia]. }
    destruct (Z_lt_ge_dec i (len a)) as [Bi|Oi];
      destruct (Z_lt_ge_dec j (len a)) as [Bj|Oj].
    + rewrite !get_upd by (rewrite ?len_upd; lia).
      destruct (Z.eqb_spec k j), (Z.eqb_spec k i); try reflexivity; lia.
    + destruct (Z.eq_dec k i) as [->|Nk].
      * rewrite get_upd_ne by lia. rewrite !get_upd_eq; rewrite ?len_upd; lia.
      * destruct (Z.eq_dec k j) as [->|Nj]; [lia|].
        rewrite !get_upd_ne by lia. reflexivity.
    + destruct (Z.eq_dec k j) as [->|Nk].
      * rewrite (get_upd_ne _ i j) by lia.
        rewrite !get_upd_eq; rewrite ?len_upd; lia.
      * destruct (Z.eq_dec k i) as [->|Ni]; [lia|].
        rewrite !get_upd_ne by lia. reflexivity.
    + destruct (Z.eq_dec k i) as [->|Ni]; [lia|].
      destruct (Z.eq_dec k j) as [->|Nj]; [lia|].
      rewrite !get_upd_ne by lia. reflexivity.
Qed.

(** Moving the cell below a gap into it moves the gap down. *)
Lemma cnt_gap_down (a : arr) (j v x : Z) :
  0 <= j -> j + 1 < len a ->
  cnt x (upd (upd a (j + 1) (get a j)) j v) = cnt x (upd a (j + 1) v).
Proof.
  intros H0 H1.
  pose proof (cnt_upd x (upd a (j + 1) (get a j)) j v
                ltac:(rewrite len_upd; lia)) as Q1.
  rewrite get_upd_ne in Q1 by lia.
  pose proof (cnt_upd x a (j + 1) (get a j) ltac:(lia)) as Q2.
  pose proof (cnt_upd x a (j + 1) v ltac:(lia)) as Q3.
  lia.
Qed.

(** The same for a gap of two cells. *)
Lemma cnt_gap2_down (a : arr) (j v w x : Z) :
  0 <= j -> j + 2 < len a ->
  cnt x (upd (upd (upd a (j + 2) (get a j)) j v) (j + 1) w) =
  cnt x (upd (upd a (j + 1) v) (j + 2) w).
Proof.
  intros H0 H1.
  set (a1 := upd a (j + 2) (get a j)).
  assert (L1 : len a1 = len a) by apply len_upd.
  assert (G1 : get (upd a1 j v) (j + 1) = get a (j + 1))
    by (unfold a1; rewrite !get_upd_ne by lia; reflexivity).
  assert (G2 : get a1 j = get a j)
    by (unfold a1; rewrite get_upd_ne by lia; reflexivity).
  pose proof (cnt_upd x (upd a1 j v) (j + 1) w
                ltac:(rewrite len_upd; lia)) as Q1.
  rewrite G1 in Q1.
  pose proof (cnt_upd x a1 j v ltac:(lia)) as Q2.
  rewrite G2 in Q2.
  pose proof (cnt_upd x a (j + 2) (get a j) ltac:(lia)) as Q3.
  fold a1 in Q3.
  pose proof (cnt_upd x (upd a (j + 1) v) (j + 2) w
                ltac:(rewrite len_upd; lia)) as Q4.
  rewrite get_upd_ne in Q4 by lia.
  pose proof (cnt_upd x a (j + 1) v ltac:(lia)) as Q5.
  lia.
Qed.

(** The guarded shift: the cells above the place [j' + 1] of [t] are
    moved up by one, and the gap comes to lie at [j' + 1]. *)
Lemma shiftGuarded_ok (n : nat) (a : arr) (l t j : Z) :
  0 <= l -> l - 1 <= j -> j + 1 < len a ->
  (Z.to_nat (j + 1 - l) <= n)%nat ->
  exists a' j', shiftGuarded n a l t j = Ok (a', j') /\
    l - 1 <= j' <= j /\ len a' = len a /\
    (forall i, i <= j' \/ j + 1 < i -> get a' i = get a i) /\
    (forall i, j' < i <= j -> get a' (i + 1) = get a i /\ t < get a i) /\
    (l <= j' -> get a j' <= t) /\
    (forall v x, cnt x (upd a' (j' + 1) v) = cnt x (upd a (j + 1) v)).
Proof.
  revert a j. induction n as [|n IH]; intros a j H0 H1 H2 H3.
  - assert (j = l - 1) by lia. subst j. cbn [shiftGuarded].
    destruct (Z.leb_spec l (l - 1)); [lia|].
    exists a, (l - 1). repeat split; auto; lia.
  - cbn [shiftGuarded]. destruct (Z.leb_spec l j) as [Le|Gt].
    + mem. destruct (Z.ltb_spec t (get a j)) as [Lt|Ge].
      * mem. set (a1 := upd a (j + 1) (get a j)).
        assert (L1 : len a1 = len a) by apply len_upd.
        assert (G1 : forall i, i <> j + 1 -> get a1 i = get a i)
          by (intros; unfold a1; apply get_upd_ne; lia).
        destruct (IH a1 (j - 1) H0 ltac:(lia) ltac:(lia) ltac:(lia))
          as (a' & j' & E & B & L & O & S & T & C).
        exists a', j'. split; [exact E|]. split; [lia|]. split; [lia|].
        split; [|split; [|split]].
        -- intros i Hi. rewrite O, G1 by lia. reflexivity.
        -- intros i Hi. destruct (Z.eq_dec i j) as [->|N].
           ++ rewrite O by lia. unfold a1. rewrite get_upd_eq by lia. auto.
           ++ destruct (S i ltac:(lia)) as (S1 & S2).
              replace (j - 1 + 1) with j in * by lia.
              rewrite G1 in S1, S2 by lia. auto.
        -- intros Hl. rewrite <- G1 by lia. auto.
        -- intros v x. rewrite C. replace (j - 1 + 1) with j by lia.
           unfold a1. apply cnt_gap_down; lia.
      * exists a, j. repeat split; auto; lia.
    + assert (j = l - 1) by lia. subst j.
      exists a, (l - 1). repeat split; auto; lia.
Qed.

(** The unguarded shift by [d] cells, stopped by a cell [m] that does
    not hold more than [e]. *)
Lemma shiftDown_ok (d : Z) (n : nat) (a : arr) (e i m : Z) :
  1 <= d -> 0 <= m < i -> i - 1 + d < len a ->
  get a m <= e ->
  (Z.to_nat (i - m) <= n)%nat ->
  exists a' i', shiftDown d n a e i = Ok (a', i') /\
    m <= i' < i /\ len a' = len a /\
    get a i' <= e /\
    (forall k, i' < k < i -> e < get a k /\ get a' (k + d) = get a k) /\
    (forall k, k <= i' + d \/ i - 1 + d < k -> get a' k = get a k) /\
    (d = 1 -> forall v x, cnt x (upd a' (i' + 1) v) = cnt x (upd a i v)) /\
    (d = 2 -> forall v w x,
       cnt x (upd (upd a' (i' + 1) v) (i' + 2) w) =
       cnt x (upd (upd a i v) (i + 1) w)).
Proof.
  intros Hd. revert a i.
  induction n as [|n IH]; intros a i H1 H2 H3 H4; [lia|].
  cbn [shiftDown]. mem.
  destruct (Z.ltb_spec e (get a (i - 1))) as [Lt|Ge].
  - mem. set (a1 := upd a (i - 1 + d) (get a (i - 1))).
    assert (L1 : len a1 = len a) by apply len_upd.
    assert (G1 : forall k, k <> i - 1 + d -> get a1 k = get a k)
      by (intros; unfold a1; apply get_upd_ne; lia).
    assert (Nm : m <> i - 1) by (intros ->; lia).
    destruct (IH a1 (i - 1) ltac:(lia) ltac:(lia)
                ltac:(rewrite G1 by lia; exact H3) ltac:(lia))
      as (a' & i' & E & B & L & T & S & O & C1 & C2).
    exists a', i'. split; [exact E|]. split; [lia|]. split; [lia|].
    split; [rewrite <- G1 by lia; exact T|].
    split; [|split; [|split]].
    + intros k Hk. destruct (Z.eq_dec k (i - 1)) as [->|N].
      * split; [exact Lt|]. rewrite O by lia. unfold a1.
        apply get_upd_eq. lia.
      * destruct (S k ltac:(lia)) as (S1 & S2).
        rewrite G1 in S1, S2 by lia. auto.
    + intros k Hk. rewrite O, G1 by lia. reflexivity.
    + intros -> v x. rewrite (C1 eq_refl). unfold a1.
      rewrite (cnt_gap_down a (i - 1) v x) by lia.
      replace (i - 1 + 1) with i by lia. reflexivity.
    + intros -> v w x. rewrite (C2 eq_refl). unfold a1.
      replace (i - 1 - 1 + 2) with (i - 1 + 1) by lia.
      rewrite (cnt_gap2_down a (i - 1) v w x) by lia.
      replace (i - 1 + 1) with i by lia.
      replace (i - 1 + 2) with (i + 1) by lia. reflexivity.
  - exists a, (i - 1). split; [reflexivity|]. split; [lia|].
    split; [reflexivity|]. split; [exact Ge|].
    split; [intros; lia|]. split; [auto|].
    split; intros; replace (i - 1 + 1) with i by lia;
      try replace (i - 1 + 2) with (i + 1) by lia; reflexivity.
Qed.

(** ** Insertion sort: the guarded loop *)

(** Putting [t] below the cells that were moved up and above the cells
    that were not extends an ascending run by one cell. *)
Lemma insert_sorted (lo i j' t : Z) (a a' : arr) :
  lo - 1 <= j' <= i - 1 ->
  sortedOn lo (i - 1) a ->
  (forall k, lo <= k <= j' -> get a' k = get a k) ->
  get a' (j' + 1) = t ->
  (forall k, j' < k <= i - 1 -> get a' (k + 1) = get a k /\ t < get a k) ->
  (lo <= j' -> get a j' <= t) ->
  sortedOn lo i a'.
Proof.
  intros B S U T M G x y Hx Hxy Hy.
  destruct (Z_le_gt_dec x j') as [X1|X1].
  - rewrite (U x) by lia.
    pose proof (S x j' ltac:(lia) ltac:(lia) ltac:(lia)) as Sx.
    specialize (G ltac:(lia)).
    destruct (Z_le_gt_dec y j') as [Y1|Y1].
    + rewrite (U y) by lia. apply S; lia.
    + destruct (Z.eq_dec y (j' + 1)) as [->|Y2]; [lia|].
      destruct (M (y - 1) ltac:(lia)) as (M1 & M2).
      replace (y - 1 + 1) with y in M1 by lia. lia.
  - destruct (Z.eq_dec x (j' + 1)) as [->|X2].
    + destruct (Z.eq_dec y (j' + 1)) as [->|Y2]; [lia|].
      destruct (M (y - 1) ltac:(lia)) as (M1 & M2).
      replace (y - 1 + 1) with y in M1 by lia. lia.
    + destruct (M (x - 1) ltac:(lia)) as (M1 & _).
      destruct (M (y - 1) ltac:(lia)) as (M3 & _).
      replace (x - 1 + 1) with x in M1 by lia.
      replace (y - 1 + 1) with y in M3 by lia.
      rewrite M1, M3. apply S; lia.
Qed.

Lemma sortedOn_shorter (lo hi hi' : Z) (a : arr) :
  hi' <= hi -> sortedOn lo hi a -> sortedOn lo hi' a.
Proof. intros H S x y Hx Hxy Hy. apply S; lia. Qed.

(** One insertion of the guarded sort. *)
Lemma insert_guarded (a : arr) (l i : Z) :
  0 <= l -> l < i -> i < len a ->
  sortedOn l (i - 1) a ->
  exists a1 j,
    shiftGuarded (cells a) a l (get a i) (i - 1) = Ok (a1, j) /\
    l - 1 <= j <= i - 1 /\ len a1 = len a /\
    permOn l i a (upd a1 (j + 1) (get a i)) /\
    sortedOn l i (upd a1 (j + 1) (get a i)).
Proof.
  intros H0 H1 H2 S.
  destruct (shiftGuarded_ok (cells a) a l (get a i) (i - 1) H0
              ltac:(lia) ltac:(lia) ltac:(apply fuel_cells; lia))
    as (a1 & j & E & B & L & O & M & G & C).
  exists a1, j. split; [exact E|]. split; [lia|]. split; [exact L|].
  set (a2 := upd a1 (j + 1) (get a i)).
  assert (G2 : forall k, k <> j + 1 -> get a2 k = get a1 k)
    by (intros; unfold a2; apply get_upd_ne; lia).
  split.
  - split; [unfold a2; rewrite len_upd; lia|]. split.
    + intros k Hk. rewrite G2, O by lia. reflexivity.
    + intros x. unfold a2. rewrite C.
      replace (i - 1 + 1) with i by lia. now rewrite upd_same.
  - apply (insert_sorted l i j (get a i) a a2); auto.
    + intros k Hk. rewrite G2, O by lia. reflexivity.
    + unfold a2. apply get_upd_eq. lia.
    + intros k Hk. destruct (M k ltac:(lia)) as (M1 & M2).
      rewrite G2 by lia. auto.
Qed.

(** The guarded insertion sort from [i] on, the cells before [i]
    already in order: it rearranges the interval; when it runs to its
    end the interval is in order; it gives up only with more than
    eight moves on its count, and only when bailing out is enabled. *)
Lemma insertLoop_ok (Bail : bool) (n : nat) (a : arr) (l r i moves : Z) :
  0 <= l -> l < i -> r < len a -> len a < 2 ^ 31 - 8 ->
  sortedOn l (i - 1) a ->
  (Z.to_nat (r + 1 - i) <= n)%nat ->
  0 <= moves <= 8 ->
  exists b m a', insertLoop Bail n a l r i moves = Ok (b, m, a') /\
    permOn l r a a' /\
    (b = true -> sortedOn l r a') /\
    (b = false -> Bail = true /\ 8 < m).
Proof.
  revert a i moves.
  induction n as [|n IH]; intros a i moves H0 H1 H2 H3 S F Hm.
  - cbn [insertLoop]. destruct (Z.leb_spec i r); [lia|].
    exists true, moves, a. split; [reflexivity|].
    split; [apply permOn_refl|]. split; [|discriminate].
    intros _. apply (sortedOn_shorter l (i - 1)); auto. lia.
  - cbn [insertLoop]. destruct (Z.leb_spec i r) as [Le|Gt].
    + mem.
      destruct (insert_guarded a l i H0 H1 ltac:(lia) S)
        as (a1 & j & E & B & L1 & P & S2).
      rewrite E. cbn [bind]. mem.
      set (a2 := upd a1 (j + 1) (get a i)) in *.
      assert (L2 : len a2 = len a) by (destruct P; lia).
      assert (P' : permOn l r a a2)
        by (apply (permOn_weaken l i); auto; lia).
      replace (i + 1 - 1) with i in * by lia.
      destruct Bail.
      * rewrite i32_small by lia. rewrite u32_small by lia.
        unfold AscendingThreshold.
        destruct (Z.ltb_spec 8 (moves + (i - 1 - j))) as [Big|Small].
        -- exists false, (moves + (i - 1 - j)), a2.
           split; [reflexivity|]. split; [exact P'|].
           split; [discriminate|auto].
        -- destruct (IH a2 (i + 1) (moves + (i - 1 - j)) H0 ltac:(lia)
                       ltac:(lia) ltac:(lia)
                       ltac:(replace (i + 1 - 1) with i by lia; exact S2)
                       ltac:(lia) ltac:(lia))
             as (b & m & a' & E' & P2 & S' & F').
           exists b, m, a'. split; [exact E'|].
           split; [eapply permOn_trans; eauto|auto].
      * destruct (IH a2 (i + 1) moves H0 ltac:(lia)
                    ltac:(lia) ltac:(lia)
                    ltac:(replace (i + 1 - 1) with i by lia; exact S2)
                    ltac:(lia) ltac:(lia))
          as (b & m & a' & E' & P2 & S' & F').
        exists b, m, a'. split; [exact E'|].
        split; [eapply permOn_trans; eauto|auto].
    + exists true, moves, a. split; [reflexivity|].
      split; [apply permOn_refl|]. split; [|discriminate].
      intros _. apply (sortedOn_shorter l (i - 1)); auto. lia.
Qed.

(** ** Insertion sort: the pair loop *)

Lemma skipAscending_ok (n : nat) (a : arr) (l0 l r : Z) :
  0 <= l0 <= l -> r < len a ->
  sortedOn l0 l a ->
  (Z.to_nat (r + 1 - l) <= n)%nat -> (1 <= n)%nat ->
  exists s, skipAscending n a l r = Ok s /\
    match s with
    | None => sortedOn l0 r a
    | Some l' =>
        l < l' <= r /\ sortedOn l0 (l' - 1) a /\ get a l' < get a (l' - 1)
    end.
Proof.
  revert l. induction n as [|n IH]; intros l H0 H1 S F F1; [lia|].
  cbn [skipAscending]. destruct (Z.leb_spec r l) as [Le|Gt].
  - exists None. split; [reflexivity|].
    apply (sortedOn_shorter l0 l); auto.
  - mem. replace (l + 1 - 1) with l by lia.
    destruct (Z.leb_spec (get a l) (get a (l + 1))) as [Asc|Desc].
    + assert (S' : sortedOn l0 (l + 1) a).
      { intros x y Hx Hxy Hy.
        destruct (Z.eq_dec y (l + 1)) as [->|N]; [|apply S; lia].
        destruct (Z.eq_dec x (l + 1)) as [->|N']; [lia|].
        pose proof (S x l ltac:(lia) ltac:(lia) ltac:(lia)). lia. }
      destruct (IH (l + 1) ltac:(lia) H1 S' ltac:(lia) ltac:(lia))
        as (s & E & P).
      exists s. split; [exact E|].
      destruct s as [l'|]; [|exact P].
      split; [lia|tauto].
    + exists (Some (l + 1)). split; [reflexivity|].
      replace (l + 1 - 1) with l by lia. split; [lia|]. split; auto.
Qed.

Section PairStep.

Variables (a : arr) (lo l r ex ey : Z).
Hypothesis bounds : 1 <= lo <= l /\ l + 1 <= r /\ r < len a.
Hypothesis prefix_sorted : sortedOn lo (l - 1) a.
Hypothesis sentinel : forall k, lo <= k <= r -> get a (lo - 1) <= get a k.
Hypothesis pair_ordered : ex <= ey.
Hypothesis pair_cells :
  (ex = get a l /\ ey = get a (l + 1)) \/
  (ex = get a (l + 1) /\ ey = get a l).

(** One turn of the pair loop puts the two cells at [l] and [l + 1]
    into the ascending run before them. *)
Lemma pair_step :
  exists a1 i1 a3 i2,
    shiftDown 2 (cells a) a ey l = Ok (a1, i1) /\
    shiftDown 1 (cells (upd a1 (i1 + 1 + 1) ey)) (upd a1 (i1 + 1 + 1) ey)
      ex (i1 + 1) = Ok (a3, i2) /\
    lo - 1 <= i2 <= i1 /\ i1 <= l - 1 /\
    len a1 = len a /\ len a3 = len a /\
    permOn lo (l + 1) a (upd a3 (i2 + 1) ex) /\
    sortedOn lo (l + 1) (upd a3 (i2 + 1) ex).
Proof.
  assert (Sx : get a (lo - 1) <= ex)
    by (destruct pair_cells as [(-> & _)|(-> & _)]; apply sentinel; lia).
  assert (Sy : get a (lo - 1) <= ey) by lia.
  destruct (shiftDown_ok 2 (cells a) a ey l (lo - 1) ltac:(lia) ltac:(lia)
              ltac:(lia) Sy ltac:(apply fuel_cells; lia))
    as (a1 & i1 & E1 & B1 & L1 & T1 & S1 & O1 & _ & C2).
  set (a2 := upd a1 (i1 + 2) ey).
  assert (L2 : len a2 = len a) by (unfold a2; rewrite len_upd; lia).
  assert (G2 : forall k, k <> i1 + 2 -> get a2 k = get a1 k)
    by (intros; unfold a2; apply get_upd_ne; lia).
  assert (Sx' : get a2 (lo - 1) <= ex)
    by (rewrite G2, O1 by lia; exact Sx).
  destruct (shiftDown_ok 1 (cells a2) a2 ex (i1 + 1) (lo - 1) ltac:(lia)
              ltac:(lia) ltac:(lia) Sx' ltac:(apply fuel_cells; lia))
    as (a3 & i2 & E3 & B3 & L3 & T3 & S3 & O3 & C1 & _).
  exists a1, i1, a3, i2.
  replace (i1 + 1 + 1) with (i1 + 2) by lia.
  split; [exact E1|]. split; [exact E3|]. split; [lia|]. split; [lia|].
  split; [exact L1|]. split; [lia|].
  set (a4 := upd a3 (i2 + 1) ex).
  assert (G4 : forall k, k <> i2 + 1 -> get a4 k = get a3 k)
    by (intros; unfold a4; apply get_upd_ne; lia).
  assert (V : forall k,
            (k <= i2 /\ get a4 k = get a k) \/
            (k = i2 + 1 /\ get a4 k = ex) \/
            (i2 + 2 <= k <= i1 + 1 /\ get a4 k = get a (k - 1) /\
             ex < get a (k - 1)) \/
            (k = i1 + 2 /\ get a4 k = ey) \/
            (i1 + 3 <= k <= l + 1 /\ get a4 k = get a (k - 2) /\
             ey < get a (k - 2)) \/
            (l + 1 < k /\ get a4 k = get a k)).
  { intros k.
    destruct (Z_le_gt_dec k i2); [left|right].
    { split; [lia|]. rewrite G4, O3, G2, O1 by lia. reflexivity. }
    destruct (Z.eq_dec k (i2 + 1)) as [->|]; [left|right].
    { split; [reflexivity|]. unfold a4. apply get_upd_eq. lia. }
    destruct (Z_le_gt_dec k (i1 + 1)); [left|right].
    { split; [lia|]. destruct (S3 (k - 1) ltac:(lia)) as (Q1 & Q2).
      replace (k - 1 + 1) with k in Q2 by lia.
      rewrite G2, O1 in Q1, Q2 by lia.
      rewrite G4 by lia. auto. }
    destruct (Z.eq_dec k (i1 + 2)) as [->|]; [left|right].
    { split; [reflexivity|]. rewrite G4, O3 by lia.
      unfold a2. apply get_upd_eq. lia. }
    destruct (Z_le_gt_dec k (l + 1)); [left|right].
    { split; [lia|]. destruct (S1 (k - 2) ltac:(lia)) as (Q1 & Q2).
      replace (k - 2 + 2) with k in Q2 by lia.
      rewrite G4, O3, G2 by lia. auto. }
    split; [lia|]. rewrite G4, O3, G2, O1 by lia. reflexivity. }
  assert (F1 : lo <= i2 -> get a i2 <= ex)
    by (intros; rewrite G2, O1 in T3 by lia; exact T3).
  split.
  - split; [unfold a4; rewrite len_upd; lia|]. split.
    + intros k Hk. destruct (V k) as [(Q & ->)|[Q|[Q|[Q|[Q|(Q & ->)]]]]];
        try reflexivity; lia.
    + intros x. unfold a4. rewrite (C1 eq_refl). unfold a2.
      rewrite upd_comm by lia. rewrite (C2 eq_refl).
      destruct pair_cells as [(-> & ->)|(-> & ->)].
      * now rewrite !upd_same.
      * apply cnt_exchange; lia.
  - intros x y Hx Hxy Hy.
    assert (A : forall k, lo <= k <= i2 -> get a k <= ex).
    { intros k Hk.
      pose proof (prefix_sorted k i2 ltac:(lia) ltac:(lia) ltac:(lia)).
      specialize (F1 ltac:(lia)). lia. }
    assert (B : forall k, lo <= k <= i1 -> get a k <= ey).
    { intros k Hk.
      pose proof (prefix_sorted k i1 ltac:(lia) ltac:(lia) ltac:(lia)).
      lia. }
    destruct (V x) as [(X & ->)|[(X & ->)|[(X & -> & X')|[(X & ->)|
                       [(X & -> & X')|(X & _)]]]]]; try lia;
    destruct (V y) as [(Y & ->)|[(Y & ->)|[(Y & -> & Y')|[(Y & ->)|
                       [(Y & -> & Y')|(Y & _)]]]]]; try lia;
    try (apply prefix_sorted; lia);
    try (specialize (A x ltac:(lia)); lia);
    try (specialize (B (x - 1) ltac:(lia)); lia).
Qed.

End PairStep.

(** The pair loop from [l] on, the cells before [l] already in order
    and the cell before [lo] not above any cell of the interval: it
    rearranges the interval; when it runs to its end all cells but
    the last are in order; it gives up only with more than eight moves
    on its count, and only when bailing out is enabled. *)
Lemma pairLoop_ok (Bail : bool) (n : nat) (a : arr) (lo r l moves : Z) :
  1 <= lo <= l -> r < len a -> len a < 2 ^ 31 - 16 ->
  sortedOn lo (l - 1) a ->
  (forall k, lo <= k <= r -> get a (lo - 1) <= get a k) ->
  (Z.to_nat (r + 1 - l) <= n)%nat ->
  (Bail = true -> 0 <= moves <= 8) ->
  exists b m a', pairLoop Bail n a r l moves = Ok (b, m, a') /\
    permOn lo r a a' /\
    (b = true -> sortedOn lo (r - 1) a') /\
    (b = false -> Bail = true /\ 8 < m).
Proof.
  revert a l moves.
  induction n as [|n IH]; intros a l moves H0 H1 H2 S G F Hm.
  - cbn [pairLoop]. destruct (Z.leb_spec (l + 1) r); [lia|].
    exists true, moves, a. split; [reflexivity|].
    split; [apply permOn_refl|]. split; [|discriminate].
    intros _. apply (sortedOn_shorter lo (l - 1)); auto. lia.
  - cbn [pairLoop]. destruct (Z.leb_spec (l + 1) r) as [Le|Gt].
    + mem.
      set (ex := if get a (l + 1) <? get a l then get a (l + 1) else get a l).
      set (ey := if get a (l + 1) <? get a l then get a l else get a (l + 1)).
      set (mv := if get a (l + 1) <? get a l then i32 (moves + 1) else moves).
      replace (if get a (l + 1) <? get a l
               then (get a (l + 1), get a l, i32 (moves + 1))
               else (get a l, get a (l + 1), moves))
        with (ex, ey, mv)
        by (unfold ex, ey, mv; destruct (get a (l + 1) <? get a l);
            reflexivity).
      cbv iota beta.
      assert (Hxy : ex <= ey)
        by (unfold ex, ey; destruct (Z.ltb_spec (get a (l + 1)) (get a l));
            lia).
      assert (Hc : (ex = get a l /\ ey = get a (l + 1)) \/
                   (ex = get a (l + 1) /\ ey = get a l))
        by (unfold ex, ey; destruct (get a (l + 1) <? get a l); auto).
      assert (Hmv : Bail = true -> 0 <= mv <= 9).
      { intros B. specialize (Hm B). unfold mv.
        destruct (get a (l + 1) <? get a l); [|lia].
        rewrite i32_small; lia. }
      destruct (pair_step a lo l r ex ey ltac:(lia) S G Hxy Hc)
        as (a1 & i1 & a3 & i2 & E1 & E3 & B & B' & L1 & L3 & P & S').
      rewrite E1. cbn [bind]. mem.
      rewrite E3. cbn [bind]. mem.
      set (a4 := upd a3 (i2 + 1) ex) in *.
      assert (L4 : len a4 = len a) by (destruct P; lia).
      assert (P' : permOn lo r a a4)
        by (apply (permOn_weaken lo (l + 1)); auto; lia).
      assert (G' : forall k, lo <= k <= r -> get a4 (lo - 1) <= get a4 k).
      { pose proof P as (_ & O & _). rewrite O by lia.
        apply (permOn_forall (fun v => get a (lo - 1) <= v) lo r a a4);
          auto; lia. }
      assert (N : forall m, (Bail = true -> 0 <= m <= 8) ->
                exists b m' a', pairLoop Bail n a4 r (l + 1 + 1) m =
                                Ok (b, m', a') /\
                  permOn lo r a a' /\
                  (b = true -> sortedOn lo (r - 1) a') /\
                  (b = false -> Bail = true /\ 8 < m')).
      { intros m Hm'.
        destruct (IH a4 (l + 1 + 1) m ltac:(lia) ltac:(lia) ltac:(lia)
                    ltac:(replace (l + 1 + 1 - 1) with (l + 1) by lia;
                          exact S')
                    G' ltac:(lia) Hm')
          as (b & m' & a' & E' & P2 & S2 & F2).
        exists b, m', a'. split; [exact E'|].
        split; [eapply permOn_trans; eauto|auto]. }
      destruct Bail.
      * specialize (Hmv eq_refl).
        rewrite i32_small by lia. rewrite u32_small by lia.
        unfold AscendingThreshold.
        destruct (Z.ltb_spec 8 (mv + (l + 1 - 2 - i2))) as [Big|Small].
        -- exists false, (mv + (l + 1 - 2 - i2)), a4.
           split; [reflexivity|]. split; [exact P'|].
           split; [discriminate|auto].
        -- apply N. lia.
      * apply N. discriminate.
    + exists true, moves, a. split; [reflexivity|].
      split; [apply permOn_refl|]. split; [|discriminate].
      intros _. apply (sortedOn_shorter lo (l - 1)); auto. lia.
Qed.

(** ** Insertion sort *)

Lemma sortedOn_one (l : Z) (a : arr) : sortedOn l l a.
Proof. intros x y Hx Hxy Hy. assert (x = y) by lia. subst. lia. Qed.

(** The last insertion of the pair insertion sort. *)
Lemma insert_last (a : arr) (lo r : Z) :
  1 <= lo -> lo <= r -> r < len a ->
  sortedOn lo (r - 1) a ->
  get a (lo - 1) <= get a r ->
  exists a1 r',
    shiftDown 1 (cells a) a (get a r) r = Ok (a1, r') /\
    lo - 1 <= r' < r /\ len a1 = len a /\
    permOn lo r a (upd a1 (r' + 1) (get a r)) /\
    sortedOn lo r (upd a1 (r' + 1) (get a r)).
Proof.
  intros H0 H1 H2 S G.
  destruct (shiftDown_ok 1 (cells a) a (get a r) r (lo - 1) ltac:(lia)
              ltac:(lia) ltac:(lia) G ltac:(apply fuel_cells; lia))
    as (a1 & r' & E & B & L & T & M & O & C & _).
  exists a1, r'. split; [exact E|]. split; [lia|]. split; [exact L|].
  set (a2 := upd a1 (r' + 1) (get a r)).
  assert (G2 : forall k, k <> r' + 1 -> get a2 k = get a1 k)
    by (intros; unfold a2; apply get_upd_ne; lia).
  split.
  - split; [unfold a2; rewrite len_upd; lia|]. split.
    + intros k Hk. rewrite G2, O by lia. reflexivity.
    + intros x. unfold a2. rewrite (C eq_refl). now rewrite upd_same.
  - apply (insert_sorted lo r r' (get a r) a a2); auto.
    + lia.
    + intros k Hk. rewrite G2, O by lia. reflexivity.
    + unfold a2. apply get_upd_eq. lia.
    + intros k Hk. destruct (M k ltac:(lia)) as (M1 & M2).
      rewrite G2 by lia. auto.
Qed.

(** [iSort] on an interval of the array, the cell before it not above
    any cell of the interval when the interval is not the leftmost:
    it returns, having rearranged the interval; when it returns [true]
    the interval is in order; it returns [false] only with more than
    eight moves on its count, and only when bailing out is enabled. *)
Lemma iSortM_ok (Bail leftmost : bool) (a : arr) (low high : Z) :
  0 <= low -> high < len a -> len a < 2 ^ 31 - 16 ->
  (leftmost = false ->
   1 <= low /\ forall k, low <= k <= high -> get a (low - 1) <= get a k) ->
  exists b m a', iSortM Bail leftmost a low high = Ok (b, m, a') /\
    permOn low high a a' /\
    (b = true -> sortedOn low high a') /\
    (b = false -> Bail = true /\ 8 < m).
Proof.
  intros H0 H1 H2 Hs. unfold iSortM. destruct leftmost.
  - apply insertLoop_ok; try lia.
    + replace (low + 1 - 1) with low by lia. apply sortedOn_one.
    + apply fuel_cells. lia.
  - destruct (Hs eq_refl) as (H3 & G).
    destruct (skipAscending_ok (cells a) a low low high ltac:(lia) H1
                (sortedOn_one low a) ltac:(apply fuel_cells; lia)
                ltac:(unfold cells; lia))
      as ([l|] & E & Q); rewrite E; cbn [bind].
    + destruct Q as (Bl & S & _).
      destruct (pairLoop_ok Bail (cells a) a low high l 0 ltac:(lia) H1 H2
                  S G ltac:(apply fuel_cells; lia) ltac:(intros; lia))
        as (b & m & a1 & E1 & P1 & S1 & F1).
      rewrite E1. cbn [bind]. destruct b.
      * assert (L1 : len a1 = len a) by (destruct P1; lia).
        assert (G1 : get a1 (low - 1) <= get a1 high).
        { pose proof P1 as (_ & O & _). rewrite (O (low - 1)) by lia.
          apply (permOn_forall (fun v => get a (low - 1) <= v) low high a a1);
            auto; lia. }
        destruct (insert_last a1 low high H3 ltac:(lia) ltac:(lia)
                    (S1 eq_refl) G1)
          as (a2 & r' & E2 & B2 & L2 & P2 & S2).
        mem. rewrite E2. cbn [bind]. mem.
        exists true, m, (upd a2 (r' + 1) (get a1 high)).
        split; [reflexivity|].
        split; [eapply permOn_trans; eauto|].
        split; [auto|discriminate].
      * exists false, m, a1. split; [reflexivity|].
        split; [exact P1|]. split; [discriminate|exact F1].
    + exists true, 0, a. split; [reflexivity|].
      split; [apply permOn_refl|]. split; [auto|discriminate].
Qed.

(** ** The small frame *)

(** C4, as amended.  A frame that is not the root and whose width
    [x = high - low] is below 88 runs [iSort<E, false>(leftmost, low,
    high)], the insertion sort with the bail-out disabled, and
    returns; so, on an interval of the array, with the cell before it
    not above any cell of the interval unless the frame is leftmost,
    the interval is in order, and rearranged, when the frame
    returns. *)
Theorem qSort_small_frame (bits : Z) (fuel : nat) (leftmost : bool)
  (a : arr) (low high height : Z) :
  u32 (high - low) < InsertionThreshold ->
  qSort bits (S fuel) false leftmost a low high height =
    ('(_, a') <- iSort false leftmost a low high ;; Ok a') /\
  (0 <= low -> high < len a -> len a < 2 ^ 31 - 16 ->
   (leftmost = false ->
    1 <= low /\ forall k, low <= k <= high -> get a (low - 1) <= get a k) ->
   exists a', qSort bits (S fuel) false leftmost a low high height = Ok a' /\
     sortedOn low high a' /\ permOn low high a a').
Proof.
  intros H. rewrite qSort_small by exact H. split; [reflexivity|].
  intros H0 H1 H2 Hs.
  destruct (iSortM_ok false leftmost a low high H0 H1 H2 Hs)
    as (b & m & a' & E & P & S & F).
  unfold iSort. rewrite E. cbn [bind].
  exists a'. split; [reflexivity|]. split; [|exact P].
  destruct b; [auto|]. destruct (F eq_refl). discriminate.
Qed.

Lemma qSort_small_frame_witness :
  let a := [9; 8; 7; 6; 5; 4; 3; 2; 1; 0] in
  qSort 8 1 false true a 0 9 0 =
    ('(_, a') <- iSort false true a 0 9 ;; Ok a') /\
  (0 <= 0 -> 9 < len a -> len a < 2 ^ 31 - 16 ->
   (true = false ->
    1 <= 0 /\ forall k, 0 <= k <= 9 -> get a (0 - 1) <= get a k) ->
   exists a', qSort 8 1 false true a 0 9 0 = Ok a' /\
     sortedOn 0 9 a' /\ permOn 0 9 a a').
Proof.
  intros a. apply (qSort_small_frame 8 0 true a 0 9 0). concrete.
Defined.

(** C4, as stated, fails: with the bail-out enabled the insertion sort
    gives up on ten descending cells after the fourth insertion, and
    the frame does not return what that leaves. *)
Lemma qSort_small_frame_not_bailing :
  qSort 8 1 false true [9; 8; 7; 6; 5; 4; 3; 2; 1; 0] 0 9 0 =
    Ok [0; 1; 2; 3; 4; 5; 6; 7; 8; 9] /\
  iSort true true [9; 8; 7; 6; 5; 4; 3; 2; 1; 0] 0 9 =
    Ok (false, [5; 6; 7; 8; 9; 4; 3; 2; 1; 0]) /\
  qSort 8 1 false true [9; 8; 7; 6; 5; 4; 3; 2; 1; 0] 0 9 0 <>
    ('(_, a') <- iSort true true [9; 8; 7; 6; 5; 4; 3; 2; 1; 0] 0 9 ;;
     Ok a').
Proof.
  split; [vm_compute; reflexivity|].
  split; [vm_compute; reflexivity|].
  vm_compute. discriminate.
Qed.

(** ** The optimistic insertion sort in the driver *)

(** A frame whose main partition is balanced and did no work tries the
    insertion sort of the left side and then of the right side; a
    [false] from the first sends it to [l1:], a [false] from the second
    to [l2:], and after two [true] it returns. *)
Lemma qSort_optimistic (bits : Z) (fuel : nat) (Root leftmost : bool)
  (a0 a1 a2 : arr) (low high height cl sl mid sr cr l0 l g : Z) :
  Root = true \/
    (InsertionThreshold <= u32 (high - low) /\ 0 <= height) ->
  candidates (u32 (high - low)) low high = (cl, sl, mid, sr, cr) ->
  selectPivot a0 low cl sl mid sr cr high = Ok a1 ->
  leftmost = true \/
    (exists h, rd a1 (low - 1) = Ok h /\
               equalsCandidate a1 h sl mid sr = Ok false) ->
  partitionMain bits a1 (u32 (high - low)) low mid high = Ok (a2, l0, false) ->
  skipPivot l0 low high = (l, g) ->
  Z.shiftr (u32 (high - low)) 3 <= u32 (l - low) ->
  Z.shiftr (u32 (high - low)) 3 <= u32 (high - g) ->
  qSort bits (S fuel) Root leftmost a0 low high height =
    '(ok, a3) <- iSort true leftmost a2 low l ;;
    if negb ok then l1 (qSort bits fuel) Root leftmost a3 low l g high height
    else
      '(ok, a4) <- iSort true false a3 g high ;;
      if negb ok then l2 (qSort bits fuel) Root a4 g high height
      else Ok a4.
Proof.
  intros G C S Q P K B1 B2. cbn [qSort].
  assert (G1 : negb Root && (u32 (high - low) <? InsertionThreshold) = false).
  { destruct G as [->|(G & _)]; [reflexivity|].
    apply andb_false_iff. right. apply Z.ltb_ge. exact G. }
  assert (G2 : negb Root && (height <? 0) = false).
  { destruct G as [->|(_ & G)]; [reflexivity|].
    apply andb_false_iff. right. apply Z.ltb_ge. exact G. }
  rewrite G1, G2, C, S. cbn [bind].
  assert (Hl : leftmost = true \/
               (leftmost = false /\
                exists h, rd a1 (low - 1) = Ok h /\
                          equalsCandidate a1 h sl mid sr = Ok false)).
  { destruct leftmost; [now left|right]. split; [reflexivity|].
    destruct Q as [Q|Q]; [discriminate|exact Q]. }
  destruct Hl as [->|(-> & h & R & E)]; cbn [negb]; unfold mainStep.
  - rewrite P. cbn [bind]. rewrite K.
    rewrite (proj2 (Z.leb_le _ _) B1), (proj2 (Z.leb_le _ _) B2).
    reflexivity.
  - rewrite R. cbn [bind]. rewrite E. cbn [bind].
    rewrite P. cbn [bind]. rewrite K.
    rewrite (proj2 (Z.leb_le _ _) B1), (proj2 (Z.leb_le _ _) B2).
    reflexivity.
Qed.

Lemma sub_empty (a : arr) (lo hi : Z) : hi + 1 < lo -> sub a lo hi = [].
Proof.
  intros H. unfold sub. replace (Z.to_nat (hi + 1 - lo)) with 0%nat by lia.
  reflexivity.
Qed.

(** C6.  [iSort<Bail>(leftmost, low, high)], on an interval of the
    array with the cell before it not above any cell of the interval
    unless [leftmost]: with [Bail] false it returns [true]; with [Bail]
    true it returns [false] only with more than eight moves on its
    count, and then, as always, the interval is a permutation of what
    it was.  [blipsort] itself calls it with [Bail] false and drops the
    value; in [qSort] a [false] from the sort of the left side sends
    the frame to [l1:], a [false] from that of the right side to [l2:],
    and the values of [qSort] and [blipsort] are arrays. *)
Theorem iSort_bail_out :
  (forall (Bail leftmost : bool) (a : arr) (low high : Z),
     0 <= low -> high < len a -> len a < 2 ^ 31 - 16 ->
     (leftmost = false ->
      1 <= low /\ forall k, low <= k <= high -> get a (low - 1) <= get a k) ->
     exists b m a',
       iSortM Bail leftmost a low high = Ok (b, m, a') /\
       iSort Bail leftmost a low high = Ok (b, a') /\
       (Bail = false -> b = true) /\
       (b = false -> Bail = true /\ AscendingThreshold < m) /\
       permOn low high a a' /\
       Permutation (sub a low high) (sub a' low high)) /\
  (forall (bits : Z) (fuel : nat) (a : arr) (cnt : Z),
     cnt < InsertionThreshold ->
     blipsort bits fuel a cnt =
       ('(_, a') <- iSort false true a 0 (0 + u32 (cnt - 1)) ;; Ok a')) /\
  (forall (bits : Z) (fuel : nat) (Root leftmost : bool) (a0 a1 a2 : arr)
          (low high height cl sl mid sr cr l0 l g : Z),
     Root = true \/
       (InsertionThreshold <= u32 (high - low) /\ 0 <= height) ->
     candidates (u32 (high - low)) low high = (cl, sl, mid, sr, cr) ->
     selectPivot a0 low cl sl mid sr cr high = Ok a1 ->
     leftmost = true \/
       (exists h, rd a1 (low - 1) = Ok h /\
                  equalsCandidate a1 h sl mid sr = Ok false) ->
     partitionMain bits a1 (u32 (high - low)) low mid high =
       Ok (a2, l0, false) ->
     skipPivot l0 low high = (l, g) ->
     Z.shiftr (u32 (high - low)) 3 <= u32 (l - low) ->
     Z.shiftr (u32 (high - low)) 3 <= u32 (high - g) ->
     qSort bits (S fuel) Root leftmost a0 low high height =
       '(ok, a3) <- iSort true leftmost a2 low l ;;
       if negb ok
       then l1 (qSort bits fuel) Root leftmost a3 low l g high height
       else
         '(ok, a4) <- iSort true false a3 g high ;;
         if negb ok then l2 (qSort bits fuel) Root a4 g high height
         else Ok a4).
Proof.
  split; [|split].
  - intros Bail leftmost a low high H0 H1 H2 Hs.
    destruct (iSortM_ok Bail leftmost a low high H0 H1 H2 Hs)
      as (b & m & a' & E & P & S & F).
    exists b, m, a'. split; [exact E|].
    split; [unfold iSort; rewrite E; reflexivity|].
    split.
    { intros ->. destruct b; [reflexivity|].
      destruct (F eq_refl). discriminate. }
    split; [exact F|]. split; [exact P|].
    destruct (Z_le_gt_dec low (high + 1)).
    + apply permOn_sub; auto.
    + rewrite !sub_empty by lia. constructor.
  - intros bits fuel a cnt H. unfold blipsort.
    destruct (Z.ltb_spec cnt InsertionThreshold); [reflexivity|lia].
  - intros. eapply qSort_optimistic; eauto.
Qed.

Lemma iSort_bail_out_witness :
  let a := [9; 8; 7; 6; 5; 4; 3; 2; 1; 0] in
  exists b m a',
    iSortM true true a 0 9 = Ok (b, m, a') /\
    iSort true true a 0 9 = Ok (b, a') /\
    (true = false -> b = true) /\
    (b = false -> true = true /\ AscendingThreshold < m) /\
    permOn 0 9 a a' /\
    Permutation (sub a 0 9) (sub a' 0 9).
Proof.
  intros a.
  apply (proj1 iSort_bail_out true true a 0 9);
    first [discriminate | concrete].
Defined.

(** ** Heap sort *)

(** Moving a cell into a gap moves the gap to that cell. *)
Lemma cnt_move (a : arr) (p q v x : Z) :
  0 <= p < len a -> 0 <= q < len a -> p <> q ->
  cnt x (upd (upd a p (get a q)) q v) = cnt x (upd a p v).
Proof.
  intros Hp Hq N.
  pose proof (cnt_upd x (upd a p (get a q)) q v
                ltac:(rewrite len_upd; lia)) as Q1.
  rewrite get_upd_ne in Q1 by lia.
  pose proof (cnt_upd x a p (get a q) Hp) as Q2.
  pose proof (cnt_upd x a p v Hp) as Q3.
  lia.
Qed.

Lemma shiftl1 (z : Z) : Z.shiftl z 1 = 2 * z.
Proof. rewrite Z.shiftl_mul_pow2 by lia. lia. Qed.

Section Sift.

Variables (b n i z : Z).
Hypothesis base : 0 <= b.
Hypothesis node : 0 <= i < n.
Hypothesis size : n < 2 ^ 31.

Lemma sift_done (a : arr) (x : Z) :
  holeAt b n i z a x ->
  (2 * x + 1 < n -> get a (b + (2 * x + 1)) <= z) ->
  (2 * x + 2 < n -> get a (b + (2 * x + 2)) <= z) ->
  forall j, i <= j < n -> heapAt (upd a (b + x) z) b n j.
Proof.
  intros (L & Bx & H & J) C1 C2 j Hj.
  destruct (Z.eq_dec j x) as [->|N].
  - split; intros Hc; rewrite get_upd_eq by lia;
      rewrite get_upd_ne by lia; auto.
  - assert (Hh : heapAt a b n j) by (apply H; lia).
    destruct Hh as (H1 & H2).
    split; intros Hc; rewrite (get_upd_ne _ _ (b + j)) by lia.
    + destruct (Z.eq_dec (2 * j + 1) x) as [E|N'].
      * rewrite E in *. rewrite get_upd_eq by lia.
        specialize (J ltac:(lia)). specialize (H1 Hc). lia.
      * rewrite get_upd_ne by lia. auto.
    + destruct (Z.eq_dec (2 * j + 2) x) as [E|N'].
      * rewrite E in *. rewrite get_upd_eq by lia.
        specialize (J ltac:(lia)). specialize (H2 Hc). lia.
      * rewrite get_upd_ne by lia. auto.
Qed.

Lemma sift_step (a : arr) (x l : Z) :
  holeAt b n i z a x ->
  l = 2 * x + 1 \/ l = 2 * x + 2 -> l < n ->
  (2 * x + 1 < n -> get a (b + (2 * x + 1)) <= get a (b + l)) ->
  (2 * x + 2 < n -> get a (b + (2 * x + 2)) <= get a (b + l)) ->
  z < get a (b + l) ->
  holeAt b n i z (upd a (b + x) (get a (b + l))) l.
Proof.
  intros (L & Bx & H & J) Hl Ln C1 C2 Zy.
  split; [rewrite len_upd; lia|]. split; [lia|]. split.
  - intros j Hj _.
    destruct (Z.eq_dec j x) as [->|N].
    + split; intros Hc; rewrite get_upd_eq by lia;
        rewrite get_upd_ne by lia; auto.
    + assert (Hh : heapAt a b n j) by (apply H; lia).
      destruct Hh as (H1 & H2).
      assert (Hx : x <> i -> get a (b + l) <= get a (b + x)).
      { intros Nx. destruct (H x ltac:(lia) ltac:(lia)) as (X1 & X2).
        destruct Hl as [->| ->]; auto. }
      split; intros Hc; rewrite (get_upd_ne _ _ (b + j)) by lia.
      * destruct (Z.eq_dec (2 * j + 1) x) as [E|N'].
        -- rewrite E in *. rewrite get_upd_eq by lia.
           specialize (Hx ltac:(lia)). specialize (H1 Hc). lia.
        -- rewrite get_upd_ne by lia. auto.
      * destruct (Z.eq_dec (2 * j + 2) x) as [E|N'].
        -- rewrite E in *. rewrite get_upd_eq by lia.
           specialize (Hx ltac:(lia)). specialize (H2 Hc). lia.
        -- rewrite get_upd_ne by lia. auto.
  - intros _. rewrite get_upd_ne by lia. exact Zy.
Qed.

Lemma siftLoop_ok (m : nat) (a : arr) (x : Z) :
  holeAt b n i z a x ->
  (Z.to_nat (n - x) <= m)%nat ->
  exists a' x', siftLoop m a b n (Z.shiftr n 1) z x = Ok (a', x') /\
    x <= x' < n /\ len a' = len a /\
    (forall j, i <= j < n -> heapAt (upd a' (b + x') z) b n j) /\
    (forall k, k < b + x \/ b + n <= k -> get a' k = get a k) /\
    (forall v c, cnt c (upd a' (b + x') v) = cnt c (upd a (b + x) v)).
Proof.
  revert a x. induction m as [|m IH]; intros a x I F.
  - destruct I as (_ & Bx & _). lia.
  - pose proof I as (L & Bx & H & J).
    cbn [siftLoop].
    destruct (Z.ltb_spec x (Z.shiftr n 1)) as [Lt|Ge];
      [rewrite shiftr1 in Lt|rewrite shiftr1 in Ge].
    + assert (Hl : 2 * x + 1 < n) by div_lia.
      rewrite shiftl1. rewrite (u32_small (2 * x + 1)) by lia.
      rewrite (u32_small (2 * x + 1 + 1)) by lia.
      replace (2 * x + 1 + 1) with (2 * x + 2) by lia.
      mem.
      assert (Ch : exists l, 
                (l = 2 * x + 1 \/ l = 2 * x + 2) /\ l < n /\
                (2 * x + 1 < n -> get a (b + (2 * x + 1)) <= get a (b + l)) /\
                (2 * x + 2 < n -> get a (b + (2 * x + 2)) <= get a (b + l)) /\
                (if 2 * x + 2 <? n
                 then vr <- rd a (b + (2 * x + 2)) ;;
                      if get a (b + (2 * x + 1)) <? vr
                      then Ok (2 * x + 2, vr)
                      else Ok (2 * x + 1, get a (b + (2 * x + 1)))
                 else Ok (2 * x + 1, get a (b + (2 * x + 1)))) =
                Ok (l, get a (b + l))).
      { destruct (Z.ltb_spec (2 * x + 2) n) as [Lr|Gr].
        - mem. destruct (Z.ltb_spec (get a (b + (2 * x + 1)))
                                  (get a (b + (2 * x + 2)))).
          + exists (2 * x + 2). repeat split; auto; lia.
          + exists (2 * x + 1). repeat split; auto; lia.
        - exists (2 * x + 1). repeat split; auto; lia. }
      destruct Ch as (l & Hc & Ln & C1 & C2 & E). rewrite E. cbn [bind].
      destruct (Z.leb_spec (get a (b + l)) z) as [Le|Gt].
      * exists a, x. split; [reflexivity|]. split; [lia|].
        split; [reflexivity|]. split; [|split; auto].
        apply sift_done; auto; lia.
      * mem.
        pose proof (sift_step a x l I Hc Ln C1 C2 Gt) as I'.
        destruct (IH (upd a (b + x) (get a (b + l))) l I' ltac:(lia))
          as (a' & x' & E' & B' & L' & P & O & C).
        exists a', x'. split; [exact E'|]. split; [lia|].
        split; [rewrite L', len_upd; lia|]. split; [exact P|]. split.
        -- intros k Hk. rewrite O, get_upd_ne by lia. reflexivity.
        -- intros v c. rewrite C. apply cnt_move; lia.
    + exists a, x. split; [reflexivity|]. split; [lia|].
      split; [reflexivity|]. split; [|split; auto].
      apply sift_done; auto; intros; exfalso; div_lia.
Qed.

End Sift.

(** [siftDown] on the node [i] of a heap whose later nodes have the heap
    property gives it to [i] too and rearranges the cells from [i]. *)
Lemma siftDown_ok (a : arr) (b i n : Z) :
  0 <= b -> b + n <= len a -> 0 <= i < n -> n < 2 ^ 31 ->
  (forall j, i < j < n -> heapAt a b n j) ->
  exists a', siftDown a b i n = Ok a' /\
    (forall j, i <= j < n -> heapAt a' b n j) /\
    permOn (b + i) (b + n - 1) a a'.
Proof.
  intros H0 H1 H2 H3 Hh. unfold siftDown.
  rewrite (u32_small n), (u32_small i) by lia. mem.
  destruct (siftLoop_ok b n i (get a (b + i)) H0 H2 H3 (cells a) a i)
    as (a' & x' & E & B & L & P & O & C).
  { split; [lia|]. split; [lia|]. split; [|tauto].
    intros j Hj [N|N]; [|tauto]. apply Hh. lia. }
  { apply fuel_cells. lia. }
  rewrite E. cbn [bind]. mem.
  eexists. split; [reflexivity|]. split; [exact P|].
  split; [rewrite len_upd; lia|]. split.
  - intros k Hk. rewrite get_upd_ne, O by lia. reflexivity.
  - intros c. rewrite C. now rewrite upd_same.
Qed.

Lemma heapAt_ext (a a' : arr) (b n j : Z) :
  (forall k, j <= k < n -> get a' (b + k) = get a (b + k)) ->
  0 <= j ->
  heapAt a b n j -> heapAt a' b n j.
Proof.
  intros E Hj (H1 & H2).
  split; intros Hc; rewrite !E by lia; auto.
Qed.

Lemma buildHeap_ok (m : nat) (a : arr) (l i n : Z) :
  0 <= l -> l + n <= len a -> -1 <= i < n -> n < 2 ^ 31 ->
  (forall j, i < j < n -> heapAt a l n j) ->
  (Z.to_nat (i + 1) <= m)%nat ->
  exists a', buildHeap m a l i n = Ok a' /\
    (forall j, 0 <= j < n -> heapAt a' l n j) /\
    permOn l (l + n - 1) a a'.
Proof.
  revert a i. induction m as [|m IH]; intros a i H0 H1 H2 H3 Hh F.
  - assert (i = -1) by lia. subst i. cbn [buildHeap].
    exists a. split; [reflexivity|]. split; [|apply permOn_refl].
    intros j Hj. apply Hh. lia.
  - cbn [buildHeap]. destruct (Z.leb_spec 0 i) as [Ge|Lt].
    + destruct (siftDown_ok a l i n H0 H1 ltac:(lia) H3 Hh)
        as (a1 & E & P & Q).
      rewrite E. cbn [bind].
      assert (L1 : len a1 = len a) by (destruct Q; lia).
      destruct (IH a1 (i - 1) H0 ltac:(lia) ltac:(lia) H3
                  ltac:(intros j Hj; apply P; lia) ltac:(lia))
        as (a' & E' & P' & Q').
      exists a'. split; [exact E'|]. split; [exact P'|].
      eapply permOn_trans; [|exact Q'].
      apply (permOn_weaken (l + i) (l + n - 1)); auto; lia.
    + exists a. split; [reflexivity|]. split; [|apply permOn_refl].
      intros j Hj. apply Hh. lia.
Qed.

(** The root of a heap holds its greatest value. *)
Lemma heap_root_max (a : arr) (b n : Z) :
  (forall j, 0 <= j < n -> heapAt a b n j) ->
  forall j, 0 <= j < n -> get a (b + j) <= get a b.
Proof.
  intros H j Hj.
  assert (G : forall k : nat, forall j, 0 <= j <= Z.of_nat k -> j < n ->
                get a (b + j) <= get a (b + 0)).
  { induction k as [|k IH]; intros j' Hj' Ln.
    - assert (j' = 0) by lia. subst. lia.
    - destruct (Z.eq_dec j' 0) as [->|N]; [lia|].
      set (p := (j' - 1) / 2).
      assert (Hp : 0 <= p < j') by (unfold p; div_lia).
      assert (Hc : j' = 2 * p + 1 \/ j' = 2 * p + 2) by (unfold p; div_lia).
      destruct (H p ltac:(lia)) as (H1 & H2).
      pose proof (IH p ltac:(lia) ltac:(lia)).
      destruct Hc as [Hc|Hc]; rewrite Hc in *.
      + specialize (H1 ltac:(lia)). lia.
      + specialize (H2 ltac:(lia)). lia. }
  specialize (G (Z.to_nat j) j ltac:(lia) ltac:(lia)).
  now rewrite Z.add_0_r in G.
Qed.

(** The second loop of heap sort, with a heap of [x] cells before [r],
    an ascending run from [r] on, and no cell of the heap above any
    cell of the run. *)
Lemma sortHeap_ok (m : nat) (a : arr) (l r x high : Z) :
  0 <= l -> high < len a -> len a < 2 ^ 31 ->
  x = r - l -> 1 <= x -> r <= high + 1 ->
  (forall j, 0 <= j < x -> heapAt a l x j) ->
  sortedOn r high a ->
  (forall i k, l <= i < r -> r <= k <= high -> get a i <= get a k) ->
  (Z.to_nat x <= m)%nat ->
  exists a', sortHeap m a l r x = Ok a' /\
    sortedOn l high a' /\ permOn l high a a'.
Proof.
  revert a r x. induction m as [|m IH];
    intros a r x H0 H1 H2 Hx Hx1 Hr Hh S Le F; [lia|].
  cbn [sortHeap]. destruct (Z.ltb_spec l (r - 1)) as [Lt|Ge].
  - mem.
    set (z := get a l). set (a1 := upd a l (get a (r - 1))).
    assert (L1 : len a1 = len a) by apply len_upd.
    assert (G1 : forall k, k <> l -> get a1 k = get a k)
      by (intros; unfold a1; apply get_upd_ne; lia).
    destruct (siftDown_ok a1 l 0 (x - 1) H0 ltac:(lia) ltac:(lia) ltac:(lia))
      as (a2 & E & P & Q).
    { intros j Hj. destruct (Hh j ltac:(lia)) as (X1 & X2).
      split; intros Hc; rewrite !G1 by lia; auto; [apply X1|apply X2]; lia. }
    rewrite E. cbn [bind].
    assert (L2 : len a2 = len a) by (destruct Q; lia).
    mem. set (a3 := upd a2 (r - 1) z).
    assert (L3 : len a3 = len a) by (unfold a3; rewrite len_upd; lia).
    assert (G3 : forall k, k <> r - 1 -> get a3 k = get a2 k)
      by (intros; unfold a3; apply get_upd_ne; lia).
    pose proof Q as (_ & O2 & C2).
    assert (M : forall j, 0 <= j < x -> get a (l + j) <= z).
    { intros j Hj. unfold z. replace l with (l + 0) at 2 by lia.
      rewrite Z.add_0_r. apply heap_root_max with (n := x); auto. }
    assert (B2 : forall i, l <= i <= r - 2 ->
                 get a2 i <= z /\
                 forall k, r <= k <= high -> get a2 i <= get a k).
    { replace (l + 0) with l in Q by lia.
      replace (l + (x - 1) - 1) with (r - 2) in Q by lia.
      apply (permOn_forall
               (fun v => v <= z /\
                         forall k, r <= k <= high -> v <= get a k)
               l (r - 2) a1 a2); auto; try lia.
      intros i Hi. destruct (Z.eq_dec i l) as [->|N].
      - unfold a1. rewrite get_upd_eq by lia. split.
        + specialize (M (r - 1 - l) ltac:(lia)).
          replace (l + (r - 1 - l)) with (r - 1) in M by lia. exact M.
        + intros k Hk. apply Le; lia.
      - rewrite G1 by lia. split.
        + specialize (M (i - l) ltac:(lia)).
          replace (l + (i - l)) with i in M by lia. exact M.
        + intros k Hk. apply Le; lia. }
    destruct (IH a3 (r - 1) (x - 1) H0 ltac:(lia) ltac:(lia) ltac:(lia)
                ltac:(lia) ltac:(lia))
      as (a' & E' & S' & P'); try lia.
    + intros j Hj. apply (heapAt_ext a2); [|lia|apply P; lia].
      intros k Hk. apply G3. lia.
    + intros u v Hu Huv Hv.
      destruct (Z.eq_dec u (r - 1)) as [->|Nu].
      * destruct (Z.eq_dec v (r - 1)) as [->|Nv]; [lia|].
        unfold a3 at 1. rewrite get_upd_eq by lia.
        rewrite G3, O2, G1 by lia. unfold z. apply Le; lia.
      * rewrite !G3, !O2, !G1 by lia. apply S; lia.
    + intros i k Hi Hk.
      rewrite (G3 i) by lia. destruct (B2 i ltac:(lia)) as (B3 & B4).
      destruct (Z.eq_dec k (r - 1)) as [->|Nk].
      * unfold a3. rewrite get_upd_eq by lia. exact B3.
      * rewrite (G3 k), (O2 k), (G1 k) by lia. apply B4. lia.
    + exists a'. split; [exact E'|]. split; [exact S'|].
      eapply permOn_trans; [|exact P'].
      split; [lia|]. split.
      * intros k Hk. rewrite G3, O2, G1 by lia. reflexivity.
      * intros c.
        pose proof (cnt_upd c a2 (r - 1) z ltac:(lia)) as Q1. fold a3 in Q1.
        rewrite O2, G1 in Q1 by lia.
        pose proof (cnt_upd c a l (get a (r - 1)) ltac:(lia)) as Q2.
        fold a1 in Q2. fold z in Q2. rewrite <- C2 in Q2. lia.
  - assert (x = 1) by lia. subst x.
    exists a. split; [reflexivity|]. split; [|apply permOn_refl].
    intros u v Hu Huv Hv.
    destruct (Z.eq_dec u l) as [->|Nu].
    + destruct (Z.eq_dec v l) as [->|Nv]; [lia|]. apply Le; lia.
    + apply S; lia.
Qed.

(** Heap sort puts an interval of the array in order, rearranging it. *)
Lemma hSort_ok (a : arr) (low high : Z) :
  0 <= low <= high -> high < len a -> len a < 2 ^ 31 ->
  exists a', hSort a low high = Ok a' /\
    sortedOn low high a' /\ permOn low high a a'.
Proof.
  intros H0 H1 H2. unfold hSort.
  rewrite i32_small by lia. rewrite shiftr1.
  set (n := high + 1 - low).
  destruct (buildHeap_ok (cells a) a low (n / 2) n ltac:(lia) ltac:(lia)
              ltac:(unfold n; div_lia) ltac:(lia))
    as (a1 & E & P & Q).
  { intros j Hj. split; intros; exfalso; div_lia. }
  { apply fuel_cells. unfold n. div_lia. }
  rewrite E. cbn [bind].
  assert (L1 : len a1 = len a) by (destruct Q; lia).
  destruct (sortHeap_ok (cells a1) a1 low (high + 1) n high ltac:(lia)
              ltac:(lia) ltac:(lia) eq_refl ltac:(lia) ltac:(lia) P)
    as (a' & E' & S' & P').
  { intros u v Hu Huv Hv. lia. }
  { intros. lia. }
  { apply fuel_cells. lia. }
  exists a'. split; [exact E'|]. split; [exact S'|].
  eapply permOn_trans; [|exact P'].
  replace (low + n - 1) with high in Q by lia. exact Q.
Qed.

(** ** The driver sorts *)

Lemma split3_left (low l g high p : Z) (a b : arr) :
  0 <= low -> l < len a -> l < g ->
  split3 low l g high p a -> permOn low l a b -> split3 low l g high p b.
Proof.
  intros H0 H1 H2 (A & B & C) P. pose proof P as (_ & O & _).
  split; [|split].
  - intros i Hi.
    exact (permOn_forall (fun v => v <= p) low l a b H0 H1 P A i Hi).
  - intros i Hi. rewrite O by lia. auto.
  - intros i Hi. rewrite O by lia. auto.
Qed.

Lemma split3_right (low l g high p : Z) (a b : arr) :
  0 <= g -> high < len a -> l < g ->
  split3 low l g high p a -> permOn g high a b -> split3 low l g high p b.
Proof.
  intros H0 H1 H2 (A & B & C) P. pose proof P as (_ & O & _).
  split; [|split].
  - intros i Hi. rewrite O by lia. auto.
  - intros i Hi. rewrite O by lia. auto.
  - intros i Hi.
    exact (permOn_forall (fun v => p <= v) g high a b H0 H1 P C i Hi).
Qed.

Lemma split3_sorted (low l g high p : Z) (a : arr) :
  l < g ->
  split3 low l g high p a -> sortedOn low l a -> sortedOn g high a ->
  sortedOn low high a.
Proof.
  intros H (A & B & C) S1 S2 x y Hx Hxy Hy.
  destruct (Z_le_gt_dec x l), (Z_le_gt_dec y l).
  - apply S1; lia.
  - specialize (A x ltac:(lia)).
    destruct (Z_lt_ge_dec y g).
    + rewrite (B y) by lia. exact A.
    + specialize (C y ltac:(lia)). lia.
  - lia.
  - destruct (Z_lt_ge_dec x g), (Z_lt_ge_dec y g).
    + rewrite (B x), (B y) by lia. lia.
    + rewrite (B x) by lia. apply C. lia.
    + lia.
    + apply S2; lia.
Qed.

Lemma aboveLeast_permOn (bits low high lo hi : Z) (a b : arr) :
  0 <= low -> high < len a -> low <= lo -> hi <= high ->
  aboveLeast bits low high a -> permOn lo hi a b -> aboveLeast bits low high b.
Proof.
  intros H0 H1 H2 H3 A P k Hk.
  exact (permOn_forall (fun v => minE bits < v <= maxE bits) low high a b
           H0 H1 (permOn_weaken lo hi low high a b H2 H3 P) A k Hk).
Qed.

Lemma aboveLeast_sub (bits low high lo hi : Z) (a : arr) :
  low <= lo -> hi <= high ->
  aboveLeast bits low high a -> aboveLeast bits lo hi a.
Proof. intros H1 H2 A k Hk. apply A. lia. Qed.

Lemma guarded_permOn (leftmost : bool) (low high lo hi : Z) (a b : arr) :
  0 <= low -> high < len a -> low <= lo -> hi <= high ->
  guarded leftmost low high a -> permOn lo hi a b ->
  guarded leftmost low high b.
Proof.
  intros H0 H1 H2 H3 G P E. destruct (G E) as (G1 & G2).
  split; [exact G1|]. pose proof P as (_ & O & _).
  rewrite (O (low - 1)) by lia. intros k Hk.
  exact (permOn_forall (fun v => get a (low - 1) <= v) low high a b
           H0 H1 (permOn_weaken lo hi low high a b H2 H3 P) G2 k Hk).
Qed.

Lemma guarded_sub (leftmost : bool) (low high hi : Z) (a : arr) :
  hi <= high -> guarded leftmost low high a -> guarded leftmost low hi a.
Proof.
  intros H G E. destruct (G E) as (G1 & G2). split; [exact G1|].
  intros k Hk. apply G2. lia.
Qed.

(** Right of a split the cell before [g] guards the cells from [g]. *)
Lemma split3_guarded (low l g high p : Z) (a : arr) :
  1 <= g -> low <= l -> l < g ->
  split3 low l g high p a -> guarded false g high a.
Proof.
  intros H0 H1 H2 (A & B & C) _. split; [exact H0|].
  intros k Hk. specialize (C k Hk).
  destruct (Z.eq_dec (g - 1) l) as [E|N].
  - rewrite E. specialize (A l ltac:(lia)). lia.
  - rewrite (B (g - 1)) by lia. exact C.
Qed.

Lemma sorts_permOn (low high : Z) (a b : arr) (r : res arr) :
  permOn low high a b -> sorts low high b r -> sorts low high a r.
Proof.
  intros P (a' & E & P' & S). exists a'. split; [exact E|].
  split; [eapply permOn_trans; eauto|exact S].
Qed.

(** Once the left side of a split is in order, putting the right side
    in order puts the interval in order. *)
Lemma sorts_right (low l g high p : Z) (a : arr) (r : res arr) :
  0 <= low <= l -> l < g -> g <= high < len a ->
  split3 low l g high p a -> sortedOn low l a ->
  sorts g high a r -> sorts low high a r.
Proof.
  intros H0 H1 H2 Sp S (a' & E & P & S').
  exists a'. split; [exact E|].
  split; [apply (permOn_weaken g high); auto; lia|].
  apply (split3_sorted low l g high p); auto.
  - apply (split3_right low l g high p a); auto; lia.
  - pose proof P as (_ & O & _).
    intros x y Hx Hxy Hy. rewrite !O by lia. apply S; lia.
Qed.

Lemma iSort_sorts (leftmost : bool) (a : arr) (low high : Z) :
  0 <= low -> high < len a -> len a < 2 ^ 31 - 16 ->
  guarded leftmost low high a ->
  sorts low high a ('(_, a') <- iSort false leftmost a low high ;; Ok a').
Proof.
  intros H0 H1 H2 G.
  destruct (iSortM_ok false leftmost a low high H0 H1 H2 G)
    as (b & m & a' & E & P & S & F).
  unfold iSort. rewrite E. cbn [bind].
  exists a'. split; [reflexivity|]. split; [exact P|].
  destruct b; [auto|]. destruct (F eq_refl). discriminate.
Qed.

Lemma hSort_sorts (a : arr) (low high : Z) :
  0 <= low <= high -> high < len a -> len a < 2 ^ 31 ->
  sorts low high a (hSort a low high).
Proof.
  intros H0 H1 H2.
  destruct (hSort_ok a low high H0 H1 H2) as (a' & E & S & P).
  exists a'. auto.
Qed.

(** Pivot selection rearranges the interval. *)
Lemma selectPivot_permOn (a : arr) (low high cl sl mid sr cr : Z) :
  0 <= low -> low <= high -> high < len a -> high - low < 2 ^ 32 ->
  candidates (high - low) low high = (cl, sl, mid, sr, cr) ->
  exists a', selectPivot a low cl sl mid sr cr high = Ok a' /\
    permOn low high a a'.
Proof.
  intros H0 H1 H2 H3 C.
  destruct (candidates_in (high - low) low high cl sl mid sr cr
              ltac:(lia) ltac:(lia) C)
    as (I1 & I2 & I3 & I4 & I5 & I6 & M).
  unfold selectPivot.
  rewrite notDescending_ok by lia. cbn [bind].
  destruct (_ || _).
  - apply sortCandidates_perm; lia.
  - destruct (rotate_ok (cells a) a low high mid ltac:(lia)
                ltac:(rewrite M; div_lia) H2 ltac:(apply fuel_cells; lia))
      as (a' & E & L & S & O & Cn).
    exists a'. split; [exact E|].
    split; [lia|]. split; [|exact Cn]. intros j Hj. apply O. lia.
Qed.

Lemma equalsCandidate_ok (a : arr) (h sl mid sr : Z) :
  0 <= sl < len a -> 0 <= mid < len a -> 0 <= sr < len a ->
  exists b, equalsCandidate a h sl mid sr = Ok b /\
    (b = true -> h = get a sl \/ h = get a mid \/ h = get a sr) /\
    (b = false -> h <> get a mid).
Proof.
  intros H1 H2 H3. unfold equalsCandidate. mem.
  destruct (Z.eqb_spec h (get a sl));
    [exists true; split; [|split]; auto; discriminate|]. mem.
  destruct (Z.eqb_spec h (get a mid));
    [exists true; split; [|split]; auto; discriminate|]. mem.
  destruct (Z.eqb_spec h (get a sr));
    [exists true; split; [|split]; auto; discriminate|].
  exists false. split; [reflexivity|]. split; [discriminate|auto].
Qed.

Section Frame.

Variable bits : Z.
Hypothesis bits_pos : 0 < bits.

(** What a frame asks of the values it is given: it is kept by a
    rearrangement of cells of the interval, it passes to the left side
    and to the right side of a split, and under it the pivot of the main
    partition is a value of the element type above the least one. *)
Variable safe : bool -> Z -> Z -> arr -> Prop.
Hypothesis safe_permOn :
  forall (leftmost : bool) (low high lo hi : Z) (a b : arr),
    0 <= low -> high < len a -> low <= lo -> hi <= high ->
    safe leftmost low high a -> permOn lo hi a b -> safe leftmost low high b.
Hypothesis safe_left :
  forall (leftmost : bool) (low high hi : Z) (a : arr),
    hi <= high -> safe leftmost low high a -> safe leftmost low hi a.
Hypothesis safe_right :
  forall (leftmost : bool) (low high g : Z) (a : arr),
    low < g -> g <= high -> safe leftmost low high a -> safe false g high a.
Hypothesis safe_pivot :
  forall (leftmost : bool) (low high mid : Z) (a : arr),
    safe leftmost low high a -> guarded leftmost low high a ->
    low <= mid <= high ->
    (leftmost = false -> get a (low - 1) <> get a mid) ->
    minE bits < get a mid <= maxE bits.

Section Step.

(** What the recursive calls do, on intervals of a width below [N]. *)
Variable rec : bool -> bool -> arr -> Z -> Z -> Z -> res arr.
Variable N : Z.
Hypothesis rec_sorts :
  forall (Root leftmost : bool) (a : arr) (low high height : Z),
    0 <= low <= high -> high < len a -> len a < 2 ^ 31 - 16 ->
    (Root = true -> low < high) ->
    safe leftmost low high a ->
    guarded leftmost low high a ->
    high - low < N ->
    sorts low high a (rec Root leftmost a low high height).

Lemma l2_sorts (Root : bool) (a : arr) (g high height : Z) :
  1 <= g <= high -> high < len a -> len a < 2 ^ 31 - 16 ->
  safe false g high a -> guarded false g high a ->
  high - g < N ->
  sorts g high a (l2 rec Root a g high height).
Proof.
  intros H0 H1 H2 A G F. unfold l2.
  rewrite u32_small by lia.
  destruct Root; cbn [andb].
  - destruct (Z.ltb_spec (high - g) InsertionThreshold).
    + apply iSort_sorts; auto; lia.
    + destruct (Z.ltb_spec height 0).
      * apply hSort_sorts; lia.
      * apply rec_sorts; auto; try lia.
        unfold InsertionThreshold in *. lia.
  - apply rec_sorts; auto; first [lia|discriminate].
Qed.

Lemma l1_sorts (Root leftmost : bool) (a : arr)
  (low l g high height p : Z) :
  0 <= low <= l -> l < g -> g <= high < len a -> len a < 2 ^ 31 - 16 ->
  safe leftmost low high a -> guarded leftmost low high a ->
  split3 low l g high p a ->
  l - low < N -> high - g < N ->
  sorts low high a (l1 rec Root leftmost a low l g high height).
Proof.
  intros H0 H1 H2 H3 A G Sp F1 F2. unfold l1.
  destruct (rec_sorts false leftmost a low l height ltac:(lia) ltac:(lia)
              H3 ltac:(discriminate)
              (safe_left leftmost low high l a ltac:(lia) A)
              (guarded_sub leftmost low high l a ltac:(lia) G) F1)
    as (a1 & E & P & S).
  rewrite E. cbn [bind].
  assert (L1 : len a1 = len a) by (destruct P; lia).
  apply (sorts_permOn low high a a1);
    [apply (permOn_weaken low l); auto; lia|].
  pose proof (split3_left low l g high p a a1 ltac:(lia) ltac:(lia) H1 Sp P)
    as Sp1.
  apply (sorts_right low l g high p); auto; try lia.
  apply l2_sorts; auto; try lia.
  - apply (safe_right leftmost low high); try lia.
    apply (safe_permOn leftmost low high low l a); auto; lia.
  - apply (split3_guarded low l g high p); auto; lia.
Qed.

(** The places [l] and [g] after the pivot was skipped split the
    interval. *)
Lemma skipPivot_split (a : arr) (low high l0 p : Z) :
  low < high -> low <= l0 <= high ->
  (forall i, low <= i < l0 -> get a i < p) ->
  get a l0 = p ->
  (forall i, l0 < i <= high -> p <= get a i) ->
  exists l g, skipPivot l0 low high = (l, g) /\
    low <= l /\ l < g /\ g <= high /\ l < high /\ low < g /\
    split3 low l g high p a.
Proof.
  intros H0 H1 Lt Eq Ge. unfold skipPivot.
  destruct (Z.ltb_spec low l0), (Z.ltb_spec l0 high); try lia;
    eexists; eexists; (split; [reflexivity|]);
    (repeat (split; [lia|])); (split; [|split]); intros i Hi;
    (destruct (Z.eq_dec i l0) as [->|Ni]; [lia|]);
    first [ specialize (Lt i ltac:(lia)); lia
          | specialize (Ge i ltac:(lia)); lia
          | lia ].
Qed.

Lemma mainStep_sorts (Root leftmost : bool) (a : arr)
  (x low mid high height : Z) :
  0 <= low -> low < high -> high < len a -> len a < 2 ^ 31 - 16 ->
  low <= mid <= high ->
  safe leftmost low high a -> guarded leftmost low high a ->
  minE bits < get a mid <= maxE bits ->
  high - low <= N ->
  sorts low high a (mainStep bits rec Root leftmost a x low mid high height).
Proof.
  intros H0 H1 H2 H3 Hm A G Hp F. unfold mainStep.
  destruct (partitionMain_ok bits bits_pos a low mid high ltac:(lia) x Hp)
    as (a2 & l0 & work & E & B & Lt & Eq & Ge & P).
  rewrite E. cbn [bind].
  destruct (skipPivot_split a2 low high l0 (get a mid) H1 B Lt Eq Ge)
    as (l & g & K & B1 & B2 & B3 & B4 & B5 & Sp).
  rewrite K.
  assert (L2 : len a2 = len a) by (destruct P; lia).
  apply (sorts_permOn low high a a2 _ P).
  pose proof (safe_permOn leftmost low high low high a a2 H0 H2
                ltac:(lia) ltac:(lia) A P) as A2.
  pose proof (guarded_permOn leftmost low high low high a a2 H0 H2
                ltac:(lia) ltac:(lia) G P) as G2.
  rewrite (u32_small (l - low)), (u32_small (high - g)) by lia.
  set (p := get a mid) in *.
  assert (Both : forall b height',
             permOn low l a2 b \/ permOn g high a2 b ->
             sorts low high a2
               (l1 rec Root leftmost b low l g high height')).
  { intros b height' Pb.
    assert (Pb' : permOn low high a2 b)
      by (destruct Pb as [Pb|Pb];
          [apply (permOn_weaken low l)|apply (permOn_weaken g high)];
          auto; lia).
    assert (Lb : len b = len a) by (destruct Pb'; lia).
    apply (sorts_permOn low high a2 b _ Pb').
    apply (l1_sorts Root leftmost b low l g high height' p); try lia.
    - apply (safe_permOn leftmost low high low high a2); auto; lia.
    - apply (guarded_permOn leftmost low high low high a2); auto; lia.
    - destruct Pb as [Pb|Pb].
      + apply (split3_left low l g high p a2); auto; lia.
      + apply (split3_right low l g high p a2); auto; lia. }
  destruct ((Z.shiftr x 3 <=? l - low) && (Z.shiftr x 3 <=? high - g)).
  - destruct work.
    + apply Both. left. apply permOn_refl.
    + destruct (iSortM_ok true leftmost a2 low l H0 ltac:(lia) ltac:(lia)
                  (guarded_sub leftmost low high l a2 ltac:(lia) G2))
        as (b & m & a3 & E3 & P3 & S3 & F3).
      unfold iSort at 1. rewrite E3. cbn [bind].
      destruct b; cbn [negb]; [|apply Both; left; exact P3].
      assert (L3 : len a3 = len a) by (destruct P3; lia).
      apply (sorts_permOn low high a2 a3);
        [apply (permOn_weaken low l); auto; lia|].
      pose proof (split3_left low l g high p a2 a3 H0 ltac:(lia) B2 Sp P3)
        as Sp3.
      apply (sorts_right low l g high p); auto; try lia.
      pose proof (split3_guarded low l g high p a3 ltac:(lia) B1 B2 Sp3)
        as G3.
      destruct (iSortM_ok true false a3 g high ltac:(lia) ltac:(lia)
                  ltac:(lia) G3)
        as (b2 & m2 & a4 & E4 & P4 & S4 & F4).
      unfold iSort. rewrite E4. cbn [bind].
      destruct b2; cbn [negb].
      * exists a4. split; [reflexivity|]. split; [exact P4|auto].
      * assert (L4 : len a4 = len a) by (destruct P4; lia).
        apply (sorts_permOn g high a3 a4 _ P4).
        apply l2_sorts; auto; try lia.
        -- apply (safe_right leftmost low high); try lia.
           apply (safe_permOn leftmost low high g high a3); auto; try lia.
           apply (safe_permOn leftmost low high low l a2); auto; lia.
        -- apply (guarded_permOn false g high g high a3); auto; lia.
  - destruct (scramble_permOn a2 low l (l - low) H0 ltac:(lia) ltac:(lia)
                ltac:(lia)) as (a3 & E3 & P3).
    rewrite E3. cbn [bind].
    assert (L3 : len a3 = len a) by (destruct P3; lia).
    destruct (scramble_permOn a3 g high (high - g) ltac:(lia) ltac:(lia)
                ltac:(lia) ltac:(lia)) as (a4 & E4 & P4).
    rewrite E4. cbn [bind].
    assert (L4 : len a4 = len a) by (destruct P4; lia).
    apply (sorts_permOn low high a2 a3);
      [apply (permOn_weaken low l); auto; lia|].
    apply (sorts_permOn low high a3 a4);
      [apply (permOn_weaken g high); auto; lia|].
    pose proof (split3_left low l g high p a2 a3 H0 ltac:(lia) B2 Sp P3)
      as Sp3.
    pose proof (split3_right low l g high p a3 a4 ltac:(lia) ltac:(lia) B2
                  Sp3 P4) as Sp4.
    apply (l1_sorts Root leftmost a4 low l g high (height - 1) p); try lia;
      auto.
    + apply (safe_permOn leftmost low high g high a3); auto; try lia.
      apply (safe_permOn leftmost low high low l a2); auto; lia.
    + apply (guarded_permOn leftmost low high g high a3); auto; try lia.
      apply (guarded_permOn leftmost low high low l a2); auto; lia.
Qed.

End Step.

(** After the partition to the left the cells that hold [h] are in
    order with what the driver makes of the cells behind them. *)
Lemma left_sorts (a : arr) (low high h l : Z) (r : res arr) :
  0 <= low -> low < l -> l <= high + 1 -> high < len a ->
  (forall i, low <= i < l -> get a i = h) ->
  (forall i, l <= i <= high -> h < get a i) ->
  (l <= high -> sorts l high a r) ->
  (high < l -> r = Ok a) ->
  sorts low high a r.
Proof.
  intros H0 H1 H2 H3 Eq Gt Hs Hr.
  destruct (Z_le_gt_dec l high) as [Le|G].
  - apply (sorts_right low (l - 1) l high h); auto; try lia.
    + split; [|split]; intros i Hi; try lia.
      * rewrite Eq by lia. lia.
      * specialize (Gt i Hi). lia.
    + intros x y Hx Hxy Hy. rewrite !Eq by lia. lia.
  - exists a. split; [apply Hr; lia|]. split; [apply permOn_refl|].
    intros x y Hx Hxy Hy. rewrite !Eq by lia. lia.
Qed.

(** [qSort] on an interval of the array with safe values, guarded on its
    left unless leftmost, and with fuel for its width: it returns with
    the interval in order, and rearranged. *)
Lemma qSort_sorts_safe (fuel : nat) :
  forall (Root leftmost : bool) (a : arr) (low high height : Z),
    0 <= low <= high -> high < len a -> len a < 2 ^ 31 - 16 ->
    (Root = true -> low < high) ->
    safe leftmost low high a ->
    guarded leftmost low high a ->
    high - low < Z.of_nat fuel - 1 ->
    sorts low high a (qSort bits fuel Root leftmost a low high height).
Proof.
  induction fuel as [|fuel IH];
    intros Root leftmost a low high height H0 H1 H2 HR A G F; [lia|].
  cbn [qSort]. rewrite u32_small by lia.
  assert (Small : negb Root && (high - low <? InsertionThreshold) = true ->
          sorts low high a
            ('(_, a') <- iSort false leftmost a low high ;; Ok a'))
    by (intros _; apply iSort_sorts; auto; lia).
  destruct (negb Root && (high - low <? InsertionThreshold)) eqn:T1;
    [auto|clear Small].
  destruct (negb Root && (height <? 0)) eqn:T2;
    [apply hSort_sorts; lia|].
  assert (Lh : low < high).
  { destruct Root; [auto|]. cbn [negb andb] in T1.
    apply Z.ltb_ge in T1. unfold InsertionThreshold in T1. lia. }
  destruct (candidates (high - low) low high)
    as [[[[cl sl] mid] sr] cr] eqn:C.
  destruct (candidates_in (high - low) low high cl sl mid sr cr
              ltac:(lia) ltac:(lia) C)
    as (I1 & I2 & I3 & I4 & I5 & I6 & _).
  destruct (selectPivot_permOn a low high cl sl mid sr cr ltac:(lia)
              ltac:(lia) H1 ltac:(lia) C) as (a1 & E1 & P1).
  rewrite E1. cbn [bind].
  assert (L1 : len a1 = len a) by (destruct P1; lia).
  apply (sorts_permOn low high a a1 _ P1).
  pose proof (safe_permOn leftmost low high low high a a1 ltac:(lia) H1
                ltac:(lia) ltac:(lia) A P1) as A1.
  pose proof (guarded_permOn leftmost low high low high a a1 ltac:(lia) H1
                ltac:(lia) ltac:(lia) G P1) as G1.
  assert (Rec : forall (Root leftmost : bool) (a : arr) (low high height : Z),
            0 <= low <= high -> high < len a -> len a < 2 ^ 31 - 16 ->
            (Root = true -> low < high) ->
            safe leftmost low high a ->
            guarded leftmost low high a ->
            high - low < Z.of_nat fuel - 1 ->
            sorts low high a (qSort bits fuel Root leftmost a low high height))
    by exact IH.
  assert (Main : (leftmost = false -> get a1 (low - 1) <> get a1 mid) ->
            sorts low high a1
              (mainStep bits (qSort bits fuel) Root leftmost a1 (high - low)
                 low mid high height)).
  { intros Ne.
    apply (mainStep_sorts (qSort bits fuel) (Z.of_nat fuel - 1) Rec);
      auto; try lia.
    apply (safe_pivot leftmost low high mid a1); auto; lia. }
  destruct leftmost; cbn [negb]; [apply Main; discriminate|].
  destruct (G1 eq_refl) as (G2 & G3).
  mem.
  destruct (equalsCandidate_ok a1 (get a1 (low - 1)) sl mid sr
              ltac:(lia) ltac:(lia) ltac:(lia)) as (b & Eb & Hc & Hn).
  rewrite Eb. cbn [bind]. destruct b; [|apply Main; auto].
  specialize (Hc eq_refl).
  destruct (partitionLeft_ok bits bits_pos a1 low high (get a1 (low - 1))
              ltac:(lia) eq_refl)
    as (a2 & l & E2 & B & Eq & Ne & _ & P2).
  rewrite E2. cbn [bind].
  assert (L2 : len a2 = len a) by (destruct P2; lia).
  set (h := get a1 (low - 1)) in *.
  apply (sorts_permOn low high a1 a2 _ P2).
  assert (Hl : low < l).
  { destruct (Z_lt_ge_dec low l) as [|Ge]; [assumption|exfalso].
    pose proof (permOn_forall (fun v => v <> h) low high a2 a1
                  ltac:(lia) ltac:(lia) (permOn_sym _ _ _ _ P2)
                  ltac:(intros i Hi; apply Ne; lia)) as Q.
    cbv beta in Q.
    destruct Hc as [Hc|[Hc|Hc]]; symmetry in Hc; revert Hc; apply Q; lia. }
  assert (Gt : forall i, l <= i <= high -> h < get a2 i).
  { intros i Hi.
    pose proof (permOn_forall (fun v => h <= v) low high a1 a2
                  ltac:(lia) ltac:(lia) P2 G3 i ltac:(lia)) as Q.
    cbv beta in Q. specialize (Ne i Hi). lia. }
  apply (left_sorts a2 low high h l); auto; try lia.
  - intros Le. destruct (Z.leb_spec high l) as [Hl'|Hl'].
    + assert (l = high) by lia. subst l.
      exists a2. split; [reflexivity|]. split; [apply permOn_refl|].
      apply sortedOn_one.
    + apply Rec; auto; try lia.
      * apply (safe_right false low high); try lia.
        apply (safe_permOn false low high low high a1); auto; lia.
      * intros _. split; [lia|]. intros k Hk.
        rewrite (Eq (l - 1)) by lia. specialize (Gt k Hk). lia.
  - intros Hh. destruct (Z.leb_spec high l); [reflexivity|lia].
Qed.

End Frame.

(** [qSort] on an interval of the array that holds no least element,
    guarded on its left unless leftmost, and with fuel for its width:
    it returns with the interval in order, and rearranged. *)
Lemma qSort_sorts (bits : Z) (fuel : nat) :
  0 < bits ->
  forall (Root leftmost : bool) (a : arr) (low high height : Z),
    0 <= low <= high -> high < len a -> len a < 2 ^ 31 - 16 ->
    (Root = true -> low < high) ->
    aboveLeast bits low high a ->
    guarded leftmost low high a ->
    high - low < Z.of_nat fuel - 1 ->
    sorts low high a (qSort bits fuel Root leftmost a low high height).
Proof.
  intros Hb Root leftmost a low high height.
  apply (qSort_sorts_safe bits Hb (fun _ lo hi b => aboveLeast bits lo hi b)).
  - intros _ lo hi lo' hi' b c. apply aboveLeast_permOn.
  - intros _ lo hi hi' b H. apply aboveLeast_sub; lia.
  - intros _ lo hi g b H1 H2. apply aboveLeast_sub; lia.
  - intros _ lo hi mid b A _ Hm _. apply A, Hm.
Qed.

Lemma qSort_sorts_pivotable (bits : Z) (fuel : nat) :
  0 < bits ->
  forall (Root leftmost : bool) (a : arr) (low high height : Z),
    0 <= low <= high -> high < len a -> len a < 2 ^ 31 - 16 ->
    (Root = true -> low < high) ->
    pivotable bits leftmost low high a ->
    guarded leftmost low high a ->
    high - low < Z.of_nat fuel - 1 ->
    sorts low high a (qSort bits fuel Root leftmost a low high height).
Proof.
  intros Hb. apply (qSort_sorts_safe bits Hb (pivotable bits)).
  - intros [|] lo hi lo' hi' b c H0 H1 H2 H3 A P; cbn [pivotable] in *.
    + apply (aboveLeast_permOn bits lo hi lo' hi' b); auto.
    + intros k Hk. destruct (Z.eq_dec k (lo - 1)) as [->|N].
      * destruct P as (_ & O & _). rewrite O by lia. apply A. lia.
      * exact (permOn_forall (fun v => minE bits <= v <= maxE bits) lo hi b c
                 H0 H1 (permOn_weaken lo' hi' lo hi b c H2 H3 P)
                 ltac:(intros i Hi; apply A; lia) k ltac:(lia)).
  - intros [|] lo hi hi' b H A; cbn [pivotable] in *.
    + apply (aboveLeast_sub bits lo hi); auto; lia.
    + intros k Hk. apply A. lia.
  - intros [|] lo hi g b H1 H2 A; cbn [pivotable] in *.
    + intros k Hk. specialize (A k ltac:(lia)). lia.
    + intros k Hk. apply A. lia.
  - intros [|] lo hi mid b A G Hm Ne; cbn [pivotable] in *.
    + apply A, Hm.
    + destruct (G eq_refl) as (G1 & G2).
      pose proof (A (lo - 1) ltac:(lia)). pose proof (A mid ltac:(lia)).
      specialize (G2 mid Hm). specialize (Ne eq_refl). lia.
Qed.

(** ** The bit scan *)

(** Or-ing a word with itself shifted right by the width of the window
    doubles the window. *)
Lemma window_step (x y w : Z) :
  0 <= w ->
  (forall i, 0 <= i -> Z.testbit y i = true <-> window x w i) ->
  forall i, 0 <= i ->
    Z.testbit (Z.lor y (Z.shiftr y w)) i = true <-> window x (2 * w) i.
Proof.
  intros Hw H i Hi.
  rewrite Z.lor_spec, Z.shiftr_spec, orb_true_iff by lia.
  rewrite (H i Hi), (H (i + w)) by lia.
  split.
  - intros [(j & Hj & T)|(j & Hj & T)].
    + exists j. split; [lia|exact T].
    + exists (w + j). split; [lia|]. rewrite <- T. f_equal. lia.
  - intros (j & Hj & T).
    destruct (Z_lt_ge_dec j w).
    + left. exists j. split; [lia|exact T].
    + right. exists (j - w). split; [lia|]. rewrite <- T. f_equal. lia.
Qed.

(** After the five steps a bit is set when one of the 32 bits from it on
    was. *)
Lemma parallelPrefixFill_window (x i : Z) :
  0 <= i ->
  Z.testbit (parallelPrefixFill x) i = true <-> window x 32 i.
Proof.
  revert i. unfold parallelPrefixFill.
  apply (window_step x _ 16); [lia|].
  apply (window_step x _ 8); [lia|].
  apply (window_step x _ 4); [lia|].
  apply (window_step x _ 2); [lia|].
  apply (window_step x _ 1); [lia|].
  intros i Hi. split.
  - intros T. exists 0. split; [lia|]. rewrite Z.add_0_r. exact T.
  - intros (j & Hj & T). replace (i + j) with i in T by lia. exact T.
Qed.

Lemma parallelPrefixFill_ones (x : Z) :
  1 <= x < 2 ^ 32 ->
  parallelPrefixFill x = Z.ones (Z.log2 x + 1).
Proof.
  intros Hx.
  assert (K : 0 <= Z.log2 x < 32).
  { split; [apply Z.log2_nonneg|]. apply Z.log2_lt_pow2; lia. }
  apply Z.bits_inj'. intros i Hi.
  destruct (Z_lt_ge_dec i (Z.log2 x + 1)).
  - rewrite Z.ones_spec_low by lia.
    apply parallelPrefixFill_window; [exact Hi|].
    exists (Z.log2 x - i). split; [lia|].
    replace (i + (Z.log2 x - i)) with (Z.log2 x) by lia.
    apply Z.bit_log2. lia.
  - rewrite Z.ones_spec_high by lia.
    destruct (Z.testbit (parallelPrefixFill x) i) eqn:T; [|reflexivity].
    apply parallelPrefixFill_window in T; [|exact Hi].
    destruct T as (j & Hj & T).
    rewrite Z.bits_above_log2 in T by lia. discriminate.
Qed.

(** The table, looked up at the product of the 32 words of ones. *)
Lemma DeBruijnTableF_ones :
  forallb (fun n =>
             nth (Z.to_nat
                    (Z.shiftr (u64 (Z.ones (Z.of_nat n + 1) * DeBruijn64)) 58))
               DeBruijnTableF 0 =? Z.of_nat n) (seq 0 32) = true.
Proof. vm_compute. reflexivity. Qed.

(** X1.  [parallelPrefixFill] on a 32-bit word other than 0 sets every
    bit below the highest one that is set and no bit above it: the word
    becomes [2^(k+1) - 1] for [k] the place of that bit. *)
Theorem parallelPrefixFill_fills (x : Z) :
  1 <= x < 2 ^ 32 ->
  parallelPrefixFill x = 2 ^ (Z.log2 x + 1) - 1 /\
  x <= parallelPrefixFill x < 2 ^ 32.
Proof.
  intros Hx.
  assert (K : 0 <= Z.log2 x < 32).
  { split; [apply Z.log2_nonneg|]. apply Z.log2_lt_pow2; lia. }
  rewrite parallelPrefixFill_ones by exact Hx.
  rewrite Z.ones_equiv.
  destruct (Z.log2_spec x ltac:(lia)) as (L1 & L2).
  rewrite <- Z.add_1_r in L2.
  assert (2 ^ (Z.log2 x + 1) <= 2 ^ 32)
    by (apply Z.pow_le_mono_r; lia).
  lia.
Qed.

Lemma parallelPrefixFill_fills_witness :
  parallelPrefixFill 88 = 2 ^ (Z.log2 88 + 1) - 1 /\
  88 <= parallelPrefixFill 88 < 2 ^ 32.
Proof. apply (parallelPrefixFill_fills 88). lia. Defined.

(** X2.  [bitScanRev] on a 32-bit word other than 0 is the place of its
    highest bit that is set, the integer part of its binary logarithm. *)
Theorem bitScanRev_log2 (l : Z) :
  1 <= l < 2 ^ 32 -> bitScanRev l = Z.log2 l.
Proof.
  intros Hl.
  assert (K : 0 <= Z.log2 l < 32).
  { split; [apply Z.log2_nonneg|]. apply Z.log2_lt_pow2; lia. }
  unfold bitScanRev. cbv zeta. rewrite parallelPrefixFill_ones by exact Hl.
  pose proof (proj1 (forallb_forall _ _) DeBruijnTableF_ones
                (Z.to_nat (Z.log2 l))) as T.
  cbv beta in T. rewrite Z2Nat.id in T by lia.
  apply Z.eqb_eq, T, in_seq. lia.
Qed.

Lemma bitScanRev_log2_witness : bitScanRev 1000 = Z.log2 1000.
Proof. apply (bitScanRev_log2 1000). lia. Defined.

(** ** Heap sort on its own *)

(** X3.  [siftDown(a, i, size)] on a heap of [size] cells at [a] whose
    nodes after [i] have the heap property: the nodes from [i] on have it
    afterwards, the cells from [i] to the end of the heap are rearranged
    and no other cell is touched. *)
Theorem siftDown_restores_heap (a : arr) (b i n : Z) :
  0 <= b -> b + n <= len a -> 0 <= i < n -> n < 2 ^ 31 ->
  (forall j, i < j < n -> heapAt a b n j) ->
  exists a', siftDown a b i n = Ok a' /\
    (forall j, i <= j < n -> heapAt a' b n j) /\
    len a' = len a /\
    (forall k, k < b + i \/ b + n <= k -> get a' k = get a k) /\
    Permutation (sub a (b + i) (b + n - 1)) (sub a' (b + i) (b + n - 1)).
Proof.
  intros H0 H1 H2 H3 Hh.
  destruct (siftDown_ok a b i n H0 H1 H2 H3 Hh) as (a' & E & P & Q).
  exists a'. split; [exact E|]. split; [exact P|].
  pose proof Q as (L & O & _).
  split; [lia|]. split; [intros k Hk; apply O; lia|].
  apply permOn_sub; auto; lia.
Qed.

Lemma siftDown_restores_heap_witness :
  exists a', siftDown [0; 1; 5; 4; 2; 3] 1 0 5 = Ok a' /\
    (forall j, 0 <= j < 5 -> heapAt a' 1 5 j) /\
    len a' = len [0; 1; 5; 4; 2; 3] /\
    (forall k, k < 1 + 0 \/ 1 + 5 <= k -> get a' k = get [0; 1; 5; 4; 2; 3] k) /\
    Permutation (sub [0; 1; 5; 4; 2; 3] (1 + 0) (1 + 5 - 1))
      (sub a' (1 + 0) (1 + 5 - 1)).
Proof.
  apply (siftDown_restores_heap [0; 1; 5; 4; 2; 3] 1 0 5); try concrete.
  intros j Hj.
  assert (C : j = 1 \/ j = 2 \/ j = 3 \/ j = 4) by lia.
  destruct C as [->|[->|[->| ->]]]; split; intros Hc;
    first [exfalso; lia|vm_compute; discriminate].
Defined.

(** X4.  [siftDown] on a node that holds no less than its children (a
    leaf among them) returns with the array as it was. *)
Theorem siftDown_heap_node (a : arr) (b i n : Z) :
  0 <= b -> b + n <= len a -> 0 <= i < n -> n < 2 ^ 31 ->
  heapAt a b n i ->
  siftDown a b i n = Ok a.
Proof.
  intros H0 H1 H2 H3 (C1 & C2). unfold siftDown.
  rewrite (u32_small n), (u32_small i) by lia. mem.
  assert (E : siftLoop (cells a) a b n (Z.shiftr n 1) (get a (b + i)) i =
              Ok (a, i)).
  { unfold cells. cbn [siftLoop]. rewrite shiftr1.
    destruct (Z.ltb_spec i (n / 2)) as [Lt|Ge]; [|reflexivity].
    assert (Hl : 2 * i + 1 < n) by div_lia.
    rewrite shiftl1. rewrite (u32_small (2 * i + 1)) by lia.
    rewrite (u32_small (2 * i + 1 + 1)) by lia.
    replace (2 * i + 1 + 1) with (2 * i + 2) by lia.
    mem. specialize (C1 Hl).
    destruct (Z.ltb_spec (2 * i + 2) n) as [Lr|Gr].
    - mem. specialize (C2 Lr).
      destruct (Z.ltb_spec (get a (b + (2 * i + 1)))
                           (get a (b + (2 * i + 2)))); cbn [bind].
      + destruct (Z.leb_spec (get a (b + (2 * i + 2))) (get a (b + i)));
          [reflexivity|lia].
      + destruct (Z.leb_spec (get a (b + (2 * i + 1))) (get a (b + i)));
          [reflexivity|lia].
    - cbn [bind].
      destruct (Z.leb_spec (get a (b + (2 * i + 1))) (get a (b + i)));
        [reflexivity|lia]. }
  rewrite E. cbn [bind]. mem. now rewrite upd_same.
Qed.

Lemma siftDown_heap_node_witness :
  siftDown [7; 9; 5; 4; 2; 3] 1 0 5 = Ok [7; 9; 5; 4; 2; 3].
Proof.
  apply (siftDown_heap_node [7; 9; 5; 4; 2; 3] 1 0 5); concrete.
Defined.

(** X5.  The first loop of [hSort], [for (int i = x >> 1; i >= 0; --i)
    siftDown(l, i, x)], makes the interval a heap: every node holds no
    less than its children afterwards, so [*low] holds the greatest value
    of the interval, and the interval is rearranged. *)
Theorem buildHeap_root_max (a : arr) (low high : Z) :
  0 <= low <= high -> high < len a -> len a < 2 ^ 31 ->
  exists a',
    buildHeap (cells a) a low (Z.shiftr (high + 1 - low) 1) (high + 1 - low)
      = Ok a' /\
    (forall j, 0 <= j < high + 1 - low -> heapAt a' low (high + 1 - low) j) /\
    (forall k, low <= k <= high -> get a' k <= get a' low) /\
    permOn low high a a'.
Proof.
  intros H0 H1 H2. rewrite shiftr1.
  set (n := high + 1 - low).
  destruct (buildHeap_ok (cells a) a low (n / 2) n ltac:(lia) ltac:(lia)
              ltac:(unfold n; div_lia) ltac:(lia))
    as (a1 & E & P & Q).
  { intros j Hj. split; intros; exfalso; div_lia. }
  { apply fuel_cells. unfold n. div_lia. }
  exists a1. split; [exact E|]. split; [exact P|]. split.
  - intros k Hk.
    pose proof (heap_root_max a1 low n P (k - low) ltac:(lia)) as M.
    replace (low + (k - low)) with k in M by lia. exact M.
  - replace (low + n - 1) with high in Q by lia. exact Q.
Qed.

Lemma buildHeap_root_max_witness :
  let a := [3; 1; 4; 1; 5; 9; 2; 6] in
  exists a',
    buildHeap (cells a) a 1 (Z.shiftr (6 + 1 - 1) 1) (6 + 1 - 1) = Ok a' /\
    (forall j, 0 <= j < 6 + 1 - 1 -> heapAt a' 1 (6 + 1 - 1) j) /\
    (forall k, 1 <= k <= 6 -> get a' k <= get a' 1) /\
    permOn 1 6 a a'.
Proof.
  intros a. apply (buildHeap_root_max a 1 6); concrete.
Defined.

(** X6.  [hSort(low, high)] on an interval of at least one cell returns
    with the interval in ascending order and rearranged, whatever values
    it holds, and touches no cell outside of it. *)
Theorem hSort_sorts_interval (a : arr) (low high : Z) :
  0 <= low <= high -> high < len a -> len a < 2 ^ 31 ->
  exists a', hSort a low high = Ok a' /\
    sortedOn low high a' /\
    Permutation (sub a low high) (sub a' low high) /\
    len a' = len a /\
    (forall k, k < low \/ high < k -> get a' k = get a k).
Proof.
  intros H0 H1 H2.
  destruct (hSort_ok a low high H0 H1 H2) as (a' & E & S & P).
  exists a'. split; [exact E|]. split; [exact S|].
  split; [apply permOn_sub; auto; lia|].
  destruct P as (L & O & _). auto.
Qed.

Lemma hSort_sorts_interval_witness :
  let a := [3; -128; 4; 1; 127; 9; -128; 6] in
  exists a', hSort a 1 6 = Ok a' /\
    sortedOn 1 6 a' /\
    Permutation (sub a 1 6) (sub a' 1 6) /\
    len a' = len a /\
    (forall k, k < 1 \/ 6 < k -> get a' k = get a k).
Proof.
  intros a. apply (hSort_sorts_interval a 1 6); concrete.
Defined.

(** ** Insertion sort on its own *)

(** The guarded loop on cells already in order moves nothing. *)
Lemma insertLoop_sorted (Bail : bool) (n : nat) (a : arr) (l r i : Z) :
  0 <= l -> l < i -> r < len a -> sortedOn l r a ->
  (Z.to_nat (r + 1 - i) <= n)%nat ->
  insertLoop Bail n a l r i 0 = Ok (true, 0, a).
Proof.
  revert i. induction n as [|n IH]; intros i H0 H1 H2 S F.
  - cbn [insertLoop]. destruct (Z.leb_spec i r); [lia|reflexivity].
  - cbn [insertLoop]. destruct (Z.leb_spec i r) as [Le|Gt]; [|reflexivity].
    mem. unfold cells at 1. cbn [shiftGuarded].
    destruct (Z.leb_spec l (i - 1)); [|lia]. mem.
    pose proof (S (i - 1) i ltac:(lia) ltac:(lia) Le).
    destruct (Z.ltb_spec (get a i) (get a (i - 1))); [lia|].
    cbn [bind]. replace (i - 1 + 1) with i by lia. mem.
    rewrite upd_same.
    replace (0 + (i - 1 - (i - 1))) with 0 by lia.
    change (AscendingThreshold <? u32 (i32 0)) with false.
    change (i32 0) with 0. cbv iota.
    assert (R : insertLoop Bail n a l r (i + 1) 0 = Ok (true, 0, a))
      by (apply IH; auto; lia).
    rewrite R. now destruct Bail.
Qed.

(** Insertion sort, guarded or not, on cells already in order. *)
Lemma iSortM_sorted (Bail leftmost : bool) (a : arr) (low high : Z) :
  0 <= low -> high < len a -> sortedOn low high a ->
  iSortM Bail leftmost a low high = Ok (true, 0, a).
Proof.
  intros H0 H1 S. unfold iSortM. destruct leftmost.
  - apply insertLoop_sorted; auto; try lia. apply fuel_cells. lia.
  - destruct (Z_le_gt_dec high low) as [Le|Gt].
    + unfold cells. cbn [skipAscending].
      destruct (Z.leb_spec high low); [reflexivity|lia].
    + destruct (skipAscending_ok (cells a) a low low high ltac:(lia) H1
                  (sortedOn_one low a) ltac:(apply fuel_cells; lia)
                  ltac:(unfold cells; lia)) as (s & E & Hs).
      rewrite E. cbn [bind]. destruct s as [l'|]; [|reflexivity].
      destruct Hs as (B & _ & D).
      pose proof (S (l' - 1) l' ltac:(lia) ltac:(lia) ltac:(lia)). lia.
Qed.

Lemma iSort_sorted (Bail leftmost : bool) (a : arr) (low high : Z) :
  0 <= low -> high < len a -> sortedOn low high a ->
  iSort Bail leftmost a low high = Ok (true, a).
Proof.
  intros H0 H1 S. unfold iSort.
  rewrite iSortM_sorted by assumption. reflexivity.
Qed.

(** X7.  [iSort], with or without bail-out, guarded or not, on an
    interval that is in ascending order already (an interval of one cell
    or of none among them): it returns [true] with no move on its count
    and the array as it was; the unguarded one does not need the cell
    before the interval for that. *)
Theorem iSort_sorted_fixed (Bail leftmost : bool) (a : arr) (low high : Z) :
  0 <= low -> high < len a -> sortedOn low high a ->
  iSortM Bail leftmost a low high = Ok (true, 0, a) /\
  iSort Bail leftmost a low high = Ok (true, a).
Proof.
  intros H0 H1 S. split.
  - apply iSortM_sorted; assumption.
  - apply iSort_sorted; assumption.
Qed.

Lemma iSort_sorted_fixed_witness :
  let a := [5; 1; 2; 2; 7; 0] in
  iSortM true false a 1 4 = Ok (true, 0, a) /\
  iSort true false a 1 4 = Ok (true, a).
Proof.
  intros a. apply (iSort_sorted_fixed true false a 1 4); try concrete.
  intros i j Hi Hij Hj.
  assert (Ci : i = 1 \/ i = 2 \/ i = 3 \/ i = 4) by lia.
  assert (Cj : j = 1 \/ j = 2 \/ j = 3 \/ j = 4) by lia.
  destruct Ci as [->|[->|[->| ->]]], Cj as [->|[->|[->| ->]]];
    first [lia|vm_compute; discriminate].
Defined.

(** A scan [while (e < *--i) i[d] = *i;] that finds no cell to stop at
    runs out of the array at its low end. *)
Lemma shiftDown_fault (d : Z) (n : nat) (a : arr) (e i : Z) :
  1 <= d -> 0 <= i ->
  (forall j, 0 <= j < i -> e < get a j) ->
  (Z.to_nat i < n)%nat ->
  shiftDown d n a e i = Fault.
Proof.
  revert a i. induction n as [|n IH]; intros a i Hd Hi Lt F; [lia|].
  cbn [shiftDown].
  destruct (Z_le_gt_dec (len a) (i - 1)) as [Out|In];
    [rewrite rd_fault by lia; reflexivity|].
  destruct (Z.eq_dec i 0) as [->|N]; [rewrite rd_fault by lia; reflexivity|].
  mem. specialize (Lt (i - 1) ltac:(lia)) as Lt1.
  destruct (Z.ltb_spec e (get a (i - 1))); [|lia].
  destruct (Z_lt_ge_dec (i - 1 + d) (len a)) as [Iw|Ow].
  - mem. apply IH; auto; try lia.
    intros j Hj. rewrite get_upd_ne by lia. apply Lt. lia.
  - unfold wr, inb. destruct (Z.ltb_spec (i - 1 + d) (len a)); [lia|].
    rewrite andb_false_r. reflexivity.
Qed.

(** X8.  The unguarded [iSort] ([leftmost] false) needs the cell before
    its interval: called on an interval that starts at the base of the
    array, with the second cell below the first, it reads [a[-1]]. *)
Theorem iSort_unguarded_base_faults (Bail : bool) (a : arr) (high : Z) :
  1 <= high < len a -> get a 1 < get a 0 ->
  iSort Bail false a 0 high = Fault.
Proof.
  intros H D. unfold iSort, iSortM.
  unfold cells at 1. cbn [skipAscending].
  destruct (Z.leb_spec high 0); [lia|].
  change (0 + 1 - 1) with 0. change (0 + 1) with 1. mem.
  destruct (Z.leb_spec (get a 0) (get a 1)); [lia|]. cbn [bind].
  unfold cells at 1. cbn [pairLoop]. change (1 + 1) with 2.
  destruct (Z.leb_spec 2 high) as [Le|Gt].
  - mem.
    set (ex := get a 1). set (ey := get a 2).
    assert (P : exists ex' ey' m,
               (if ey <? ex then (ey, ex, i32 (0 + 1)) else (ex, ey, 0)) =
               (ex', ey', m) /\ ex' < get a 0).
    { destruct (Z.ltb_spec ey ex); eexists; eexists; eexists;
        (split; [reflexivity|]); unfold ex in *; lia. }
    destruct P as (ex' & ey' & m & -> & Lx).
    destruct (Z_lt_ge_dec ey' (get a 0)) as [Ly|Gy].
    + rewrite (shiftDown_fault 2 (cells a) a ey' 1); [reflexivity|lia|lia| |].
      * intros j Hj. assert (j = 0) by lia. subst j. exact Ly.
      * unfold cells, len in *. lia.
    + unfold cells at 1. cbn [shiftDown]. change (1 - 1) with 0. mem.
      destruct (Z.ltb_spec ey' (get a 0)); [lia|]. cbn [bind].
      change (0 + 1 + 1) with 2. change (0 + 1) with 1. mem.
      rewrite (shiftDown_fault 1 _ _ ex' 1); [reflexivity|lia|lia| |].
      * intros j Hj. assert (j = 0) by lia. subst j.
        rewrite get_upd_ne by lia. exact Lx.
      * rewrite cells_upd. unfold cells, len in *. lia.
  - cbn [bind]. assert (high = 1) by lia. subst high. mem.
    rewrite (shiftDown_fault 1 (cells a) a (get a 1) 1);
      [reflexivity|lia|lia| |].
    + intros j Hj. assert (j = 0) by lia. subst j. exact D.
    + unfold cells, len in *. lia.
Qed.

Lemma iSort_unguarded_base_faults_witness :
  iSort false false [2; 1; 3] 0 2 = Fault.
Proof.
  apply (iSort_unguarded_base_faults false [2; 1; 3] 2); concrete.
Defined.

(** X9.  Whenever [iSort], with or without bail-out, returns [true], the
    interval is in ascending order; and whatever it returns, it has
    touched no cell outside the interval. *)
Theorem iSort_true_sorted (Bail leftmost : bool) (a : arr) (low high : Z) :
  0 <= low -> high < len a -> len a < 2 ^ 31 - 16 ->
  (leftmost = false ->
   1 <= low /\ forall k, low <= k <= high -> get a (low - 1) <= get a k) ->
  exists b a', iSort Bail leftmost a low high = Ok (b, a') /\
    (b = true -> sortedOn low high a') /\
    len a' = len a /\
    (forall k, k < low \/ high < k -> get a' k = get a k).
Proof.
  intros H0 H1 H2 G.
  destruct (iSortM_ok Bail leftmost a low high H0 H1 H2 G)
    as (b & m & a' & E & (L & O & _) & S & _).
  exists b, a'. unfold iSort. rewrite E. cbn [bind].
  split; [reflexivity|]. split; [exact S|]. split; [lia|exact O].
Qed.

Lemma iSort_true_sorted_witness :
  let a := [0; 3; 1; 2; 9] in
  exists b a', iSort true false a 1 3 = Ok (b, a') /\
    (b = true -> sortedOn 1 3 a') /\
    len a' = len a /\
    (forall k, k < 1 \/ 3 < k -> get a' k = get a k).
Proof.
  intros a. apply (iSort_true_sorted true false a 1 3); try concrete.
  intros _. split; [lia|]. intros k Hk.
  assert (C : k = 1 \/ k = 2 \/ k = 3) by lia.
  destruct C as [->|[->| ->]]; vm_compute; discriminate.
Defined.

(** ** Input that is in order already *)

(** X10.  From an interval of nine cells on the seven cells that pivot
    selection looks at are seven different cells, in this order and
    placed alike from both ends: [low < cl < sl < mid < sr < cr < high]. *)
Theorem candidates_strict (x low high cl sl mid sr cr : Z) :
  8 <= x < 2 ^ 32 -> high = low + x ->
  candidates x low high = (cl, sl, mid, sr, cr) ->
  low < cl /\ cl < sl /\ sl < mid /\ mid < sr /\ sr < cr /\ cr < high /\
  cl - low = high - cr /\ sl - low = high - sr /\ mid = low + x / 2.
Proof.
  intros Hx Hh E. unfold candidates in E. shifts.
  rewrite u32_small in E by div_lia.
  inversion E. div_lia.
Qed.

Lemma candidates_strict_witness :
  0 < 16 /\ 16 < 33 /\ 33 < 44 /\ 44 < 55 /\ 55 < 72 /\ 72 < 88 /\
  16 - 0 = 88 - 72 /\ 33 - 0 = 88 - 55 /\ 44 = 0 + 88 / 2.
Proof.
  apply (candidates_strict 88 0 88 16 33 44 55 72); concrete.
Defined.

(** An arm of the insertion sort of the candidates whose first
    comparison fails does nothing. *)
Lemma sink_fixed (a : arr) (e q p : Z) (left : list Z) :
  0 <= p < len a -> get a p <= e ->
  sink a e (p :: left) q = Ok a.
Proof.
  intros Hp Le. cbn [sink]. mem.
  destruct (Z.ltb_spec e (get a p)); [lia|reflexivity].
Qed.

(** Pivot selection on seven cells that hold an ascending run. *)
Lemma selectPivot_fixed (a : arr) (low cl sl mid sr cr high : Z) :
  0 <= low -> high < len a ->
  low <= cl <= high -> low <= sl <= high -> low <= mid <= high ->
  low <= sr <= high -> low <= cr <= high ->
  get a low <= get a cl -> get a cl <= get a sl -> get a sl <= get a mid ->
  get a mid <= get a sr -> get a sr <= get a cr -> get a cr <= get a high ->
  selectPivot a low cl sl mid sr cr high = Ok a.
Proof.
  intros H0 H1 Hcl Hsl Hmid Hsr Hcr A1 A2 A3 A4 A5 A6.
  unfold selectPivot. rewrite notDescending_ok by lia. cbn [bind].
  destruct (Z.leb_spec (get a low) (get a cl)); [|lia]. cbn [orb].
  unfold sortCandidates. mem.
  set (cl' := if get a low <? get a cl then low else cl).
  set (cr' := if get a cr <? get a high then high else cr).
  assert (Hcl' : low <= cl' <= high /\ get a cl' <= get a sl)
    by (unfold cl'; destruct (get a low <? get a cl); lia).
  assert (Hcr' : low <= cr' <= high /\ get a sr <= get a cr')
    by (unfold cr'; destruct (get a cr <? get a high); lia).
  rewrite sink_fixed by lia. cbn [bind]. mem.
  rewrite sink_fixed by lia. cbn [bind]. mem.
  rewrite sink_fixed by lia. cbn [bind]. mem.
  apply sink_fixed; lia.
Qed.

(** X11.  Pivot selection on an interval, of any width, that is in
    ascending order already returns with the array as it was. *)
Theorem selectPivot_sorted_interval (a : arr)
  (low high cl sl mid sr cr : Z) :
  0 <= low -> low <= high -> high < len a -> high - low < 2 ^ 32 ->
  candidates (high - low) low high = (cl, sl, mid, sr, cr) ->
  sortedOn low high a ->
  selectPivot a low cl sl mid sr cr high = Ok a.
Proof.
  intros H0 H1 H2 H3 C S.
  destruct (candidates_in (high - low) low high cl sl mid sr cr
              ltac:(lia) ltac:(lia) C)
    as (I1 & I2 & I3 & I4 & I5 & I6 & _).
  apply selectPivot_fixed; try lia; apply S; lia.
Qed.

Lemma selectPivot_sorted_interval_witness :
  let a := [1; 2; 2; 3; 5; 8; 9; 9; 12] in
  selectPivot a 0 1 3 4 5 7 8 = Ok a.
Proof.
  intros a. apply (selectPivot_sorted_interval a 0 8 1 3 4 5 7);
    try concrete.
  intros i j Hi Hij Hj.
  assert (L : forall k, 0 <= k <= 7 -> get a k <= get a (k + 1)).
  { intros k Hk.
    assert (C : k = 0 \/ k = 1 \/ k = 2 \/ k = 3 \/ k = 4 \/ k = 5 \/
                k = 6 \/ k = 7) by lia.
    destruct C as [->|[->|[->|[->|[->|[->|[->| ->]]]]]]];
      vm_compute; discriminate. }
  replace j with (i + Z.of_nat (Z.to_nat (j - i))) by lia.
  assert (B : i + Z.of_nat (Z.to_nat (j - i)) <= 8) by lia.
  induction (Z.to_nat (j - i)) as [|n IH]; [rewrite Z.add_0_r; lia|].
  specialize (IH ltac:(lia)).
  specialize (L (i + Z.of_nat n) ltac:(lia)).
  replace (i + Z.of_nat (S n)) with (i + Z.of_nat n + 1) by lia. lia.
Defined.

(** The main partition of an interval that is partitioned around
    [mid] already. *)
Lemma partitionMain_fixed (bits : Z) (a : arr) (x low mid high : Z) :
  0 < bits -> 0 <= low <= mid -> mid <= high < len a ->
  minE bits < get a mid <= maxE bits ->
  (forall i, low <= i < mid -> get a i < get a mid) ->
  (forall i, mid < i <= high -> get a mid <= get a i) ->
  partitionMain bits a x low mid high =
    Ok (a, mid, high - low <? Z.shiftr x 1).
Proof.
  intros Hb H0 H1 Hp Lt Ge. unfold partitionMain, prepareMain. mem.
  set (p := get a mid) in *.
  destruct (scanUp_ok (fun v => v <? p) (cells a) a (low - 1) mid
              ltac:(lia) ltac:(lia) ltac:(lia)
              ltac:(apply Z.ltb_irrefl) ltac:(apply fuel_cells; lia))
    as (l & El & Bl & Tl & _).
  assert (l = mid).
  { destruct (Z.eq_dec l mid) as [|N]; [assumption|exfalso].
    specialize (Lt l ltac:(lia)). apply Z.ltb_ge in Tl. lia. }
  subst l. rewrite El. cbn [bind]. mem.
  fold p. rewrite upd_same. mem.
  rewrite wrapE_pred by auto.
  set (a1 := upd a mid (p - 1)).
  assert (L1 : len a1 = len a) by apply len_upd.
  destruct (scanDown_ok (fun v => p <=? v) (cells a1) a1 (high + 1) mid
              ltac:(lia) ltac:(lia) ltac:(lia))
    as (k & Ek & Bk & Tk & _).
  { unfold a1. rewrite get_upd_eq by lia. apply Z.leb_gt. lia. }
  { apply fuel_cells. lia. }
  assert (k = mid).
  { destruct (Z.eq_dec k mid) as [|N]; [assumption|exfalso].
    unfold a1 in Tk. rewrite get_upd_ne in Tk by lia.
    specialize (Ge k ltac:(lia)). apply Z.leb_gt in Tk. lia. }
  subst k. rewrite Ek. cbn [bind].
  unfold cells at 1. cbn [gapLoop]. rewrite Z.ltb_irrefl. cbn [bind].
  rewrite (rd_ok a1 mid) by lia. cbn [bind].
  rewrite (wr_ok a1 mid (get a1 mid)) by lia. cbn [bind].
  rewrite upd_same.
  rewrite (wr_ok a1 mid p) by lia. cbn [bind].
  unfold a1. rewrite upd_upd by lia. unfold p at 1. rewrite upd_same.
  do 3 f_equal. lia.
Qed.

(** X12.  The main partition in a frame that is partitioned around its
    pivot [a[mid]] already (smaller values before [mid], no smaller ones
    behind): the array is returned as it was, the pivot stays at [mid],
    and [work] is false, which sends the driver to the insertion sort
    with bail-out. *)
Theorem partitionMain_partitioned_fixed (bits : Z) (a : arr)
  (low mid high : Z) :
  0 < bits -> 0 <= low <= mid -> mid <= high < len a -> low < high ->
  minE bits < get a mid <= maxE bits ->
  (forall i, low <= i < mid -> get a i < get a mid) ->
  (forall i, mid < i <= high -> get a mid <= get a i) ->
  partitionMain bits a (high - low) low mid high = Ok (a, mid, false).
Proof.
  intros Hb H0 H1 Hl Hp Lt Ge.
  rewrite (partitionMain_fixed bits a (high - low) low mid high)
    by assumption.
  rewrite shiftr1.
  destruct (Z.ltb_spec (high - low) ((high - low) / 2));
    [exfalso; div_lia|reflexivity].
Qed.

Lemma partitionMain_partitioned_fixed_witness :
  let a := [2; 1; 3; 5; 4] in
  partitionMain 8 a (4 - 0) 0 2 4 = Ok (a, 2, false).
Proof.
  intros a. apply (partitionMain_partitioned_fixed 8 a 0 2 4); try concrete.
  - intros i Hi. assert (C : i = 0 \/ i = 1) by lia.
    destruct C as [->| ->]; vm_compute; reflexivity.
  - intros i Hi. assert (C : i = 3 \/ i = 4) by lia.
    destruct C as [->| ->]; vm_compute; discriminate.
Defined.

(** When the main partition has done little work and leaves a balanced
    split of an interval that is in order, the two insertion sorts with
    bail-out return [true] and the frame returns: no recursive call, no
    further turn of the loop. *)
Lemma mainStep_returns_sorted (bits : Z)
  (rec : bool -> bool -> arr -> Z -> Z -> Z -> res arr)
  (Root leftmost : bool) (a1 a2 : arr) (x low mid high height l0 : Z) :
  partitionMain bits a1 x low mid high = Ok (a2, l0, false) ->
  0 <= low -> low < l0 -> l0 < high -> high < len a2 ->
  high - low < 2 ^ 32 ->
  Z.shiftr x 3 <= l0 - 1 - low -> Z.shiftr x 3 <= high - (l0 + 1) ->
  sortedOn low high a2 ->
  mainStep bits rec Root leftmost a1 x low mid high height = Ok a2.
Proof.
  intros E H0 H1 H2 H3 H4 B1 B2 S. unfold mainStep.
  rewrite E. cbn [bind]. unfold skipPivot.
  destruct (Z.ltb_spec low l0); [|lia].
  destruct (Z.ltb_spec l0 high); [|lia].
  rewrite (u32_small (l0 - 1 - low)), (u32_small (high - (l0 + 1))) by lia.
  destruct (Z.leb_spec (Z.shiftr x 3) (l0 - 1 - low)); [|lia].
  destruct (Z.leb_spec (Z.shiftr x 3) (high - (l0 + 1))); [|lia].
  cbn [andb].
  rewrite iSort_sorted; [|lia|lia|intros i j Hi Hij Hj; apply S; lia].
  cbn [bind negb].
  rewrite iSort_sorted; [|lia|lia|intros i j Hi Hij Hj; apply S; lia].
  reflexivity.
Qed.

Lemma get_cons (x : Z) (a : arr) (i : Z) :
  0 <= i -> get (x :: a) (i + 1) = get a i.
Proof.
  intros Hi. unfold get.
  destruct (Z.ltb_spec (i + 1) 0); [lia|].
  destruct (Z.ltb_spec i 0); [lia|].
  replace (Z.to_nat (i + 1)) with (S (Z.to_nat i)) by lia. reflexivity.
Qed.

Lemma len_cons (x : Z) (a : arr) : len (x :: a) = len a + 1.
Proof. unfold len. cbn [length]. lia. Qed.

Lemma ascending_get (a : arr) :
  ascending a = true ->
  forall i j, 0 <= i -> i < j -> j < len a -> get a i < get a j.
Proof.
  induction a as [|x t IH]; intros A i j Hi Hij Hj.
  - unfold len in Hj. cbn in Hj. lia.
  - destruct t as [|y t'].
    + unfold len in Hj. cbn in Hj. lia.
    + cbn [ascending] in A. apply andb_prop in A. destruct A as (A1 & A2).
      apply Z.ltb_lt in A1. rewrite len_cons in Hj.
      assert (X : forall k, 0 <= k -> k < len (y :: t') ->
                    x < get (y :: t') k).
      { intros k Hk Lk. destruct (Z.eq_dec k 0) as [->|N].
        - exact A1.
        - specialize (IH A2 0 k ltac:(lia) ltac:(lia) Lk).
          change (get (y :: t') 0) with y in IH. lia. }
      replace j with (j - 1 + 1) by lia. rewrite get_cons by lia.
      destruct (Z.eq_dec i 0) as [->|N].
      * change (get (x :: y :: t') 0) with x. apply X; lia.
      * replace i with (i - 1 + 1) by lia. rewrite get_cons by lia.
        apply IH; auto; lia.
Qed.

(** X13.  [blipsort] on 88 cells or more that hold a strictly ascending
    run of values of the element type returns the array as it was after
    one pivot selection, one partition and the two insertion sorts with
    bail-out: no recursive call is made and the loop of [qSort] takes no
    second turn (one unit of fuel is enough). *)
Theorem blipsort_ascending (bits : Z) (a : arr) (cnt : Z) :
  0 < bits -> cnt = len a -> InsertionThreshold <= cnt -> cnt < 2 ^ 32 ->
  (forall i j, 0 <= i -> i < j -> j < cnt -> get a i < get a j) ->
  minE bits <= get a 0 -> get a (cnt - 1) <= maxE bits ->
  blipsort bits 1 a cnt = Ok a.
Proof.
  intros Hb Hc H1 H2 Asc Lo Hi. unfold blipsort, InsertionThreshold in *.
  destruct (Z.ltb_spec cnt 88); [lia|].
  rewrite u32_small by lia. rewrite Z.add_0_l.
  set (high := cnt - 1).
  cbn [qSort negb andb]. rewrite Z.sub_0_r. rewrite (u32_small high) by lia.
  destruct (candidates high 0 high) as [[[[cl sl] mid] sr] cr] eqn:C.
  destruct (candidates_in high 0 high cl sl mid sr cr ltac:(lia)
              ltac:(lia) C)
    as (I1 & I2 & I3 & I4 & I5 & I6 & M).
  assert (Le : sortedOn 0 high a).
  { intros i j Hi' Hij Hj. destruct (Z.eq_dec i j) as [->|N]; [lia|].
    specialize (Asc i j Hi' ltac:(lia) ltac:(lia)). lia. }
  rewrite selectPivot_fixed by (try apply Le; lia).
  cbn [bind].
  assert (Hm : 0 < mid < high) by div_lia.
  apply (mainStep_returns_sorted bits _ true true a a high 0 mid high _ mid);
    try lia; try (rewrite shiftr3; div_lia); [|exact Le].
  rewrite (partitionMain_fixed bits a high 0 mid high); try lia.
  - rewrite shiftr1, Z.sub_0_r.
    destruct (Z.ltb_spec high (high / 2)); [exfalso; div_lia|reflexivity].
  - pose proof (Asc 0 mid ltac:(lia) ltac:(lia) ltac:(lia)).
    pose proof (Le mid high ltac:(lia) ltac:(lia) ltac:(lia)).
    unfold high in *. lia.
  - intros i Hi'. apply Asc; lia.
  - intros i Hi'. apply Le; lia.
Qed.

Lemma blipsort_ascending_witness :
  let a := map Z.of_nat (seq 0 100) in
  blipsort 8 1 a 100 = Ok a.
Proof.
  intros a. apply (blipsort_ascending 8 a 100); try concrete.
  intros i j Hi Hij Hj.
  apply (ascending_get a); [vm_compute; reflexivity|exact Hi|exact Hij|exact Hj].
Defined.

Lemma gapLoop_done (test : Z -> bool) (n : nat) (a : arr) (l g k : Z) :
  k <= g -> gapLoop test n a l g k = Ok (a, l, g).
Proof.
  intros H. destruct n; cbn [gapLoop];
    destruct (Z.ltb_spec g k); first [lia|reflexivity].
Qed.

(** The main partition of an interval that is partitioned around [mid]
    but for the cell behind [mid], which holds less than the pivot: the
    two cells change places. *)
Lemma partitionMain_pair (bits : Z) (a : arr) (x low mid high : Z) :
  0 < bits -> 0 <= low <= mid -> mid + 1 <= high -> high < len a ->
  minE bits < get a mid <= maxE bits ->
  get a (mid + 1) < get a mid ->
  (forall i, low <= i < mid -> get a i < get a mid) ->
  (forall i, mid + 1 < i <= high -> get a mid <= get a i) ->
  partitionMain bits a x low mid high =
    Ok (upd (upd a mid (get a (mid + 1))) (mid + 1) (get a mid), mid + 1,
        high - low - 1 <? Z.shiftr x 1).
Proof.
  intros Hb H0 H1 H2 Hp Hq Lt Ge. unfold partitionMain, prepareMain. mem.
  set (p := get a mid) in *. set (q := get a (mid + 1)) in *.
  destruct (scanUp_ok (fun v => v <? p) (cells a) a (low - 1) mid
              ltac:(lia) ltac:(lia) ltac:(lia)
              ltac:(apply Z.ltb_irrefl) ltac:(apply fuel_cells; lia))
    as (l & El & Bl & Tl & _).
  assert (l = mid).
  { destruct (Z.eq_dec l mid) as [|N]; [assumption|exfalso].
    specialize (Lt l ltac:(lia)). apply Z.ltb_ge in Tl. lia. }
  subst l. rewrite El. cbn [bind]. mem.
  fold p. rewrite upd_same. mem.
  rewrite wrapE_pred by auto.
  set (a1 := upd a mid (p - 1)).
  assert (L1 : len a1 = len a) by apply len_upd.
  assert (Q1 : get a1 (mid + 1) = q)
    by (unfold a1; rewrite get_upd_ne by lia; reflexivity).
  destruct (scanDown_ok (fun v => p <=? v) (cells a1) a1 (high + 1) (mid + 1)
              ltac:(lia) ltac:(lia) ltac:(lia))
    as (k & Ek & Bk & Tk & _).
  { rewrite Q1. apply Z.leb_gt. lia. }
  { apply fuel_cells. lia. }
  assert (k = mid + 1).
  { destruct (Z.eq_dec k (mid + 1)) as [|N]; [assumption|exfalso].
    unfold a1 in Tk. rewrite get_upd_ne in Tk by lia.
    specialize (Ge k ltac:(lia)). apply Z.leb_gt in Tk. lia. }
  subst k. rewrite Ek. cbn [bind].
  unfold cells at 1. cbn [gapLoop].
  destruct (Z.ltb_spec mid (mid + 1)); [|lia].
  rewrite (rd_ok a1 mid) by lia. cbn [bind].
  rewrite (wr_ok a1 mid (get a1 mid)) by lia. cbn [bind].
  rewrite upd_same.
  rewrite (rd_ok a1 (mid + 1)) by lia. cbn [bind]. rewrite Q1.
  rewrite (wr_ok a1 mid q) by lia. cbn [bind].
  unfold a1 at 1 2 3. rewrite upd_upd by lia.
  set (a3 := upd a mid q).
  assert (L3 : len a3 = len a) by apply len_upd.
  assert (G3 : get a3 mid = q) by (unfold a3; apply get_upd_eq; lia).
  rewrite (rd_ok a3 mid) by lia. cbn [bind]. rewrite G3.
  destruct (Z.ltb_spec q p); [|lia].
  rewrite gapLoop_done by lia. cbn [bind].
  assert (Q3 : get a3 (mid + 1) = q)
    by (unfold a3; rewrite get_upd_ne by lia; reflexivity).
  rewrite (rd_ok a3 (mid + 1)) by lia. cbn [bind].
  rewrite (wr_ok a3 (mid + 1) (get a3 (mid + 1))) by lia. cbn [bind].
  rewrite upd_same.
  rewrite (wr_ok a3 (mid + 1) p) by lia. cbn [bind].
  do 3 f_equal. lia.
Qed.

Lemma get_rev (a : arr) (i : Z) :
  0 <= i < len a -> get (rev a) i = get a (len a - 1 - i).
Proof.
  unfold get, len. intros H.
  destruct (Z.ltb_spec i 0); [lia|].
  destruct (Z.ltb_spec (Z.of_nat (length a) - 1 - i) 0); [lia|].
  rewrite rev_nth by lia. f_equal. lia.
Qed.

Lemma len_rev (a : arr) : len (rev a) = len a.
Proof. unfold len. now rewrite length_rev. Qed.

(** X14.  [blipsort] on 88 cells or more that hold a strictly descending
    run of values of the element type returns the array reversed after
    the rotation, one partition and the two insertion sorts with
    bail-out: no recursive call is made and the loop of [qSort] takes no
    second turn (one unit of fuel is enough). *)
Theorem blipsort_descending (bits : Z) (a : arr) (cnt : Z) :
  0 < bits -> cnt = len a -> InsertionThreshold <= cnt -> cnt < 2 ^ 32 ->
  (forall i j, 0 <= i -> i < j -> j < cnt -> get a j < get a i) ->
  minE bits <= get a (cnt - 1) -> get a 0 <= maxE bits ->
  blipsort bits 1 a cnt = Ok (rev a).
Proof.
  intros Hb Hc H1 H2 D Lo Hi. unfold blipsort, InsertionThreshold in *.
  destruct (Z.ltb_spec cnt 88); [lia|].
  rewrite u32_small by lia. rewrite Z.add_0_l.
  set (high := cnt - 1).
  cbn [qSort negb andb]. rewrite Z.sub_0_r. rewrite (u32_small high) by lia.
  destruct (candidates high 0 high) as [[[[cl sl] mid] sr] cr] eqn:C.
  assert (I : 0 < cl /\ cl < sl /\ sl < mid /\ mid < sr /\ sr < cr /\
              cr < high /\ mid = high / 2).
  { unfold candidates in C. shifts.
    rewrite u32_small in C by div_lia. inversion C. div_lia. }
  destruct I as (I1 & I2 & I3 & I4 & I5 & I6 & M).
  unfold selectPivot. rewrite notDescending_ok by lia. cbn [bind].
  pose proof (D 0 cl ltac:(lia) I1 ltac:(lia)).
  pose proof (D cl sl ltac:(lia) I2 ltac:(lia)).
  pose proof (D sl mid ltac:(lia) I3 ltac:(lia)).
  pose proof (D mid sr ltac:(lia) I4 ltac:(lia)).
  pose proof (D sr cr ltac:(lia) I5 ltac:(lia)).
  pose proof (D cr high ltac:(lia) I6 ltac:(lia)).
  destruct (Z.leb_spec (get a 0) (get a cl)); [lia|].
  destruct (Z.leb_spec (get a cl) (get a sl)); [lia|].
  destruct (Z.leb_spec (get a sl) (get a mid)); [lia|].
  destruct (Z.leb_spec (get a mid) (get a sr)); [lia|].
  destruct (Z.leb_spec (get a sr) (get a cr)); [lia|].
  destruct (Z.leb_spec (get a cr) (get a high)); [lia|].
  cbn [orb].
  destruct (rotate_ok (cells a) a 0 high mid ltac:(lia) ltac:(div_lia)
              ltac:(lia) ltac:(apply fuel_cells; lia))
    as (a1 & E1 & L1 & R1 & R2 & _).
  rewrite E1. cbn [bind]. rewrite Z.add_0_l in R1, R2.
  assert (Rv : forall r : arr, len r = len a ->
                 (forall i, 0 <= i <= high -> get r i = get a (high - i)) ->
                 r = rev a).
  { intros r Lr Hr. apply arr_ext; [now rewrite len_rev|].
    intros i Hi'. rewrite get_rev by lia. rewrite Hr by lia.
    f_equal. unfold high. lia. }
  assert (Sr : forall r : arr,
                 (forall i, 0 <= i <= high -> get r i = get a (high - i)) ->
                 sortedOn 0 high r).
  { intros r Hr i j Hi' Hij Hj. rewrite !Hr by lia.
    destruct (Z.eq_dec i j) as [->|N]; [lia|].
    specialize (D (high - j) (high - i) ltac:(lia) ltac:(lia) ltac:(lia)).
    lia. }
  assert (Out : forall i, 0 <= i <= high -> i < mid \/ high - mid < i ->
                  get a1 i = get a (high - i)).
  { intros i Hi' [Li|Gi].
    - apply R1. lia.
    - destruct (R1 (high - i) ltac:(lia)) as (_ & Q).
      replace (high - (high - i)) with i in Q by lia. exact Q. }
  assert (Rng : forall i, 0 <= i <= high ->
                  minE bits <= get a i <= maxE bits).
  { intros i Hi'. split.
    - destruct (Z.eq_dec i high) as [->|N]; [exact Lo|].
      specialize (D i high ltac:(lia) ltac:(lia) ltac:(lia)).
      unfold high in *. lia.
    - destruct (Z.eq_dec i 0) as [->|N]; [exact Hi|].
      specialize (D 0 i ltac:(lia) ltac:(lia) ltac:(lia)). lia. }
  assert (Par : high = 2 * mid \/ high = 2 * mid + 1) by div_lia.
  destruct Par as [Ev|Od].
  - assert (All : forall i, 0 <= i <= high -> get a1 i = get a (high - i)).
    { intros i Hi'. destruct (Z.eq_dec i mid) as [->|N].
      - rewrite R2 by lia. f_equal. lia.
      - apply Out; lia. }
    rewrite <- (Rv a1 L1 All).
    apply (mainStep_returns_sorted bits _ true true a1 a1 high 0 mid high _
             mid);
      try lia; try (rewrite shiftr3; div_lia); [|exact (Sr a1 All)].
    rewrite (partitionMain_fixed bits a1 high 0 mid high); try lia.
    + rewrite shiftr1, Z.sub_0_r.
      destruct (Z.ltb_spec high (high / 2)); [exfalso; div_lia|reflexivity].
    + rewrite All by lia.
      pose proof (D (high - mid) high ltac:(lia) ltac:(lia) ltac:(lia)).
      pose proof (Rng high ltac:(lia)). pose proof (Rng (high - mid) ltac:(lia)).
      lia.
    + intros i Hi'. rewrite !All by lia. apply D; lia.
    + intros i Hi'. rewrite !All by lia.
      specialize (D (high - i) (high - mid) ltac:(lia) ltac:(lia) ltac:(lia)).
      lia.
  - assert (M1 : get a1 mid = get a mid) by (apply R2; lia).
    assert (M2 : get a1 (mid + 1) = get a (mid + 1)) by (apply R2; lia).
    set (a2 := upd (upd a1 mid (get a1 (mid + 1))) (mid + 1) (get a1 mid)).
    assert (L2 : len a2 = len a) by (unfold a2; rewrite !len_upd; exact L1).
    assert (All : forall i, 0 <= i <= high -> get a2 i = get a (high - i)).
    { intros i Hi'. unfold a2.
      destruct (Z.eq_dec i (mid + 1)) as [->|N1].
      - rewrite get_upd_eq by (rewrite len_upd; lia). rewrite M1.
        f_equal. lia.
      - rewrite get_upd_ne by lia.
        destruct (Z.eq_dec i mid) as [->|N2].
        + rewrite get_upd_eq by lia. rewrite M2. f_equal. lia.
        + rewrite get_upd_ne by lia. apply Out; lia. }
    rewrite <- (Rv a2 L2 All).
    apply (mainStep_returns_sorted bits _ true true a1 a2 high 0 mid high _
             (mid + 1));
      try lia; try (rewrite shiftr3; div_lia); [|exact (Sr a2 All)].
    rewrite (partitionMain_pair bits a1 high 0 mid high); try lia.
    + fold a2. rewrite shiftr1, Z.sub_0_r.
      destruct (Z.ltb_spec (high - 1) (high / 2));
        [exfalso; div_lia|reflexivity].
    + rewrite M1. pose proof (Rng mid ltac:(lia)).
      pose proof (D mid high ltac:(lia) ltac:(lia) ltac:(lia)).
      pose proof (Rng high ltac:(lia)). lia.
    + rewrite M1, M2. apply D; lia.
    + intros i Hi'. rewrite M1, Out by lia. apply D; lia.
    + intros i Hi'. rewrite M1, Out by lia.
      specialize (D (high - i) mid ltac:(lia) ltac:(lia) ltac:(lia)). lia.
Qed.

Lemma blipsort_descending_witness :
  let a := rev (map Z.of_nat (seq 0 100)) in
  blipsort 8 1 a 100 = Ok (rev a).
Proof.
  intros a. apply (blipsort_descending 8 a 100); try concrete.
  intros i j Hi Hij Hj.
  assert (La : len a = 100) by (vm_compute; reflexivity).
  replace i with (len a - 1 - (99 - i)) by lia.
  replace j with (len a - 1 - (99 - j)) by lia.
  rewrite <- (get_rev a (99 - i)), <- (get_rev a (99 - j)) by lia.
  apply (ascending_get (rev a)); [vm_compute; reflexivity|lia|lia|].
  rewrite len_rev. lia.
Defined.

(** Checks of a whole array, for cell after cell. *)
Lemma get_In (a : arr) (k : Z) : 0 <= k < len a -> In (get a k) a.
Proof.
  unfold get, len. intros H. destruct (Z.ltb_spec k 0); [lia|].
  apply nth_In. lia.
Qed.

Lemma In_get (a : arr) (v : Z) :
  In v a -> exists k, 0 <= k < len a /\ get a k = v.
Proof.
  intros H. destruct (In_nth a v 0 H) as (n & Hn & E).
  exists (Z.of_nat n). unfold get, len.
  destruct (Z.ltb_spec (Z.of_nat n) 0); [lia|].
  rewrite Nat2Z.id. split; [lia|exact E].
Qed.

Lemma forallb_get (f : Z -> bool) (a : arr) (k : Z) :
  forallb f a = true -> 0 <= k < len a -> f (get a k) = true.
Proof.
  intros H Hk. rewrite forallb_forall in H. apply H, get_In, Hk.
Qed.

Lemma aboveLeast_forallb (bits : Z) (a : arr) :
  forallb (fun v => (minE bits <? v) && (v <=? maxE bits)) a = true ->
  aboveLeast bits 0 (len a - 1) a.
Proof.
  intros H k Hk.
  pose proof (forallb_get _ a k H ltac:(lia)) as Q. cbv beta in Q.
  apply andb_prop in Q. destruct Q as (Q1 & Q2).
  apply Z.ltb_lt in Q1. apply Z.leb_le in Q2. lia.
Qed.

(** ** Equal values *)

(** Cells that all hold the same value are not changed by rearranging
    them. *)
Lemma permOn_const (lo hi v : Z) (a b : arr) :
  0 <= lo -> hi < len a ->
  (forall k, lo <= k <= hi -> get a k = v) ->
  permOn lo hi a b -> b = a.
Proof.
  intros H0 H1 C P. pose proof P as (L & O & _).
  apply arr_ext; [lia|]. intros i Hi.
  destruct (Z_lt_ge_dec i lo); [apply O; lia|].
  destruct (Z_lt_ge_dec hi i); [apply O; lia|].
  rewrite (C i) by lia.
  exact (permOn_forall (fun x => x = v) lo hi a b H0 H1 P C i ltac:(lia)).
Qed.

(** A frame that is not leftmost, behind a cell that holds [v], on cells
    that all hold [v]: the partition to the left takes them all and the
    frame returns. *)
Lemma qSort_const_inner (bits : Z) (fuel : nat) (a : arr)
  (low high height v : Z) :
  0 < bits -> 1 <= low -> low < high -> high < len a -> len a < 2 ^ 31 ->
  (forall k, low - 1 <= k <= high -> get a k = v) ->
  qSort bits (S fuel) true false a low high height = Ok a.
Proof.
  intros Hb H0 H1 H2 H3 C. cbn [qSort negb andb].
  rewrite u32_small by lia.
  destruct (candidates (high - low) low high)
    as [[[[cl sl] mid] sr] cr] eqn:Cd.
  destruct (candidates_in (high - low) low high cl sl mid sr cr
              ltac:(lia) ltac:(lia) Cd)
    as (I1 & I2 & I3 & I4 & I5 & I6 & _).
  rewrite selectPivot_fixed by (rewrite ?C by lia; lia).
  cbn [bind]. mem. rewrite (C (low - 1)) by lia.
  rewrite equalsCandidate_true; [|lia|lia|lia|left; rewrite C by lia; reflexivity].
  cbn [bind].
  destruct (partitionLeft_ok bits Hb a low high v ltac:(lia)
              ltac:(apply C; lia))
    as (a2 & l & E & B & Eq & Ne & _ & P).
  rewrite E. cbn [bind].
  assert (a2 = a)
    by (apply (permOn_const low high v); auto; try lia; intros; apply C; lia).
  subst a2.
  assert (l = high + 1).
  { destruct (Z.eq_dec l (high + 1)) as [|N]; [assumption|exfalso].
    apply (Ne l); [lia|]. apply C. lia. }
  subst l. destruct (Z.leb_spec high (high + 1)); [reflexivity|lia].
Qed.

(** X15.  [blipsort] on 88 cells or more that all hold the same value,
    other than the least element: the main partition of the root leaves
    the pivot at [low], and the partition to the left takes all the
    other cells at once; the array is returned as it was after one
    recursive call (on one cell) and at most one further turn of the
    loop. *)
Theorem blipsort_constant (bits : Z) (fuel : nat) (a : arr) (cnt v : Z) :
  0 < bits -> cnt = len a -> InsertionThreshold <= cnt ->
  cnt < 2 ^ 31 - 16 ->
  (forall k, 0 <= k < cnt -> get a k = v) ->
  minE bits < v <= maxE bits ->
  blipsort bits (S (S fuel)) a cnt = Ok a.
Proof.
  intros Hb Hc H1 H2 C Hv. unfold blipsort, InsertionThreshold in *.
  destruct (Z.ltb_spec cnt 88); [lia|].
  rewrite u32_small by lia. rewrite Z.add_0_l.
  set (high := cnt - 1). remember (S fuel) as f1 eqn:Hf.
  cbn [qSort negb andb]. rewrite Z.sub_0_r. rewrite (u32_small high) by lia.
  destruct (candidates high 0 high) as [[[[cl sl] mid] sr] cr] eqn:Cd.
  destruct (candidates_in high 0 high cl sl mid sr cr ltac:(lia)
              ltac:(lia) Cd)
    as (I1 & I2 & I3 & I4 & I5 & I6 & _).
  rewrite selectPivot_fixed by (rewrite ?C by lia; lia).
  cbn [bind]. unfold mainStep.
  destruct (partitionMain_ok bits Hb a 0 mid high ltac:(lia) high
              ltac:(rewrite C by lia; exact Hv))
    as (a2 & l0 & work & E & B & Lt & Eq & Ge & P).
  rewrite E. cbn [bind].
  assert (a2 = a)
    by (apply (permOn_const 0 high v); auto; try lia; intros; apply C; lia).
  subst a2.
  assert (l0 = 0).
  { destruct (Z.eq_dec l0 0) as [|N]; [assumption|exfalso].
    specialize (Lt 0 ltac:(lia)). rewrite !C in Lt by lia. lia. }
  subst l0. unfold skipPivot.
  destruct (Z.ltb_spec 0 0); [lia|]. destruct (Z.ltb_spec 0 high); [|lia].
  change (0 - 0) with 0. change (0 - 0) with 0. change (0 + 1) with 1.
  change (u32 0) with 0. rewrite (u32_small (high - 1)) by lia.
  rewrite shiftr3.
  destruct (Z.leb_spec (high / 8) 0); [exfalso; div_lia|]. cbn [andb].
  change (scramble a 0 0 0) with (Ok a). cbn [bind].
  destruct (scramble_permOn a 1 high (high - 1) ltac:(lia) ltac:(lia)
              ltac:(lia) ltac:(lia)) as (a4 & E4 & P4).
  rewrite E4. cbn [bind].
  assert (a4 = a)
    by (apply (permOn_const 1 high v); auto; try lia; intros; apply C; lia).
  subst a4.
  assert (Sa : forall lo hi, 0 <= lo -> hi <= high -> sortedOn lo hi a).
  { intros lo hi Hlo Hhi i j Hi Hij Hj. rewrite !C by lia. lia. }
  unfold l1. subst f1.
  rewrite qSort_small by (rewrite u32_small; unfold InsertionThreshold; lia).
  rewrite iSort_sorted by (try apply Sa; lia).
  cbn [bind]. unfold l2. cbn [andb].
  rewrite (u32_small (high - 1)) by lia.
  destruct (Z.ltb_spec (high - 1) InsertionThreshold).
  - rewrite iSort_sorted by (try apply Sa; lia). reflexivity.
  - destruct (Z.ltb_spec (bitScanRev cnt - 1) 0).
    + destruct (hSort_ok a 1 high ltac:(lia) ltac:(lia) ltac:(lia))
        as (a5 & E5 & _ & P5).
      rewrite E5. f_equal.
      apply (permOn_const 1 high v); auto; try lia. intros; apply C; lia.
    + apply (qSort_const_inner bits fuel a 1 high _ v); auto; try lia.
      intros k Hk. apply C. lia.
Qed.

Lemma blipsort_constant_witness :
  blipsort 8 2 (repeat (-127) 200) 200 = Ok (repeat (-127) 200).
Proof.
  apply (blipsort_constant 8 0 (repeat (-127) 200) 200 (-127)); try concrete.
  intros k Hk.
  pose proof (forallb_get (fun x => x =? -127) (repeat (-127) 200) k
                ltac:(vm_compute; reflexivity)
                ltac:(change (len (repeat (-127) 200)) with 200; lia)) as Q.
  apply Z.eqb_eq in Q. exact Q.
Defined.

(** ** The partition to the left on any values *)

(** X16.  The partition to the left, in any frame with a cell [h =
    a[low - 1]] before it and whatever the cells hold (the greatest
    element among them, where the stopper [h + 1] wraps around to the
    least): it returns with the cells that hold [h] in front, the others
    behind them from the new [low] on, the interval rearranged and no
    other cell touched. *)
Theorem partitionLeft_any_value (bits : Z) (a : arr) (low high : Z) :
  0 < bits -> 1 <= low <= high -> high < len a ->
  exists a' l,
    partitionLeft bits a low high (get a (low - 1)) = Ok (a', l) /\
    low <= l <= high + 1 /\
    (forall i, low <= i < l -> get a' i = get a (low - 1)) /\
    (forall i, l <= i <= high -> get a' i <> get a (low - 1)) /\
    len a' = len a /\
    (forall k, k < low \/ high < k -> get a' k = get a k) /\
    Permutation (sub a low high) (sub a' low high).
Proof.
  intros Hb H0 H1.
  destruct (partitionLeft_ok bits Hb a low high (get a (low - 1))
              ltac:(lia) eq_refl)
    as (a' & l & E & B & Eq & Ne & _ & P).
  exists a', l. split; [exact E|]. split; [exact B|].
  split; [exact Eq|]. split; [exact Ne|].
  pose proof P as (L & O & _).
  split; [lia|]. split; [exact O|].
  apply permOn_sub; auto; lia.
Qed.

Lemma partitionLeft_any_value_witness :
  let a := [127; 127; 5; 127; -128; 127] in
  exists a' l,
    partitionLeft 8 a 1 5 (get a (1 - 1)) = Ok (a', l) /\
    1 <= l <= 5 + 1 /\
    (forall i, 1 <= i < l -> get a' i = get a (1 - 1)) /\
    (forall i, l <= i <= 5 -> get a' i <> get a (1 - 1)) /\
    len a' = len a /\
    (forall k, k < 1 \/ 5 < k -> get a' k = get a k) /\
    Permutation (sub a 1 5) (sub a' 1 5).
Proof.
  intros a. apply (partitionLeft_any_value 8 a 1 5); concrete.
Defined.

(** ** The frames of the driver *)

(** X17.  A leftmost frame of [qSort] (the root among them) on an
    interval none of whose cells holds the least element, with fuel for
    the width of the interval: it returns with the interval in ascending
    order and rearranged, and no cell outside of it touched. *)
Theorem qSort_leftmost_sorts (bits : Z) (fuel : nat) (Root : bool)
  (a : arr) (low high height : Z) :
  0 < bits -> 0 <= low <= high -> high < len a -> len a < 2 ^ 31 - 16 ->
  (Root = true -> low < high) ->
  aboveLeast bits low high a ->
  high - low < Z.of_nat fuel - 1 ->
  exists a', qSort bits fuel Root true a low high height = Ok a' /\
    sortedOn low high a' /\
    Permutation (sub a low high) (sub a' low high) /\
    len a' = len a /\
    (forall k, k < low \/ high < k -> get a' k = get a k).
Proof.
  intros Hb H0 H1 H2 HR A F.
  destruct (qSort_sorts bits fuel Hb Root true a low high height
              H0 H1 H2 HR A ltac:(intros T; discriminate) F)
    as (a' & E & P & S).
  exists a'. split; [exact E|]. split; [exact S|].
  split; [apply permOn_sub; auto; lia|].
  destruct P as (L & O & _). auto.
Qed.

Lemma qSort_leftmost_sorts_witness :
  let a := map (fun i => Z.of_nat i * 37 mod 101 - 50) (seq 0 100) in
  exists a', qSort 8 101 true true a 0 99 6 = Ok a' /\
    sortedOn 0 99 a' /\
    Permutation (sub a 0 99) (sub a' 0 99) /\
    len a' = len a /\
    (forall k, k < 0 \/ 99 < k -> get a' k = get a k).
Proof.
  intros a. apply (qSort_leftmost_sorts 8 101 true a 0 99 6); try concrete.
  apply (aboveLeast_forallb 8 a). vm_compute. reflexivity.
Defined.

(** X18.  A frame of [qSort] that is not leftmost, on an interval whose
    cells hold no less than the cell before it, sorts whatever values of
    the element type the cells hold, the least one among them: with fuel
    for the width of the interval it returns with the interval in
    ascending order and rearranged, and no cell outside of it touched.
    (The pivot of its main partition is never the least element: a frame
    whose pivot equals the cell before it takes the partition to the
    left.) *)
Theorem qSort_inner_sorts (bits : Z) (fuel : nat) (Root : bool) (a : arr)
  (low high height : Z) :
  0 < bits -> 1 <= low <= high -> high < len a -> len a < 2 ^ 31 - 16 ->
  (Root = true -> low < high) ->
  (forall k, low - 1 <= k <= high -> minE bits <= get a k <= maxE bits) ->
  (forall k, low <= k <= high -> get a (low - 1) <= get a k) ->
  high - low < Z.of_nat fuel - 1 ->
  exists a', qSort bits fuel Root false a low high height = Ok a' /\
    sortedOn low high a' /\
    Permutation (sub a low high) (sub a' low high) /\
    len a' = len a /\
    (forall k, k < low \/ high < k -> get a' k = get a k).
Proof.
  intros Hb H0 H1 H2 HR A G F.
  destruct (qSort_sorts_pivotable bits fuel Hb Root false a low high height
              ltac:(lia) H1 H2 HR A ltac:(intros _; split; [lia|exact G]) F)
    as (a' & E & P & S).
  exists a'. split; [exact E|]. split; [exact S|].
  split; [apply permOn_sub; auto; lia|].
  destruct P as (L & O & _). auto.
Qed.

Lemma qSort_inner_sorts_witness :
  let a := -128 :: map (fun i => if Z.of_nat i mod 3 =? 0 then -128
                                 else Z.of_nat i * 37 mod 101 - 50)
                     (seq 0 100) in
  exists a', qSort 8 101 false false a 1 100 3 = Ok a' /\
    sortedOn 1 100 a' /\
    Permutation (sub a 1 100) (sub a' 1 100) /\
    len a' = len a /\
    (forall k, k < 1 \/ 100 < k -> get a' k = get a k).
Proof.
  intros a. apply (qSort_inner_sorts 8 101 false a 1 100 3); try concrete.
  - assert (La : len a = 101) by (vm_compute; reflexivity).
    intros k Hk.
    pose proof (forallb_get (fun v => (minE 8 <=? v) && (v <=? maxE 8)) a k
                  ltac:(vm_compute; reflexivity) ltac:(lia)) as Q.
    cbv beta in Q. apply andb_prop in Q. destruct Q as (Q1 & Q2).
    apply Z.leb_le in Q1. apply Z.leb_le in Q2. lia.
  - assert (La : len a = 101) by (vm_compute; reflexivity).
    intros k Hk.
    pose proof (forallb_get (fun v => get a 0 <=? v) a k
                  ltac:(vm_compute; reflexivity) ltac:(lia)) as Q.
    cbv beta in Q. apply Z.leb_le in Q. exact Q.
Defined.

(** ** The result of [blipsort] *)

(** X19.  [blipsort] on an array of at least one cell and fewer than
    [2^31 - 16] none of whose cells holds the least element, with fuel
    for its length: it returns the array in ascending order, and
    rearranged. *)
Theorem blipsort_sorts (bits : Z) (fuel : nat) (a : arr) (cnt : Z) :
  0 < bits -> cnt = len a -> 1 <= cnt -> cnt < 2 ^ 31 - 16 ->
  aboveLeast bits 0 (cnt - 1) a ->
  cnt < Z.of_nat fuel ->
  exists a', blipsort bits fuel a cnt = Ok a' /\
    Permutation a a' /\ sortedOn 0 (cnt - 1) a'.
Proof.
  intros Hb Hc H1 H2 A F. unfold blipsort.
  rewrite u32_small by lia. rewrite Z.add_0_l.
  assert (S : sorts 0 (cnt - 1) a
            (if cnt <? InsertionThreshold
             then '(_, a0) <- iSort false true a 0 (cnt - 1) ;; Ok a0
             else qSort bits fuel true true a 0 (cnt - 1) (bitScanRev cnt))).
  { destruct (Z.ltb_spec cnt InsertionThreshold).
    - apply iSort_sorts; try lia. intros E. discriminate.
    - unfold InsertionThreshold in *.
      apply qSort_sorts; auto; try lia. intros E. discriminate. }
  destruct S as (a' & E & P & S). exists a'.
  split; [exact E|]. split; [|exact S].
  apply (permOn_perm 0 (cnt - 1)). exact P.
Qed.

Lemma blipsort_sorts_witness :
  let a := map (fun i => Z.of_nat i * 37 mod 101 - 50) (seq 0 100) in
  exists a', blipsort 8 101 a 100 = Ok a' /\
    Permutation a a' /\ sortedOn 0 (100 - 1) a'.
Proof.
  intros a. apply (blipsort_sorts 8 101 a 100); try concrete.
  apply (aboveLeast_forallb 8 a). vm_compute. reflexivity.
Defined.

(** X20.  On 1 to 87 cells [blipsort] is the guarded insertion sort and
    sorts whatever the cells hold, the least element among them: it
    returns the array in ascending order, and rearranged. *)
Theorem blipsort_small_sorts (bits : Z) (fuel : nat) (a : arr) (cnt : Z) :
  cnt = len a -> 1 <= cnt < InsertionThreshold ->
  exists a', blipsort bits fuel a cnt = Ok a' /\
    Permutation a a' /\ sortedOn 0 (cnt - 1) a'.
Proof.
  intros Hc H1. unfold blipsort, InsertionThreshold in *.
  rewrite u32_small by lia. rewrite Z.add_0_l.
  destruct (Z.ltb_spec cnt 88); [|lia].
  destruct (iSort_sorts true a 0 (cnt - 1) ltac:(lia) ltac:(lia) ltac:(lia)
              ltac:(intros E; discriminate)) as (a' & E & P & S).
  exists a'. split; [exact E|]. split; [|exact S].
  apply (permOn_perm 0 (cnt - 1)). exact P.
Qed.

Lemma blipsort_small_sorts_witness :
  let a := [3; -128; 5; -128; 127; 0; 3] in
  exists a', blipsort 8 0 a 7 = Ok a' /\
    Permutation a a' /\ sortedOn 0 (7 - 1) a'.
Proof.
  intros a. apply (blipsort_small_sorts 8 0 a 7); concrete.
Defined.

(** An array in order is the only one in order among its
    rearrangements. *)
Lemma sorted_perm_eq (a b : arr) :
  Permutation a b ->
  sortedOn 0 (len a - 1) a -> sortedOn 0 (len b - 1) b -> a = b.
Proof.
  revert b. induction a as [|x a' IH]; intros b P Sa Sb.
  - apply Permutation_nil in P. now subst.
  - destruct b as [|y b'].
    + apply Permutation_sym, Permutation_nil in P. discriminate.
    + rewrite len_cons in Sa, Sb.
      assert (Ha : In y (x :: a'))
        by (apply (Permutation_in y (Permutation_sym P)); now left).
      assert (Hb : In x (y :: b'))
        by (apply (Permutation_in x P); now left).
      apply In_get in Ha. destruct Ha as (i & Hi & Ei).
      apply In_get in Hb. destruct Hb as (j & Hj & Ej).
      rewrite len_cons in Hi, Hj.
      pose proof (Sa 0 i ltac:(lia) ltac:(lia) ltac:(lia)) as Q1.
      pose proof (Sb 0 j ltac:(lia) ltac:(lia) ltac:(lia)) as Q2.
      rewrite Ei in Q1. rewrite Ej in Q2.
      change (get (x :: a') 0) with x in Q1.
      change (get (y :: b') 0) with y in Q2.
      assert (E : y = x) by lia. clear Ei Ej Q1 Q2. subst y.
      f_equal. apply IH.
      * exact (Permutation_cons_inv P).
      * intros u v Hu Huv Hv.
        rewrite <- (get_cons x a' u), <- (get_cons x a' v) by lia.
        apply Sa; lia.
      * intros u v Hu Huv Hv.
        rewrite <- (get_cons x b' u), <- (get_cons x b' v) by lia.
        apply Sb; lia.
Qed.

Lemma aboveLeast_perm (bits n : Z) (a b : arr) :
  n = len a -> Permutation a b ->
  aboveLeast bits 0 (n - 1) a -> aboveLeast bits 0 (n - 1) b.
Proof.
  intros Hn P A k Hk.
  assert (Lb : len b = len a)
    by (unfold len; now rewrite (Permutation_length P)).
  assert (I : In (get b k) a)
    by (apply (Permutation_in _ (Permutation_sym P)), get_In; lia).
  apply In_get in I. destruct I as (i & Hi & <-). apply A. lia.
Qed.

(** [blipsort] on an array of at least one cell: up to 87 cells, and from
    88 on when no cell holds the least element, it returns the array in
    order and rearranged. *)
Lemma blipsort_returns_sorted (bits : Z) (fuel : nat) (a : arr) (cnt : Z) :
  0 < bits -> cnt = len a -> 1 <= cnt -> cnt < 2 ^ 31 - 16 ->
  (InsertionThreshold <= cnt -> aboveLeast bits 0 (cnt - 1) a) ->
  cnt < Z.of_nat fuel ->
  exists a', blipsort bits fuel a cnt = Ok a' /\
    Permutation a a' /\ sortedOn 0 (cnt - 1) a'.
Proof.
  intros Hb Hc H1 H2 A F. unfold blipsort.
  rewrite u32_small by lia. rewrite Z.add_0_l.
  assert (S : sorts 0 (cnt - 1) a
            (if cnt <? InsertionThreshold
             then '(_, a0) <- iSort false true a 0 (cnt - 1) ;; Ok a0
             else qSort bits fuel true true a 0 (cnt - 1) (bitScanRev cnt))).
  { destruct (Z.ltb_spec cnt InsertionThreshold).
    - apply iSort_sorts; try lia. intros E. discriminate.
    - specialize (A ltac:(lia)). unfold InsertionThreshold in *.
      apply qSort_sorts; auto; try lia. intros E. discriminate. }
  destruct S as (a' & E & P & S). exists a'.
  split; [exact E|]. split; [|exact S].
  apply (permOn_perm 0 (cnt - 1)). exact P.
Qed.

(** X21.  What [blipsort] returns depends on the values in the array
    only, not on their order (nor on the fuel of the model): on two
    arrays that are rearrangements of one another, of 1 to 87 cells with
    any values or of 88 cells or more without the least element, it
    returns the same array. *)
Theorem blipsort_canonical (bits : Z) (fa fb : nat) (a b : arr) (cnt : Z) :
  0 < bits -> cnt = len a -> 1 <= cnt -> cnt < 2 ^ 31 - 16 ->
  (InsertionThreshold <= cnt -> aboveLeast bits 0 (cnt - 1) a) ->
  Permutation a b ->
  cnt < Z.of_nat fa -> cnt < Z.of_nat fb ->
  exists s, blipsort bits fa a cnt = Ok s /\ blipsort bits fb b cnt = Ok s.
Proof.
  intros Hb Hc H1 H2 A P Fa Fb.
  assert (Lb : len b = len a)
    by (unfold len; now rewrite (Permutation_length P)).
  destruct (blipsort_returns_sorted bits fa a cnt Hb Hc H1 H2 A Fa)
    as (a' & Ea & Pa & Sa).
  destruct (blipsort_returns_sorted bits fb b cnt Hb ltac:(lia) H1 H2
              ltac:(intros T; apply (aboveLeast_perm bits cnt a); auto)
              Fb)
    as (b' & Eb & Pb & Sb).
  exists a'. split; [exact Ea|]. rewrite Eb. f_equal.
  assert (La : len a' = cnt)
    by (unfold len in *; rewrite <- (Permutation_length Pa); lia).
  assert (Lb' : len b' = cnt)
    by (unfold len in *; rewrite <- (Permutation_length Pb); lia).
  symmetry. apply sorted_perm_eq.
  - eapply Permutation_trans; [apply Permutation_sym, Pa|].
    eapply Permutation_trans; [exact P|exact Pb].
  - now rewrite La.
  - now rewrite Lb'.
Qed.

Lemma blipsort_canonical_witness :
  let a := map (fun i => Z.of_nat i * 37 mod 101 - 50) (seq 0 100) in
  exists s, blipsort 8 101 a 100 = Ok s /\ blipsort 8 200 (rev a) 100 = Ok s.
Proof.
  intros a. apply (blipsort_canonical 8 101 200 a (rev a) 100); try concrete.
  - intros _. apply (aboveLeast_forallb 8 a). vm_compute. reflexivity.
  - apply Permutation_rev.
Defined.

(** X22.  [blipsort] on what [blipsort] returned returns it again. *)
Theorem blipsort_idempotent (bits : Z) (fa fb : nat) (a : arr) (cnt : Z) :
  0 < bits -> cnt = len a -> 1 <= cnt -> cnt < 2 ^ 31 - 16 ->
  (InsertionThreshold <= cnt -> aboveLeast bits 0 (cnt - 1) a) ->
  cnt < Z.of_nat fa -> cnt < Z.of_nat fb ->
  exists s, blipsort bits fa a cnt = Ok s /\ blipsort bits fb s cnt = Ok s.
Proof.
  intros Hb Hc H1 H2 A Fa Fb.
  destruct (blipsort_returns_sorted bits fa a cnt Hb Hc H1 H2 A Fa)
    as (s & Ea & Pa & Sa).
  assert (Ls : len s = cnt)
    by (unfold len in *; rewrite <- (Permutation_length Pa); lia).
  destruct (blipsort_returns_sorted bits fb s cnt Hb ltac:(lia) H1 H2
              ltac:(intros T; apply (aboveLeast_perm bits cnt a); auto)
              Fb)
    as (s' & Es & Ps & Ss).
  exists s. split; [exact Ea|]. rewrite Es. f_equal.
  symmetry. apply sorted_perm_eq.
  - exact Ps.
  - now rewrite Ls.
  - assert (Ls' : len s' = cnt)
      by (unfold len in *; rewrite <- (Permutation_length Ps); lia).
    now rewrite Ls'.
Qed.

Lemma blipsort_idempotent_witness :
  let a := map (fun i => Z.of_nat i * 37 mod 101 - 50) (seq 0 100) in
  exists s, blipsort 8 101 a 100 = Ok s /\ blipsort 8 101 s 100 = Ok s.
Proof.
  intros a. apply (blipsort_idempotent 8 101 101 a 100); try concrete.
  intros _. apply (aboveLeast_forallb 8 a). vm_compute. reflexivity.
Defined.

(** ** The fall back on heap sort *)

(** X23.  A frame of [qSort] other than the root that is entered with
    the height used up ([height < 0]) on 89 cells or more is the heap
    sort of its interval: it returns with the interval in ascending
    order and rearranged, whatever values the cells hold and whether or
    not the frame is leftmost or guarded. *)
Theorem qSort_fallback_sorts (bits : Z) (fuel : nat) (leftmost : bool)
  (a : arr) (low high height : Z) :
  0 <= low -> InsertionThreshold <= high - low -> high < len a ->
  len a < 2 ^ 31 -> height < 0 ->
  qSort bits (S fuel) false leftmost a low high height = hSort a low high /\
  exists a', qSort bits (S fuel) false leftmost a low high height = Ok a' /\
    sortedOn low high a' /\
    Permutation (sub a low high) (sub a' low high) /\
    len a' = len a /\
    (forall k, k < low \/ high < k -> get a' k = get a k).
Proof.
  intros H0 H1 H2 H3 Hh. unfold InsertionThreshold in *.
  assert (E : qSort bits (S fuel) false leftmost a low high height =
              hSort a low high).
  { cbn [qSort negb andb]. rewrite u32_small by lia.
    destruct (Z.ltb_spec (high - low) InsertionThreshold) as [Lt|_];
      [unfold InsertionThreshold in Lt; lia|].
    destruct (Z.ltb_spec height 0); [reflexivity|lia]. }
  split; [exact E|]. rewrite E.
  destruct (hSort_ok a low high ltac:(lia) H2 H3) as (a' & E' & S & P).
  exists a'. split; [exact E'|]. split; [exact S|].
  split; [apply permOn_sub; auto; lia|].
  destruct P as (L & O & _). auto.
Qed.

Lemma qSort_fallback_sorts_witness :
  let a := map (fun i => if Z.of_nat i mod 3 =? 0 then -128
                         else Z.of_nat i * 37 mod 101 - 50) (seq 0 100) in
  qSort 8 1 false true a 0 99 (-1) = hSort a 0 99 /\
  exists a', qSort 8 1 false true a 0 99 (-1) = Ok a' /\
    sortedOn 0 99 a' /\
    Permutation (sub a 0 99) (sub a' 0 99) /\
    len a' = len a /\
    (forall k, k < 0 \/ 99 < k -> get a' k = get a k).
Proof.
  intros a. apply (qSort_fallback_sorts 8 0 true a 0 99 (-1)); concrete.
Defined.

(** ** The sides of a split *)

(** X24.  Whenever the main partition of a frame of two cells or more
    returns, the two sides that the driver goes on with, [low .. l] and
    [g .. high] after the pivot was skipped, lie in the frame and are
    both narrower than it; no cell of the left side holds more than the
    pivot, no cell of the right side less, and a cell between them holds
    the pivot. *)
Theorem partition_sides_narrower (bits : Z) (a a' : arr)
  (x low mid high l0 l g : Z) (work : bool) :
  0 < bits -> 0 <= low <= mid -> mid <= high < len a -> low < high ->
  allE bits a = true ->
  partitionMain bits a x low mid high = Ok (a', l0, work) ->
  skipPivot l0 low high = (l, g) ->
  low <= l /\ l < high /\ low < g /\ g <= high /\ l < g /\
  l - low < high - low /\ high - g < high - low /\
  split3 low l g high (get a mid) a'.
Proof.
  intros Hb H0 H1 Hl A E K.
  pose proof (partitionMain_returns bits a a' x low mid high l0 work
                Hb H0 H1 A E) as Hp.
  destruct (partitionMain_ok bits Hb a low mid high ltac:(lia) x Hp)
    as (a2 & l2 & w2 & E2 & B & Lt & Eq & Ge & P).
  rewrite E in E2. inversion E2. subst a2 l2 w2.
  destruct (skipPivot_split a' low high l0 (get a mid) Hl B Lt Eq Ge)
    as (l' & g' & K' & B1 & B2 & B3 & B4 & B5 & Sp).
  rewrite K in K'. inversion K'. subst l' g'.
  repeat (split; [lia|]). exact Sp.
Qed.

Lemma partition_sides_narrower_witness :
  let a := [3; 1; 2; 5; 4] in
  0 <= 0 /\ 0 < 4 /\ 0 < 2 /\ 2 <= 4 /\ 0 < 2 /\
  0 - 0 < 4 - 0 /\ 4 - 2 < 4 - 0 /\
  split3 0 0 2 4 (get a 2) [1; 2; 3; 5; 4].
Proof.
  intros a.
  apply (partition_sides_narrower 8 a [1; 2; 3; 5; 4] 4 0 2 4 1 0 2 false);
    concrete.
Defined.

(** ** A prefix of a longer array *)

(** X25.  [blipsort(a, cnt)] on the first [cnt] cells of a longer array
    (1 to 87 cells with any values, or 88 cells or more none of which
    holds the least element) puts these cells in ascending order,
    rearranged, and touches no cell from [a + cnt] on. *)
Theorem blipsort_prefix (bits : Z) (fuel : nat) (a : arr) (cnt : Z) :
  0 < bits -> 1 <= cnt -> cnt <= len a -> len a < 2 ^ 31 - 16 ->
  (InsertionThreshold <= cnt -> aboveLeast bits 0 (cnt - 1) a) ->
  cnt < Z.of_nat fuel ->
  exists a', blipsort bits fuel a cnt = Ok a' /\
    sortedOn 0 (cnt - 1) a' /\
    Permutation (sub a 0 (cnt - 1)) (sub a' 0 (cnt - 1)) /\
    len a' = len a /\
    (forall k, cnt <= k -> get a' k = get a k).
Proof.
  intros Hb H1 Hc H2 A F. unfold blipsort.
  rewrite u32_small by lia. rewrite Z.add_0_l.
  assert (S : sorts 0 (cnt - 1) a
            (if cnt <? InsertionThreshold
             then '(_, a0) <- iSort false true a 0 (cnt - 1) ;; Ok a0
             else qSort bits fuel true true a 0 (cnt - 1) (bitScanRev cnt))).
  { destruct (Z.ltb_spec cnt InsertionThreshold).
    - apply iSort_sorts; try lia. intros E. discriminate.
    - specialize (A ltac:(lia)). unfold InsertionThreshold in *.
      apply qSort_sorts; auto; try lia. intros E. discriminate. }
  destruct S as (a' & E & P & S). exists a'.
  split; [exact E|]. split; [exact S|].
  split; [apply permOn_sub; auto; lia|].
  destruct P as (L & O & _). split; [lia|].
  intros k Hk. apply O. lia.
Qed.

Lemma blipsort_prefix_witness :
  let a := map (fun i => Z.of_nat i * 37 mod 101 - 50) (seq 0 100)
           ++ [-128; 7; -128] in
  exists a', blipsort 8 101 a 100 = Ok a' /\
    sortedOn 0 (100 - 1) a' /\
    Permutation (sub a 0 (100 - 1)) (sub a' 0 (100 - 1)) /\
    len a' = len a /\
    (forall k, 100 <= k -> get a' k = get a k).
Proof.
  intros a. apply (blipsort_prefix 8 101 a 100); try concrete.
  intros _ k Hk.
  assert (La : len a = 103) by (vm_compute; reflexivity).
  pose proof (forallb_get (fun v => (minE 8 <? v) && (v <=? maxE 8))
                (sub a 0 99) k ltac:(vm_compute; reflexivity)
                ltac:(change (len (sub a 0 99)) with 100; lia)) as Q.
  cbv beta in Q. rewrite get_sub in Q by lia.
  rewrite Z.add_0_l in Q.
  apply andb_prop in Q. destruct Q as (Q1 & Q2).
  apply Z.ltb_lt in Q1. apply Z.leb_le in Q2. lia.
Defined.
